(** * FastTyping: the typing-session logic of the trainer, embedded in Rocq

    The development follows the TypeScript sources:
    - [utils] ([shuffleArray], [calculateWPM], [calculateAccuracy],
      [saveScore], [getScoreHistory]),
    - [constants] ([DEFAULT_WORDS], [TIME_OPTIONS]),
    - [App] ([initGame], [startGame], [endGame], [handleInputChange] and the
      character matching of the active word),
    - [services/geminiService] (the words [generateThematicWords] makes of
      the answer of the model).

    JavaScript data is modelled as the language has it: strings are
    sequences of UTF-16 code units, the numbers that leave the integers
    (words per minute, accuracy) are IEEE-754 binary64 values, arrays live
    in a store and are passed by reference. *)

From Stdlib Require Import ZArith QArith Qround SpecFloat Ascii String Lia.
From stdpp Require Import base option list gmap strings.

Local Open Scope Z_scope.

(** ** Strings *)

(** A string is the list of its UTF-16 code units; [length] is the
    [.length] of the source and [=] is [===]. *)
Abbreviation jsstring := (list N).

(** Literals of the source that are plain ASCII. *)
Definition js (s : string) : jsstring := N_of_ascii <$> list_ascii_of_string s.

(** WhiteSpace and LineTerminator code units, the ones [trim] strips. *)
Definition is_white_space (c : N) : bool :=
  bool_decide (c ∈ [9; 10; 11; 12; 13; 32; 160; 5760; 8232; 8233; 8239; 8287; 12288; 65279]%N)
  || ((8192 <=? c)%N && (c <=? 8202)%N).

Fixpoint trimStart (s : jsstring) : jsstring :=
  match s with
  | c :: s' => if is_white_space c then trimStart s' else s
  | [] => []
  end.

Definition trimEnd (s : jsstring) : jsstring := reverse (trimStart (reverse s)).

Definition trim (s : jsstring) : jsstring := trimEnd (trimStart s).

(** [s.endsWith(t)] *)
Definition endsWith (s t : jsstring) : bool :=
  bool_decide (drop (length s - length t) s = t).

Definition SPACE : jsstring := js " ".

(** ** Numbers *)

(** A [number] is a binary64 value.  Counters and indices of the program
    only ever hold small non-negative integers, on which binary64
    arithmetic is exact; they are kept as [nat] and [Z] and converted with
    [num] where the source divides. *)
Abbreviation number := spec_float.

Definition prec : Z := 53.
Definition emax : Z := 1024.

(** The binary64 value nearest to the integer [z]. *)
Definition num (z : Z) : number := binary_normalize prec emax z 0 false.

(** The integer [Math.round] yields on a finite [m * 2^e] of sign [s]:
    the nearest integer, ties towards plus infinity. *)
Definition round_half_up (s : bool) (m : positive) (e : Z) : Z :=
  let sm := if s then Z.neg m else Z.pos m in
  (2 * sm + 2 ^ (- e)) / 2 ^ (1 - e).

Definition Math_round (x : number) : number :=
  match x with
  | S754_finite s m e =>
      if 0 <=? e then x
      else let n := round_half_up s m e in
           if n =? 0 then S754_zero s else num n
  | _ => x
  end.

(** The integer [Math.floor] yields on a finite number, [m * 2^e] of sign
    [s]: the greatest integer that is not above it.  The zeros stay
    zeros.  NaN and the infinities, which [Math.floor] returns as they
    are, are no integers and stand as 0 here; the one caller,
    [shuffleArray], floors a product that is finite when [Math.random()]
    is in its range. *)
Definition Math_floor (x : number) : Z :=
  match x with
  | S754_finite s m e =>
      let sm := if s then Z.neg m else Z.pos m in
      if 0 <=? e then sm * 2 ^ e else sm / 2 ^ (- e)
  | _ => 0
  end.

(** ** Values and exceptions *)

(** The values [JSON.parse] builds and [JSON.stringify] prints.  An
    object lists its properties in the order of the language: the array
    indices in ascending order, then the other keys in the order they
    were added. *)
#[local] Unset Elimination Schemes.
Inductive jsvalue :=
  | VNull
  | VBool (b : bool)
  | VNumber (x : number)
  | VString (s : jsstring)
  | VArray (elements : list jsvalue)
  | VObject (properties : list (jsstring * jsvalue)).
#[local] Set Elimination Schemes.

Inductive Error := TypeError | SyntaxError.

(** The outcome of code that can throw. *)
Inductive result (A : Type) :=
  | Ok (a : A)
  | Throw (e : Error).
Arguments Ok {A} a.
Arguments Throw {A} e.

Definition bind {A B} (r : result A) (f : A -> result B) : result B :=
  match r with
  | Ok a => f a
  | Throw e => Throw e
  end.


(** ** JSON.parse *)

Section JSON.

Local Open Scope N_scope.

Definition json_ws (c : N) : bool :=
  (c =? 32) || (c =? 9) || (c =? 10) || (c =? 13).

Fixpoint skip_ws (s : jsstring) : jsstring :=
  match s with
  | c :: r => if json_ws c then skip_ws r else s
  | [] => []
  end.

Definition digit (c : N) : option N :=
  if (48 <=? c) && (c <=? 57) then Some (c - 48) else None.

Definition hex_digit (c : N) : option N :=
  if (48 <=? c) && (c <=? 57) then Some (c - 48)
  else if (97 <=? c) && (c <=? 102) then Some (c - 87)
  else if (65 <=? c) && (c <=? 70) then Some (c - 55)
  else None.

(** The characters of a string after its opening quote, up to the closing
    one; [acc] holds the code units read so far, last first. *)
Fixpoint parse_chars (s acc : jsstring) : option (jsstring * jsstring) :=
  match s with
  | [] => None
  | c :: r =>
      if c =? 34 then Some (reverse acc, r)
      else if c =? 92 then
        match r with
        | e :: r1 =>
            if e =? 34 then parse_chars r1 (34 :: acc)
            else if e =? 92 then parse_chars r1 (92 :: acc)
            else if e =? 47 then parse_chars r1 (47 :: acc)
            else if e =? 98 then parse_chars r1 (8 :: acc)
            else if e =? 102 then parse_chars r1 (12 :: acc)
            else if e =? 110 then parse_chars r1 (10 :: acc)
            else if e =? 114 then parse_chars r1 (13 :: acc)
            else if e =? 116 then parse_chars r1 (9 :: acc)
            else if e =? 117 then
              match r1 with
              | h1 :: h2 :: h3 :: h4 :: r2 =>
                  match hex_digit h1, hex_digit h2, hex_digit h3, hex_digit h4 with
                  | Some d1, Some d2, Some d3, Some d4 =>
                      parse_chars r2 (((d1 * 16 + d2) * 16 + d3) * 16 + d4 :: acc)
                  | _, _, _, _ => None
                  end
              | _ => None
              end
            else None
        | [] => None
        end
      else if c <? 32 then None
      else parse_chars r (c :: acc)
  end.

(** A run of decimal digits: their value, their count, and the rest. *)
Fixpoint digits (s : jsstring) (acc : N) (count : nat) : N * nat * jsstring :=
  match s with
  | c :: r =>
      match digit c with
      | Some d => digits r (10 * acc + d) (S count)
      | None => (acc, count, s)
      end
  | [] => (acc, count, s)
  end.

(** The array index that a property key is, if it is one: the decimal
    text, without a leading zero, of an integer below [2^32 - 1]. *)
Definition array_index (key : jsstring) : option N :=
  match key with
  | [] => None
  | c :: rest =>
      if (c =? 48) && bool_decide (rest <> []) then None
      else match digits key 0 0 with
           | (n, _, []) => if n <? 4294967295 then Some n else None
           | _ => None
           end
  end.

(** [key] is listed before [k] among the properties of an object. *)
Definition listed_before (key k : jsstring) : bool :=
  match array_index key, array_index k with
  | Some a, Some b => a <? b
  | Some _, None => true
  | None, _ => false
  end.

(** The properties after [key] was given the value [v]: a property that
    is there keeps its place and takes the value; a new one takes its
    place among the array indices, or comes last. *)
Fixpoint define_property (key : jsstring) (v : jsvalue) (props : list (jsstring * jsvalue)) :
    list (jsstring * jsvalue) :=
  match props with
  | [] => [(key, v)]
  | (k, w) :: rest =>
      if bool_decide (k = key) then (k, v) :: rest
      else if listed_before key k then (key, v) :: props
      else (k, w) :: define_property key v rest
  end.

(** The binary64 value nearest to [(-1)^s * m * 10^e]: the division of
    [SpecFloat] rounds the exact quotient of the two integers. *)
Definition decimal_to_number (s : bool) (m : N) (e : Z) : number :=
  match m with
  | N0 => S754_zero s
  | Npos p =>
      if (0 <=? e)%Z
      then num ((if s then Z.neg p else Z.pos p) * 10 ^ e)%Z
      else SFdiv prec emax (S754_finite s p 0) (S754_finite false (Z.to_pos (10 ^ (- e))) 0)
  end.

(** [-? int frac? exp?] *)
Definition parse_number (s : jsstring) : option (number * jsstring) :=
  let '(neg, s1) := match s with
                    | c :: r => if c =? 45 then (true, r) else (false, s)
                    | [] => (false, s)
                    end in
  let int_part := match s1 with
                  | c :: r => if c =? 48 then Some (0, r)
                              else match digit c with
                                   | Some _ => let '(m, _, r') := digits s1 0 O in Some (m, r')
                                   | None => None
                                   end
                  | [] => None
                  end in
  match int_part with
  | None => None
  | Some (m, s2) =>
      let frac_part := match s2 with
                       | c :: r => if c =? 46
                                   then let '(m', n, r') := digits r m O in
                                        match n with O => None | _ => Some (m', n, r') end
                                   else Some (m, O, s2)
                       | [] => Some (m, O, s2)
                       end in
      match frac_part with
      | None => None
      | Some (m', n, s3) =>
          let exp_part := match s3 with
                          | c :: r =>
                              if (c =? 101) || (c =? 69) then
                                let '(eneg, r1) := match r with
                                                   | d :: r' => if d =? 45 then (true, r')
                                                                else if d =? 43 then (false, r')
                                                                else (false, r)
                                                   | [] => (false, r)
                                                   end in
                                let '(x, k, r2) := digits r1 0 O in
                                match k with
                                | O => None
                                | _ => Some ((if eneg then - Z.of_N x else Z.of_N x)%Z, r2)
                                end
                              else Some (0%Z, s3)
                          | [] => Some (0%Z, s3)
                          end in
          match exp_part with
          | None => None
          | Some (x, s4) => Some (decimal_to_number neg m' (x - Z.of_nat n), s4)
          end
      end
  end.

Definition starts_with (t s : jsstring) : option jsstring :=
  if bool_decide (take (length t) s = t) then Some (drop (length t) s) else None.

(** One value, after optional white space; [n] bounds the nesting and the
    number of elements, and the length of the text is always enough. *)
Fixpoint parse_value (n : nat) (s : jsstring) : option (jsvalue * jsstring) :=
  match n with
  | O => None
  | S n' =>
      match skip_ws s with
      | [] => None
      | c :: r =>
          if c =? 91 then
            match skip_ws r with
            | d :: r' => if d =? 93 then Some (VArray [], r') else parse_elements n' r []
            | [] => None
            end
          else if c =? 123 then
            match skip_ws r with
            | d :: r' => if d =? 125 then Some (VObject [], r') else parse_members n' r []
            | [] => None
            end
          else if c =? 34 then
            match parse_chars r [] with
            | Some (str, r') => Some (VString str, r')
            | None => None
            end
          else if c =? 116 then option_map (pair (VBool true)) (starts_with (js "true") (c :: r))
          else if c =? 102 then option_map (pair (VBool false)) (starts_with (js "false") (c :: r))
          else if c =? 110 then option_map (pair VNull) (starts_with (js "null") (c :: r))
          else match parse_number (c :: r) with
               | Some (x, r') => Some (VNumber x, r')
               | None => None
               end
      end
  end
(** The elements of an array after [[] or [,]; [acc] holds the ones read. *)
with parse_elements (n : nat) (s : jsstring) (acc : list jsvalue) : option (jsvalue * jsstring) :=
  match n with
  | O => None
  | S n' =>
      match parse_value n' s with
      | Some (v, r) =>
          match skip_ws r with
          | d :: r' =>
              if d =? 44 then parse_elements n' r' (acc ++ [v])
              else if d =? 93 then Some (VArray (acc ++ [v]), r')
              else None
          | [] => None
          end
      | None => None
      end
  end
(** The members of an object after [{] or [,]; [acc] holds the properties
    made of the ones read, and a key that comes again replaces its
    value. *)
with parse_members (n : nat) (s : jsstring) (acc : list (jsstring * jsvalue)) : option (jsvalue * jsstring) :=
  match n with
  | O => None
  | S n' =>
      match skip_ws s with
      | q :: r0 =>
          if q =? 34 then
            match parse_chars r0 [] with
            | Some (key, r1) =>
                match skip_ws r1 with
                | colon :: r2 =>
                    if colon =? 58 then
                      match parse_value n' r2 with
                      | Some (v, r3) =>
                          match skip_ws r3 with
                          | d :: r4 =>
                              if d =? 44 then parse_members n' r4 (define_property key v acc)
                              else if d =? 125 then Some (VObject (define_property key v acc), r4)
                              else None
                          | [] => None
                          end
                      | None => None
                      end
                    else None
                | [] => None
                end
            | None => None
            end
          else None
      | [] => None
      end
  end.

(** [JSON.parse(text)]: one value and nothing else, or a [SyntaxError]. *)
Definition JSON_parse (text : jsstring) : result jsvalue :=
  match parse_value (S (length text)) text with
  | Some (v, r) => match skip_ws r with
                   | [] => Ok v
                   | _ :: _ => Throw SyntaxError
                   end
  | None => Throw SyntaxError
  end.

End JSON.

(** ** The runtime *)

(** What the program asks of its environment.  [Math_random k] is the
    value of the [k]-th call of [Math.random()], [Date_now k] the value of
    the [k]-th call of [Date.now()]; [Number_toString36] prints a number in
    base 36 and [JSON_stringify] a value as text, and the program never
    looks into either text. *)
Class Runtime := {
  Math_random : nat -> number;
  Date_now : nat -> Z;
  Number_toString36 : number -> jsstring;
  JSON_stringify : jsvalue -> jsstring
}.

(** The language promises a number, a binary64 value in its canonical
    form, from 0 (included) to 1 (excluded). *)
Definition Math_random_in_range `{Runtime} : Prop :=
  forall k, valid_binary prec emax (Math_random k) = true /\
            SFleb (num 0) (Math_random k) = true /\
            SFltb (Math_random k) (num 1) = true.

(** [localStorage]: string keys to string values. *)
Abbreviation Storage := (gmap jsstring jsstring).

(** [localStorage.getItem(key) || fallback]: [null] and the empty string
    are the falsy outcomes. *)
Definition getItem_or (key fallback : jsstring) (localStorage : Storage) : jsstring :=
  match localStorage !! key with
  | Some [] | None => fallback
  | Some item => item
  end.

(** ** types *)

Module types.

Inductive GameStatus := idle | playing | finished.

Record GameStats := {
  wpm : number;
  accuracy : number;
  correctWords : nat;
  incorrectWords : nat;
  totalKeystrokes : nat;
  timeSpent : Z
}.

(** [ScoreEntry extends GameStats]: the inherited part is [base]. *)
Record ScoreEntry := {
  id : jsstring;
  timestamp : Z;
  topic : jsstring;
  base : GameStats
}.

Inductive WordStatus := pending | correct | incorrect | active.

Record WordObject := {
  text : jsstring;
  status : WordStatus
}.

#[global] Instance GameStatus_eq_dec : EqDecision GameStatus.
Proof. solve_decision. Defined.

#[global] Instance WordStatus_eq_dec : EqDecision WordStatus.
Proof. solve_decision. Defined.

End types.

(** A score as the value that is stored and kept in the history: the
    properties in the order of the object literal of [endGame]. *)
Definition ScoreEntry_value (e : types.ScoreEntry) : jsvalue :=
  let g := types.base e in
  VObject [
    (js "id", VString (types.id e));
    (js "timestamp", VNumber (num (types.timestamp e)));
    (js "topic", VString (types.topic e));
    (js "wpm", VNumber (types.wpm g));
    (js "accuracy", VNumber (types.accuracy g));
    (js "correctWords", VNumber (num (Z.of_nat (types.correctWords g))));
    (js "incorrectWords", VNumber (num (Z.of_nat (types.incorrectWords g))));
    (js "totalKeystrokes", VNumber (num (Z.of_nat (types.totalKeystrokes g))));
    (js "timeSpent", VNumber (num (types.timeSpent g)))
  ].

(** ** constants *)

Definition DEFAULT_WORDS : list jsstring := js <$> [
  "the"; "quick"; "brown"; "fox"; "jumps"; "over"; "the"; "lazy"; "dog";
  "programming"; "javascript"; "typescript"; "react"; "coding"; "developer";
  "software"; "engineer"; "performance"; "interface"; "dynamic"; "component";
  "function"; "variable"; "constant"; "database"; "server"; "cloud"; "network";
  "security"; "algorithm"; "design"; "structure"; "system"; "application";
  "mobile"; "desktop"; "browser"; "optimization"; "rendering"; "asynchronous"
]%string.

Definition TIME_OPTIONS : list Z := [15; 30; 60; 120; 300].

(** The identifiers of [THEMES]; labels and icons are presentation. *)
Definition THEMES : list jsstring := js <$> ["random"; "tech"; "nature"; "custom"]%string.

(** ** utils *)

Section utils.

Context `{Runtime}.

(** [Math.floor(Math.random() * (i + 1))] at the [k]-th call of
    [Math.random()]: the product is the binary64 one, rounded to nearest,
    ties to even, and the integer part of it is the index. *)
Definition random_index (k i : nat) : nat :=
  Z.to_nat (Math_floor (SFmul prec emax (Math_random k) (num (Z.of_nat i + 1)))).

Section Arrays.

Context {T : Type}.

(** Arrays are objects: a variable holds a reference into the store. *)
Abbreviation loc := positive.
Abbreviation store := (gmap loc (list T)).

(** [[a[i], a[j]] = [a[j], a[i]]] on the contents of an array: both reads
    come first, then [a[i]] and [a[j]] are written in this order.  A read
    past the end yields [undefined], which is no [T]; the loop below never
    does so on an array of fewer than [2^53] elements (lemma
    [random_index_le]; an array of the language has fewer than [2^32]),
    and the contents are then left as they are. *)
Definition swap (a : list T) (i j : nat) : list T :=
  match a !! j, a !! i with
  | Some aj, Some ai => <[j := ai]> (<[i := aj]> a)
  | _, _ => a
  end.

(** The same assignment through a reference. *)
Definition swap_at (newArray : loc) (i j : nat) (h : store) : store :=
  match h !! newArray with
  | Some a => <[newArray := swap a i j]> h
  | None => h
  end.

(** [for (let i = ...; i > 0; i--) { const j = ...; swap }], entered with
    the current [i]; [k] counts the calls of [Math.random()]. *)
Fixpoint shuffle_loop (newArray : loc) (i k : nat) (h : store) : store * nat :=
  match i with
  | O => (h, k)
  | S i' =>
      let j := random_index k i in
      shuffle_loop newArray i' (S k) (swap_at newArray i j h)
  end.

(** [shuffleArray(array)]: [newArray = [...array]] allocates a fresh array
    with the same contents, the loop shuffles it in place, and the
    reference to it is returned.  [None] only for a dangling reference,
    which the language does not have. *)
Definition shuffleArray (array : loc) (k : nat) (h : store) : option (loc * store * nat) :=
  match h !! array with
  | Some a =>
      let newArray := fresh (dom h) in
      let h1 := <[newArray := a]> h in
      let '(h2, k') := shuffle_loop newArray (length a - 1) k h1 in
      Some (newArray, h2, k')
  | None => None
  end.

(** The loop on the contents alone: what [shuffleArray] leaves in the
    array it returns (lemma [shuffleArray_contents]), for the callers that
    hand it a constant list and only read the result. *)
Fixpoint shuffle_pass (i k : nat) (a : list T) : list T * nat :=
  match i with
  | O => (a, k)
  | S i' => shuffle_pass i' (S k) (swap a i (random_index k i))
  end.

Definition shuffled (k : nat) (a : list T) : list T * nat :=
  shuffle_pass (length a - 1) k a.

End Arrays.

(** The statistics.  [/] and [*] are the binary64 operations, rounded to
    nearest, ties to even. *)
Definition calculateWPM (correctWords timeInSeconds : number) : number :=
  if SFleb timeInSeconds (num 0) then num 0
  else Math_round (SFmul prec emax (SFdiv prec emax correctWords timeInSeconds) (num 60)).

Definition calculateAccuracy (correct incorrect : number) : number :=
  let total := SFadd prec emax correct incorrect in
  if SFeqb total (num 0) then num 0
  else Math_round (SFmul prec emax (SFdiv prec emax correct total) (num 100)).

(** [saveScore(score)]: the stored text is parsed, the score pushed, the
    last 100 entries printed and stored.  Only an array has [push]. *)
Definition saveScore (score : jsvalue) (localStorage : Storage) : result Storage :=
  bind (JSON_parse (getItem_or (js "typing_scores") (js "[]") localStorage)) (fun history =>
  match history with
  | VArray entries =>
      let history' := entries ++ [score] in
      Ok (<[js "typing_scores" := JSON_stringify (VArray (drop (length history' - 100) history'))]> localStorage)
  | _ => Throw TypeError
  end).

Definition getScoreHistory (localStorage : Storage) : result jsvalue :=
  JSON_parse (getItem_or (js "typing_scores") (js "[]") localStorage).

End utils.

(** ** App *)

Module App.

Import types.

(** What the callback of an interval holds on to: the [endGame] of the
    render in which [startGame] ran, with the [duration], [selectedTopic]
    and [customTopic] of that render. *)
Record Closure := {
  closed_duration : Z;
  closed_selectedTopic : jsstring;
  closed_customTopic : jsstring
}.

Record State := {
  (* useState *)
  status : types.GameStatus;
  words : list types.WordObject;
  currentIndex : nat;
  inputValue : jsstring;
  timeLeft : Z;
  duration : Z;
  selectedTopic : jsstring;
  customTopic : jsstring;
  isLoading : bool;
  history : jsvalue;
  stats : types.GameStats;
  (* useRef *)
  timerRef : option nat;
  (* the environment: the intervals that run, by identifier, and the next
     identifier [setInterval] hands out; the word generations that are
     awaited, each with the [duration] that the [initGame] of its handler
     closed over; the storage; the calls made of [Math.random()] and of
     [Date.now()] *)
  intervals : gmap nat Closure;
  nextInterval : nat;
  generating : list Z;
  localStorage : Storage;
  randomCalls : nat;
  nowCalls : nat
}.

(** The state setters.  Every handler runs to its end on the state of the
    render it belongs to, and the updates it queued are applied in order
    before the next event. *)
Definition set_status (x : types.GameStatus) (s : State) : State :=
  {| status := x; words := words s; currentIndex := currentIndex s;
     inputValue := inputValue s; timeLeft := timeLeft s;
     duration := duration s; selectedTopic := selectedTopic s;
     customTopic := customTopic s; isLoading := isLoading s;
     history := history s; stats := stats s; timerRef := timerRef s;
     intervals := intervals s; nextInterval := nextInterval s;
     generating := generating s; localStorage := localStorage s;
     randomCalls := randomCalls s; nowCalls := nowCalls s |}.

Definition set_words (x : list types.WordObject) (s : State) : State :=
  {| status := status s; words := x; currentIndex := currentIndex s;
     inputValue := inputValue s; timeLeft := timeLeft s;
     duration := duration s; selectedTopic := selectedTopic s;
     customTopic := customTopic s; isLoading := isLoading s;
     history := history s; stats := stats s; timerRef := timerRef s;
     intervals := intervals s; nextInterval := nextInterval s;
     generating := generating s; localStorage := localStorage s;
     randomCalls := randomCalls s; nowCalls := nowCalls s |}.

Definition set_currentIndex (x : nat) (s : State) : State :=
  {| status := status s; words := words s; currentIndex := x;
     inputValue := inputValue s; timeLeft := timeLeft s;
     duration := duration s; selectedTopic := selectedTopic s;
     customTopic := customTopic s; isLoading := isLoading s;
     history := history s; stats := stats s; timerRef := timerRef s;
     intervals := intervals s; nextInterval := nextInterval s;
     generating := generating s; localStorage := localStorage s;
     randomCalls := randomCalls s; nowCalls := nowCalls s |}.

Definition set_inputValue (x : jsstring) (s : State) : State :=
  {| status := status s; words := words s; currentIndex := currentIndex s;
     inputValue := x; timeLeft := timeLeft s; duration := duration s;
     selectedTopic := selectedTopic s; customTopic := customTopic s;
     isLoading := isLoading s; history := history s; stats := stats s;
     timerRef := timerRef s; intervals := intervals s;
     nextInterval := nextInterval s; generating := generating s;
     localStorage := localStorage s; randomCalls := randomCalls s;
     nowCalls := nowCalls s |}.

Definition set_timeLeft (x : Z) (s : State) : State :=
  {| status := status s; words := words s; currentIndex := currentIndex s;
     inputValue := inputValue s; timeLeft := x; duration := duration s;
     selectedTopic := selectedTopic s; customTopic := customTopic s;
     isLoading := isLoading s; history := history s; stats := stats s;
     timerRef := timerRef s; intervals := intervals s;
     nextInterval := nextInterval s; generating := generating s;
     localStorage := localStorage s; randomCalls := randomCalls s;
     nowCalls := nowCalls s |}.

Definition set_duration (x : Z) (s : State) : State :=
  {| status := status s; words := words s; currentIndex := currentIndex s;
     inputValue := inputValue s; timeLeft := timeLeft s; duration := x;
     selectedTopic := selectedTopic s; customTopic := customTopic s;
     isLoading := isLoading s; history := history s; stats := stats s;
     timerRef := timerRef s; intervals := intervals s;
     nextInterval := nextInterval s; generating := generating s;
     localStorage := localStorage s; randomCalls := randomCalls s;
     nowCalls := nowCalls s |}.

Definition set_selectedTopic (x : jsstring) (s : State) : State :=
  {| status := status s; words := words s; currentIndex := currentIndex s;
     inputValue := inputValue s; timeLeft := timeLeft s;
     duration := duration s; selectedTopic := x;
     customTopic := customTopic s; isLoading := isLoading s;
     history := history s; stats := stats s; timerRef := timerRef s;
     intervals := intervals s; nextInterval := nextInterval s;
     generating := generating s; localStorage := localStorage s;
     randomCalls := randomCalls s; nowCalls := nowCalls s |}.

Definition set_customTopic (x : jsstring) (s : State) : State :=
  {| status := status s; words := words s; currentIndex := currentIndex s;
     inputValue := inputValue s; timeLeft := timeLeft s;
     duration := duration s; selectedTopic := selectedTopic s;
     customTopic := x; isLoading := isLoading s; history := history s;
     stats := stats s; timerRef := timerRef s; intervals := intervals s;
     nextInterval := nextInterval s; generating := generating s;
     localStorage := localStorage s; randomCalls := randomCalls s;
     nowCalls := nowCalls s |}.

Definition set_isLoading (x : bool) (s : State) : State :=
  {| status := status s; words := words s; currentIndex := currentIndex s;
     inputValue := inputValue s; timeLeft := timeLeft s;
     duration := duration s; selectedTopic := selectedTopic s;
     customTopic := customTopic s; isLoading := x; history := history s;
     stats := stats s; timerRef := timerRef s; intervals := intervals s;
     nextInterval := nextInterval s; generating := generating s;
     localStorage := localStorage s; randomCalls := randomCalls s;
     nowCalls := nowCalls s |}.

Definition set_history (x : jsvalue) (s : State) : State :=
  {| status := status s; words := words s; currentIndex := currentIndex s;
     inputValue := inputValue s; timeLeft := timeLeft s;
     duration := duration s; selectedTopic := selectedTopic s;
     customTopic := customTopic s; isLoading := isLoading s; history := x;
     stats := stats s; timerRef := timerRef s; intervals := intervals s;
     nextInterval := nextInterval s; generating := generating s;
     localStorage := localStorage s; randomCalls := randomCalls s;
     nowCalls := nowCalls s |}.

Definition set_stats (x : types.GameStats) (s : State) : State :=
  {| status := status s; words := words s; currentIndex := currentIndex s;
     inputValue := inputValue s; timeLeft := timeLeft s;
     duration := duration s; selectedTopic := selectedTopic s;
     customTopic := customTopic s; isLoading := isLoading s;
     history := history s; stats := x; timerRef := timerRef s;
     intervals := intervals s; nextInterval := nextInterval s;
     generating := generating s; localStorage := localStorage s;
     randomCalls := randomCalls s; nowCalls := nowCalls s |}.

Definition set_timerRef (x : option nat) (s : State) : State :=
  {| status := status s; words := words s; currentIndex := currentIndex s;
     inputValue := inputValue s; timeLeft := timeLeft s;
     duration := duration s; selectedTopic := selectedTopic s;
     customTopic := customTopic s; isLoading := isLoading s;
     history := history s; stats := stats s; timerRef := x;
     intervals := intervals s; nextInterval := nextInterval s;
     generating := generating s; localStorage := localStorage s;
     randomCalls := randomCalls s; nowCalls := nowCalls s |}.

Definition set_intervals (x : gmap nat Closure) (s : State) : State :=
  {| status := status s; words := words s; currentIndex := currentIndex s;
     inputValue := inputValue s; timeLeft := timeLeft s;
     duration := duration s; selectedTopic := selectedTopic s;
     customTopic := customTopic s; isLoading := isLoading s;
     history := history s; stats := stats s; timerRef := timerRef s;
     intervals := x; nextInterval := nextInterval s;
     generating := generating s; localStorage := localStorage s;
     randomCalls := randomCalls s; nowCalls := nowCalls s |}.

Definition set_nextInterval (x : nat) (s : State) : State :=
  {| status := status s; words := words s; currentIndex := currentIndex s;
     inputValue := inputValue s; timeLeft := timeLeft s;
     duration := duration s; selectedTopic := selectedTopic s;
     customTopic := customTopic s; isLoading := isLoading s;
     history := history s; stats := stats s; timerRef := timerRef s;
     intervals := intervals s; nextInterval := x; generating := generating s;
     localStorage := localStorage s; randomCalls := randomCalls s;
     nowCalls := nowCalls s |}.

Definition set_generating (x : list Z) (s : State) : State :=
  {| status := status s; words := words s; currentIndex := currentIndex s;
     inputValue := inputValue s; timeLeft := timeLeft s;
     duration := duration s; selectedTopic := selectedTopic s;
     customTopic := customTopic s; isLoading := isLoading s;
     history := history s; stats := stats s; timerRef := timerRef s;
     intervals := intervals s; nextInterval := nextInterval s;
     generating := x; localStorage := localStorage s;
     randomCalls := randomCalls s; nowCalls := nowCalls s |}.

Definition set_localStorage (x : Storage) (s : State) : State :=
  {| status := status s; words := words s; currentIndex := currentIndex s;
     inputValue := inputValue s; timeLeft := timeLeft s;
     duration := duration s; selectedTopic := selectedTopic s;
     customTopic := customTopic s; isLoading := isLoading s;
     history := history s; stats := stats s; timerRef := timerRef s;
     intervals := intervals s; nextInterval := nextInterval s;
     generating := generating s; localStorage := x;
     randomCalls := randomCalls s; nowCalls := nowCalls s |}.

Definition set_randomCalls (x : nat) (s : State) : State :=
  {| status := status s; words := words s; currentIndex := currentIndex s;
     inputValue := inputValue s; timeLeft := timeLeft s;
     duration := duration s; selectedTopic := selectedTopic s;
     customTopic := customTopic s; isLoading := isLoading s;
     history := history s; stats := stats s; timerRef := timerRef s;
     intervals := intervals s; nextInterval := nextInterval s;
     generating := generating s; localStorage := localStorage s;
     randomCalls := x; nowCalls := nowCalls s |}.

Definition set_nowCalls (x : nat) (s : State) : State :=
  {| status := status s; words := words s; currentIndex := currentIndex s;
     inputValue := inputValue s; timeLeft := timeLeft s;
     duration := duration s; selectedTopic := selectedTopic s;
     customTopic := customTopic s; isLoading := isLoading s;
     history := history s; stats := stats s; timerRef := timerRef s;
     intervals := intervals s; nextInterval := nextInterval s;
     generating := generating s; localStorage := localStorage s;
     randomCalls := randomCalls s; nowCalls := x |}.

Section Handlers.

Context `{Runtime}.

Definition pendingWord (w : jsstring) : WordObject := {| text := w; types.status := pending |}.

Definition setWordStatus (st : WordStatus) (w : WordObject) : WordObject :=
  {| text := text w; types.status := st |}.

Definition zeroStats : GameStats :=
  {| wpm := num 0; accuracy := num 0; correctWords := 0; incorrectWords := 0;
     totalKeystrokes := 0; timeSpent := 0 |}.

(** [initGame(customWords)]; [None] is [undefined].  An empty array is
    truthy, and [shuffled[0]] is then [undefined].  [d] is the [duration]
    this [initGame] closed over, that of the render which made it. *)
Definition initGame (d : Z) (customWords : option (list jsstring)) (s : State) : result State :=
  let baseWords := match customWords with
                   | Some ws => ws
                   | None => DEFAULT_WORDS
                   end in
  let '(a, k) := shuffled (randomCalls s) baseWords in
  let shuffled := pendingWord <$> a in
  match shuffled with
  | [] => Throw TypeError
  | _ :: _ =>
      let shuffled := alter (setWordStatus active) 0%nat shuffled in
      Ok (set_stats zeroStats
         (set_status idle
         (set_timeLeft d
         (set_inputValue []
         (set_currentIndex 0%nat
         (set_words shuffled
         (set_randomCalls k s)))))))
  end.

Definition startGame (s : State) : State :=
  let callback := {| closed_duration := duration s;
                     closed_selectedTopic := selectedTopic s;
                     closed_customTopic := customTopic s |} in
  set_nextInterval (S (nextInterval s))
  (set_intervals (<[nextInterval s := callback]> (intervals s))
  (set_timerRef (Some (nextInterval s))
  (set_status playing s))).

(** The elements [[...prevHist]] spreads: those of an array, the code
    points of a string; nothing else is iterable. *)
Fixpoint code_points (s : jsstring) : list jsvalue :=
  match s with
  | hi :: s' =>
      match s' with
      | lo :: s'' =>
          if ((55296 <=? hi) && (hi <=? 56319) && (56320 <=? lo) && (lo <=? 57343))%N
          then VString [hi; lo] :: code_points s''
          else VString [hi] :: code_points s'
      | [] => [VString [hi]]
      end
  | [] => []
  end.

Definition spread (v : jsvalue) : result (list jsvalue) :=
  match v with
  | VArray l => Ok l
  | VString s => Ok (code_points s)
  | _ => Throw TypeError
  end.

(** [endGame] as the interval callback [c] sees it. *)
Definition endGame (c : Closure) (s : State) : result State :=
  (* if (timerRef.current) clearInterval(timerRef.current) *)
  let s1 := match timerRef s with
            | Some (S t) => set_intervals (delete (S t) (intervals s)) s
            | _ => s
            end in
  let s2 := set_status finished s1 in
  (* setStats(prev => ...) *)
  let prev := stats s2 in
  let finalWpm := calculateWPM (num (Z.of_nat (correctWords prev))) (num (closed_duration c)) in
  let finalAccuracy := calculateAccuracy (num (Z.of_nat (correctWords prev)))
                                         (num (Z.of_nat (incorrectWords prev))) in
  let newScore :=
    {| id := take 9 (drop 2 (Number_toString36 (Math_random (randomCalls s2))));
       timestamp := Date_now (nowCalls s2);
       topic := if decide (closed_selectedTopic c = js "custom")
                then closed_customTopic c else closed_selectedTopic c;
       base := {| wpm := finalWpm;
                  accuracy := finalAccuracy;
                  correctWords := correctWords prev;
                  incorrectWords := incorrectWords prev;
                  totalKeystrokes := totalKeystrokes prev;
                  timeSpent := closed_duration c |} |} in
  let s3 := set_nowCalls (S (nowCalls s2)) (set_randomCalls (S (randomCalls s2)) s2) in
  bind (saveScore (ScoreEntry_value newScore) (localStorage s3)) (fun stored =>
  bind (spread (history s3)) (fun prevHist =>
  Ok (set_stats {| wpm := finalWpm;
                   accuracy := finalAccuracy;
                   correctWords := correctWords prev;
                   incorrectWords := incorrectWords prev;
                   totalKeystrokes := totalKeystrokes prev;
                   timeSpent := timeSpent prev |}
     (set_history (VArray (prevHist ++ [ScoreEntry_value newScore]))
     (set_localStorage stored s3))))).

(** The callback of the interval: [setTimeLeft(prev => ...)]. *)
Definition tick (c : Closure) (s : State) : result State :=
  if timeLeft s <=? 1
  then bind (endGame c s) (fun s' => Ok (set_timeLeft 0 s'))
  else Ok (set_timeLeft (timeLeft s - 1) s).

(** [handleInputChange(e)] with [e.target.value = val].  [words[currentIndex]]
    is [undefined] past the end, and reading [.text] of it throws. *)
Definition handleInputChange (val : jsstring) (s : State) : result State :=
  let s1 := if decide (status s = idle) then startGame s else s in
  if endsWith val SPACE then
    let typedWord := trim val in
    match words s !! currentIndex s with
    | None => Throw TypeError
    | Some w =>
        let currentWord := text w in
        let isCorrect := bool_decide (typedWord = currentWord) in
        (* setWords(prev => ...) *)
        let next := words s1 in
        let next := alter (setWordStatus (if isCorrect then correct else incorrect))
                          (currentIndex s) next in
        let next := if decide (currentIndex s + 1 < length next)%nat
                    then alter (setWordStatus active) (currentIndex s + 1)%nat next
                    else next in
        (* setStats(prev => ...) *)
        let prev := stats s1 in
        let stats' :=
          {| wpm := wpm prev;
             accuracy := accuracy prev;
             correctWords := if isCorrect then (correctWords prev + 1)%nat else correctWords prev;
             incorrectWords := if isCorrect then incorrectWords prev else (incorrectWords prev + 1)%nat;
             totalKeystrokes := (totalKeystrokes prev + length typedWord + 1)%nat;
             timeSpent := timeSpent prev |} in
        let s2 := set_inputValue []
                 (set_currentIndex (currentIndex s1 + 1)%nat
                 (set_stats stats'
                 (set_words next s1))) in
        (* currentIndex + 10 > words.length *)
        if decide (length (words s) < currentIndex s + 10)%nat then
          let '(a, k) := shuffled (randomCalls s2) DEFAULT_WORDS in
          Ok (set_randomCalls k (set_words (words s2 ++ (pendingWord <$> a)) s2))
        else Ok s2
    end
  else
    match words s !! currentIndex s with
    | None => Throw TypeError
    | Some w =>
        if decide (length val <= length (text w) + 3)%nat
        then Ok (set_inputValue val s1)
        else Ok s1
    end.

(** The character matching of the active word: the loop over the typed
    text that builds [matchPart]. *)
Definition matchStep (wordText typed matchPart : jsstring) (i : nat) : jsstring :=
  match wordText !! i, typed !! i with
  | Some d, Some c =>
      if bool_decide (c = d) && bool_decide (length matchPart = i)
      then matchPart ++ [c]
      else matchPart
  | _, _ => matchPart
  end.

Definition matchPart (wordText typed : jsstring) : jsstring :=
  foldl (matchStep wordText typed) [] (seq 0 (length typed)).

Definition remainingPart (wordText typed : jsstring) : jsstring :=
  drop (length (matchPart wordText typed)) wordText.

(** The unit the specification names: the length of [matchPart]. *)
Definition matchedPrefixLength (target draft : jsstring) : nat :=
  length (matchPart target draft).

(** *** The component as a whole *)

(** The values of the first render. *)
Definition initial (storage : Storage) : State :=
  {| status := idle; words := []; currentIndex := 0; inputValue := [];
     timeLeft := 60; duration := 60; selectedTopic := js "random";
     customTopic := []; isLoading := false; history := VArray [];
     stats := zeroStats; timerRef := None; intervals := ∅; nextInterval := 1;
     generating := []; localStorage := storage; randomCalls := 0; nowCalls := 0 |}.

(** The effects of the first render, in the order they are declared:
    the history is loaded, then [initGame()] runs. *)
Definition mount (storage : Storage) : result State :=
  bind (getScoreHistory storage) (fun h =>
  initGame 60 None (set_history h (initial storage))).

(** [initGame(newWords.length > 0 ? newWords : undefined)] *)
Definition initGameWith (d : Z) (newWords : list jsstring) (s : State) : result State :=
  initGame d (match newWords with [] => None | _ :: _ => Some newWords end) s.

(** [handleThemeChange(themeId)] up to its [await]: for the two generated
    themes the handler then waits for the words; for the others it runs
    to its end at once, and [isLoading] is [false] again when it has. *)
Definition handleThemeChange (themeId : jsstring) (s : State) : result State :=
  let s1 := set_selectedTopic themeId s in
  if decide (themeId = js "custom") then Ok s1
  else if bool_decide (themeId = js "tech") || bool_decide (themeId = js "nature")
  then Ok (set_generating (generating s ++ [duration s]) (set_isLoading true s1))
  else bind (initGameWith (duration s) DEFAULT_WORDS s1) (fun s2 =>
       Ok (set_isLoading false s2)).

(** [handleCustomTopicSubmit(e)] up to its [await]. *)
Definition handleCustomTopicSubmit (s : State) : State :=
  match customTopic s with
  | [] => s
  | _ :: _ => set_generating (generating s ++ [duration s]) (set_isLoading true s)
  end.

(** The rest of either handler, once [generateThematicWords] has answered
    [newWords] (the empty list when it failed). *)
Definition wordsGenerated (d : Z) (newWords : list jsstring) (s : State) : result State :=
  bind (initGameWith d newWords s) (fun s' => Ok (set_isLoading false s')).

(** What can happen to the mounted component. *)
Inductive Event :=
  | InputChange (val : jsstring)
  | Tick (interval : nat)
  | NewRace
  | SelectDuration (t : Z)
  | ThemeChange (themeId : jsstring)
  | CustomTopicChange (value : jsstring)
  | CustomTopicSubmit
  | Generated (request : nat) (newWords : list jsstring)
  | ShowHistory
  | ResetScores.

(** One event.  The game view (settings, hidden input) is rendered while
    [status] is not [finished], the summary view otherwise; an event on a
    control that is not rendered or is disabled, of an interval that does
    not run, or of a word generation that is not awaited, does not occur
    and leaves the state as it is. *)
Definition step (s : State) (ev : Event) : result State :=
  match ev with
  | InputChange val =>
      if bool_decide (status s <> finished) && negb (isLoading s)
      then handleInputChange val s else Ok s
  | Tick interval =>
      match intervals s !! interval with
      | Some c => tick c s
      | None => Ok s
      end
  | NewRace =>
      if decide (status s = finished) then initGame (duration s) None s else Ok s
  | SelectDuration t =>
      if bool_decide (status s <> finished) && bool_decide (t ∈ TIME_OPTIONS) then
        (* setDuration(t); setTimeLeft(t); a new [duration] makes a new
           [initGame], and the effect that depends on it runs it *)
        let s1 := set_timeLeft t (set_duration t s) in
        if decide (t = duration s) then Ok s1 else initGame t None s1
      else Ok s
  | ThemeChange themeId =>
      if bool_decide (status s <> finished) && bool_decide (themeId ∈ THEMES)
      then handleThemeChange themeId s else Ok s
  | CustomTopicChange value =>
      if bool_decide (status s <> finished) && bool_decide (selectedTopic s = js "custom")
      then Ok (set_customTopic value s) else Ok s
  | CustomTopicSubmit =>
      if bool_decide (status s <> finished) && bool_decide (selectedTopic s = js "custom")
         && negb (isLoading s)
      then Ok (handleCustomTopicSubmit s) else Ok s
  | Generated request newWords =>
      match generating s !! request with
      | Some d => wordsGenerated d newWords (set_generating (delete request (generating s)) s)
      | None => Ok s
      end
  | ShowHistory => Ok (set_status idle s)
  | ResetScores =>
      if decide (status s = finished)
      then Ok (set_history (VArray []) (set_localStorage (delete (js "typing_scores") (localStorage s)) s))
      else Ok s
  end.

Fixpoint run (s : State) (evs : list Event) : result State :=
  match evs with
  | [] => Ok s
  | ev :: evs' => bind (step s ev) (fun s' => run s' evs')
  end.

End Handlers.

End App.

(** ** services/geminiService *)

(** [String.prototype.toLowerCase] follows the case tables of Unicode; the
    program never looks into what it yields. *)
Class Unicode := {
  toLowerCase : jsstring -> jsstring
}.

Section geminiService.

Context `{Unicode}.

(** [text.split(/\s+/)]: the pieces of [text] between its maximal runs of
    white space ([\s] is the set [trim] strips).  [piece] holds the piece
    being read; [gap] tells that the code unit before was white space.  A
    run at either end of the text leaves an empty piece there, and the
    empty text is one empty piece. *)
Fixpoint split_loop (s piece : jsstring) (gap : bool) : list jsstring :=
  match s with
  | [] => [piece]
  | c :: r =>
      if is_white_space c
      then if gap then split_loop r [] true else piece :: split_loop r [] true
      else split_loop r (piece ++ [c]) false
  end.

Definition split_white_space (text : jsstring) : list jsstring :=
  split_loop text [] false.

(** [generateThematicWords(topic)] from the answer of the model on:
    [response] is the outcome of the awaited [generateContent], an
    exception or the [text] of the response, [None] when it has none.
    The topic only goes into the request. *)
Definition generateThematicWords (response : result (option jsstring)) : list jsstring :=
  match response with
  | Ok response_text =>
      let text := match response_text with
                  | Some (c :: t) => c :: t
                  | _ => []
                  end in
      let words := toLowerCase <$>
                     filter (fun w => (1 < length w)%nat) (split_white_space text) in
      match words with
      | [] => []
      | _ :: _ => words
      end
  | Throw _ => []
  end.

End geminiService.

(** ** App: the live statistics of the game view *)

(** [calculateWPM(stats.correctWords, duration - timeLeft)] *)
Definition livePace (s : App.State) : number :=
  calculateWPM (num (Z.of_nat (types.correctWords (App.stats s))))
               (num (App.duration s - App.timeLeft s)).

(** [calculateAccuracy(stats.correctWords, stats.incorrectWords)] *)
Definition liveAccuracy (s : App.State) : number :=
  calculateAccuracy (num (Z.of_nat (types.correctWords (App.stats s))))
                    (num (Z.of_nat (types.incorrectWords (App.stats s)))).

(** * Specification-side definitions *)

(** ** The shuffle *)

Section Exchange.

Context {T : Type}.

(** [b] is [a] with the elements at [i] and [j] exchanged. *)
Definition exchanged (a b : list T) (i j : nat) : Prop :=
  length b = length a /\ b !! i = a !! j /\ b !! j = a !! i /\
  forall p, p <> i -> p <> j -> b !! p = a !! p.

(** A Fisher-Yates pass entered at index [i] with the random indices
    [draw]: each index [p] from [i] down to 1 is exchanged with the index
    [draw p] that was drawn for it, which is at most [p]. *)
Inductive FisherYates (draw : nat -> nat) : nat -> list T -> list T -> Prop :=
  | FisherYates_done a : FisherYates draw 0 a a
  | FisherYates_step i a b c :
      (draw (S i) <= S i)%nat -> exchanged a b (S i) (draw (S i)) ->
      FisherYates draw i b c ->
      FisherYates draw (S i) a c.

End Exchange.

(** ** The matched prefix *)

(** The length of the longest common prefix, by its definition. *)
Fixpoint commonPrefixLength (target draft : jsstring) : nat :=
  match target, draft with
  | c :: target', d :: draft' =>
      if bool_decide (c = d) then S (commonPrefixLength target' draft') else O
  | _, _ => O
  end.

(** ** The session *)

(** The state the handler works on after [startGame] has or has not run. *)
Definition started (s : App.State) : App.State :=
  if decide (App.status s = types.idle) then App.startGame s else s.

(** The words after the two status updates of a submission. *)
Definition marked (isCorrect : bool) (s : App.State) : list types.WordObject :=
  let next := alter (App.setWordStatus (if isCorrect then types.correct else types.incorrect))
                    (App.currentIndex s) (App.words s) in
  if decide (App.currentIndex s + 1 < length next)%nat
  then alter (App.setWordStatus types.active) (App.currentIndex s + 1)%nat next
  else next.

(** The invariant of the session: the two counters add up to the cursor,
    and the cursor is an index of the word sequence. *)
Definition session_invariant (s : App.State) : Prop :=
  (types.correctWords (App.stats s) + types.incorrectWords (App.stats s))%nat = App.currentIndex s /\
  (App.currentIndex s < length (App.words s))%nat.

(** The stored history and the one in memory are arrays. *)
Definition history_is_array (s : App.State) : Prop :=
  (exists stored,
     JSON_parse (getItem_or (js "typing_scores") (js "[]") (App.localStorage s)) = Ok (VArray stored)) /\
  (exists entries, App.history s = VArray entries).

(** What [JSON.stringify] prints of an array, [JSON.parse] reads as an
    array. *)
Definition stringify_parses `{Runtime} : Prop :=
  forall l, exists l', JSON_parse (JSON_stringify (VArray l)) = Ok (VArray l').

(** The score [endGame] makes of the state [s] for the callback [c]. *)
Definition finalScore `{Runtime} (c : App.Closure) (s : App.State) : types.ScoreEntry :=
  let prev := App.stats s in
  {| types.id := take 9 (drop 2 (Number_toString36 (Math_random (App.randomCalls s))));
     types.timestamp := Date_now (App.nowCalls s);
     types.topic := if decide (App.closed_selectedTopic c = js "custom")
                    then App.closed_customTopic c else App.closed_selectedTopic c;
     types.base :=
       {| types.wpm := calculateWPM (num (Z.of_nat (types.correctWords prev)))
                                    (num (App.closed_duration c));
          types.accuracy := calculateAccuracy (num (Z.of_nat (types.correctWords prev)))
                                              (num (Z.of_nat (types.incorrectWords prev)));
          types.correctWords := types.correctWords prev;
          types.incorrectWords := types.incorrectWords prev;
          types.totalKeystrokes := types.totalKeystrokes prev;
          types.timeSpent := App.closed_duration c |} |}.

(** ** The statistics *)

(** A number that is positive: finite or infinite, with an exponent that
    is not below the least one. *)
Definition positive_number (x : number) : Prop :=
  match x with
  | S754_finite false _ e => emin prec emax <= e
  | S754_infinity false => True
  | _ => False
  end.

Definition negative_number (x : number) : Prop := positive_number (SFopp x).

(** The rounding the claim names, on the exact quotient: the nearest
    integer, ties upwards. *)
Definition round_exact (q : Q) : Z := Qfloor (q + (1 # 2))%Q.

(** The statistics as the specification writes them, in exact
    arithmetic. *)
Definition wpm_exact (correctWords elapsedSeconds : Z) : Z :=
  if elapsedSeconds <=? 0 then 0
  else round_exact (inject_Z correctWords / inject_Z elapsedSeconds * 60)%Q.

Definition accuracy_exact (correct incorrect : Z) : Z :=
  if correct + incorrect =? 0 then 0
  else round_exact (inject_Z correct / inject_Z (correct + incorrect) * 100)%Q.

(** ** The claims as the specification words them, where the code differs *)

(** "After the cursor has advanced, fewer than 10 words ahead of it: the
    sequence grows." *)
Definition extension_as_claimed `{Runtime} : Prop :=
  forall (s s' : App.State) (val : jsstring),
    App.status s <> types.finished -> App.isLoading s = false ->
    endsWith val SPACE = true ->
    App.step s (App.InputChange val) = Ok s' ->
    (length (App.words s) - App.currentIndex s' < 10)%nat ->
    (length (App.words s) < length (App.words s'))%nat.

(** "Malformed stored content: the history is empty." *)
Definition malformed_history_is_empty : Prop :=
  forall (storage : Storage) (text : jsstring),
    storage !! js "typing_scores" = Some text ->
    JSON_parse text = Throw SyntaxError ->
    getScoreHistory storage = Ok (VArray []).

(** "The statistics are the exactly rounded quotients." *)
Definition statistics_as_claimed : Prop :=
  forall c t i : Z, 0 <= c -> 0 <= t -> 0 <= i ->
    calculateWPM (num c) (num t) = num (wpm_exact c t) /\
    calculateAccuracy (num c) (num i) = num (accuracy_exact c i).

(** ** Sample inputs *)

(** A runtime whose [Math.random()] yields the values [rnd]. *)
Definition runtime_of (rnd : nat -> number) : Runtime :=
  {| Math_random := rnd;
     Date_now := fun k => 1700000000000 + Z.of_nat k;
     Number_toString36 := fun _ => js "0.4fzyo82mvyr";
     JSON_stringify := fun _ => js "[]" |}.

(** [Math.random()] always 127/128: every index of an array of at most
    128 elements is exchanged with itself. *)
Definition steady_runtime : Runtime :=
  runtime_of (fun _ => SFdiv prec emax (num 127) (num 128)).

(** [Math.random()] through 0, 1/4, 1/2, 3/4. *)
Definition cycling_runtime : Runtime :=
  runtime_of (fun k => SFdiv prec emax (num (Z.of_nat (k mod 4))) (num 4)).

Definition from_result {A} (d : A) (r : result A) : A :=
  match r with
  | Ok a => a
  | Throw _ => d
  end.

(** The component after the first render, with nothing stored. *)
Definition sample_mounted : App.State :=
  from_result (App.initial ∅) (@App.mount steady_runtime ∅).

(** The same after 15 seconds were chosen. *)
Definition sample_configured : App.State :=
  from_result sample_mounted (@App.step steady_runtime sample_mounted (App.SelectDuration 15)).

(** The same after 30 words were submitted, each as a single space. *)
Definition sample_after_30 : App.State :=
  from_result sample_mounted
    (@App.run steady_runtime sample_mounted (replicate 30 (App.InputChange (js " ")))).

(** A game in which 15 seconds were chosen after the first letter and the
    word "the" was typed then.  Two timers run, the one of the first
    letter, started when 60 seconds were configured, and the one of the
    word; they have ticked in turn for seven seconds. *)
Definition sample_reconfigured : App.State :=
  from_result sample_mounted
    (@App.run steady_runtime sample_mounted
       ([App.InputChange (js "t"); App.SelectDuration 15; App.InputChange (js "the ")] ++
        concat (replicate 7 [App.Tick 1%nat; App.Tick 2%nat]))).

(** The same after the next tick of the first timer, and after one
    more. *)
Definition sample_reconfigured_end : App.State :=
  from_result sample_reconfigured
    (@App.step steady_runtime sample_reconfigured (App.Tick 1%nat)).

Definition sample_reconfigured_again : App.State :=
  from_result sample_reconfigured_end
    (@App.step steady_runtime sample_reconfigured_end (App.Tick 1%nat)).

(** A game in which the History button was pressed after the first
    letter and the word "the" was typed then, with 60 seconds configured
    all along.  Two timers run, the one of the first letter and the one
    of the word; they have ticked in turn, 59 times in all. *)
Definition sample_resumed : App.State :=
  from_result sample_mounted
    (@App.run steady_runtime sample_mounted
       ([App.InputChange (js "t"); App.ShowHistory; App.InputChange (js "the ")] ++
        concat (replicate 29 [App.Tick 1%nat; App.Tick 2%nat]) ++ [App.Tick 1%nat])).

(** The same after the next tick of the second timer, and after the tick
    of the first timer that follows. *)
Definition sample_resumed_end : App.State :=
  from_result sample_resumed
    (@App.step steady_runtime sample_resumed (App.Tick 2%nat)).

Definition sample_resumed_again : App.State :=
  from_result sample_resumed_end
    (@App.step steady_runtime sample_resumed_end (App.Tick 1%nat)).

(** A text between double quotes. *)
Definition quoted (s : jsstring) : jsstring := [34%N] ++ s ++ [34%N].

(** A stored history of one entry with two properties. *)
Definition sample_stored : jsstring :=
  js "[{" ++ quoted (js "wpm") ++ js ":4," ++ quoted (js "topic") ++ js ":" ++
  quoted (js "random") ++ js "}]".

(** ** Further properties *)

(** [ws.join(" ")] *)
Fixpoint join_spaces (ws : list jsstring) : jsstring :=
  match ws with
  | [] => []
  | w :: ws' =>
      match ws' with
      | [] => w
      | _ :: _ => w ++ SPACE ++ join_spaces ws'
      end
  end.

(** A text without white space. *)
Definition no_white_space (w : jsstring) : Prop :=
  Forall (fun c => is_white_space c = false) w.

(** A text that does not begin with white space. *)
Definition clean_start (s : jsstring) : Prop :=
  match s with
  | c :: _ => is_white_space c = false
  | [] => True
  end.

(** [s'] has the words, the cursor, the draft and the counters of [s]. *)
Definition same_session (s s' : App.State) : Prop :=
  App.words s' = App.words s /\ App.currentIndex s' = App.currentIndex s /\
  App.inputValue s' = App.inputValue s /\
  types.correctWords (App.stats s') = types.correctWords (App.stats s) /\
  types.incorrectWords (App.stats s') = types.incorrectWords (App.stats s) /\
  types.totalKeystrokes (App.stats s') = types.totalKeystrokes (App.stats s).

(** The words that have the status [st]. *)
Definition count_status (st : types.WordStatus) (ws : list types.WordObject) : nat :=
  length (filter (fun w => types.status w = st) ws).

(** A word that was submitted. *)
Definition classified (w : types.WordObject) : Prop :=
  types.status w = types.correct \/ types.status w = types.incorrect.

(** The statuses follow the cursor: the words before it are classified,
    the word at it is not, the words after it are pending; and the two
    counters are the numbers of words of either class. *)
Definition words_in_order (s : App.State) : Prop :=
  Forall classified (take (App.currentIndex s) (App.words s)) /\
  (forall w, App.words s !! App.currentIndex s = Some w ->
             types.status w = types.active \/ types.status w = types.pending) /\
  Forall (fun w => types.status w = types.pending) (drop (S (App.currentIndex s)) (App.words s)) /\
  types.correctWords (App.stats s) = count_status types.correct (App.words s) /\
  types.incorrectWords (App.stats s) = count_status types.incorrect (App.words s).

(** The draft is no submission and fits the word at the cursor with the
    slack of three. *)
Definition draft_in_bounds (s : App.State) : Prop :=
  endsWith (App.inputValue s) SPACE = false /\
  forall w, App.words s !! App.currentIndex s = Some w ->
            (length (App.inputValue s) <= length (types.text w) + 3)%nat.

(** The clock is between zero and the longest game, and every duration
    in use is one of the options. *)
Definition timer_in_range (s : App.State) : Prop :=
  0 <= App.timeLeft s <= 300 /\
  App.duration s ∈ TIME_OPTIONS /\
  Forall (fun d => d ∈ TIME_OPTIONS) (App.generating s) /\
  map_Forall (fun _ c => App.closed_duration c ∈ TIME_OPTIONS) (App.intervals s).

(** [s'] continues [s]: the words of [s] are still there, in their order
    and with their texts, and neither the cursor nor a counter is
    smaller. *)
Definition continues (s s' : App.State) : Prop :=
  types.text <$> App.words s `prefix_of` types.text <$> App.words s' /\
  (App.currentIndex s <= App.currentIndex s')%nat /\
  (types.correctWords (App.stats s) <= types.correctWords (App.stats s'))%nat /\
  (types.incorrectWords (App.stats s) <= types.incorrectWords (App.stats s'))%nat /\
  (types.totalKeystrokes (App.stats s) <= types.totalKeystrokes (App.stats s'))%nat.

(** The events of a game in progress. *)
Definition play_event (ev : App.Event) : Prop :=
  match ev with
  | App.InputChange _ | App.Tick _ => True
  | _ => False
  end.

Section Choices.

Context {T : Type}.

(** The pass of the shuffle entered at index [i], with [choice p] the
    index drawn for [p]. *)
Fixpoint exchanges (choice : nat -> nat) (i : nat) (a : list T) : list T :=
  match i with
  | O => a
  | S i' => exchanges choice i' (swap a i (choice i))
  end.

End Choices.

(** The least multiple of [2^-53] that is not below [c / n], as a
    number. *)
Definition fraction_above (c n : Z) : number :=
  binary_normalize prec emax ((c * 2 ^ 53 + n - 1) / n) (-53) false.

(** A runtime in which the shuffle of [n] elements that starts at the
    call [k] of [Math.random()] draws [choice i] for the index [i]. *)
Definition runtime_choosing (choice : nat -> nat) (n k : nat) : Runtime :=
  runtime_of (fun call =>
    let i := (n - 1 - (call - k))%nat in
    fraction_above (Z.of_nat (choice i)) (Z.of_nat i + 1)).

(** Equality of two numbers as data. *)
Definition number_eqb (x y : number) : bool :=
  match x, y with
  | S754_zero a, S754_zero b => Bool.eqb a b
  | S754_infinity a, S754_infinity b => Bool.eqb a b
  | S754_nan, S754_nan => true
  | S754_finite a m e, S754_finite b m' e' => Bool.eqb a b && (m =? m')%positive && (e =? e')
  | _, _ => false
  end.

(** The integer a number stands for, when it is one. *)
Definition integer_of (x : number) : Z :=
  match x with
  | S754_finite s m e =>
      let n := if 0 <=? e then Z.pos m * 2 ^ e else Z.pos m / 2 ^ (- e) in
      if s then - n else n
  | _ => 0
  end.

(** [x] is the whole number [n], which lies between [lo] and [hi]. *)
Definition whole_between (lo hi : Z) (x : number) : bool :=
  number_eqb x (num (integer_of x)) && (lo <=? integer_of x) && (integer_of x <=? hi).

(** [f c i] for all [c] below [n] and all [i] below [m]. *)
Definition all_below (n m : nat) (f : nat -> nat -> bool) : bool :=
  forallb (fun c => forallb (f c) (seq 0 m)) (seq 0 n).

Definition accuracy_checked (c i : nat) : bool :=
  let e := accuracy_exact (Z.of_nat c) (Z.of_nat i) in
  whole_between (Z.max 0 (e - 1)) (Z.min 100 e)
    (calculateAccuracy (num (Z.of_nat c)) (num (Z.of_nat i))).

Definition wpm_checked (c : nat) (t : Z) : bool :=
  let e := wpm_exact (Z.of_nat c) t in
  whole_between (Z.max 0 (e - 1)) e
    (calculateWPM (num (Z.of_nat c)) (num t)).

(** [wpm_checked c t] for all [c] below [n] and every duration [t] that
    can be chosen. *)
Definition final_wpm_checked (n : nat) : bool :=
  forallb (fun t => forallb (fun c => wpm_checked c t) (seq 0 n)) TIME_OPTIONS.

(** ** Further sample inputs *)

(** A stored history that is an object, not an array. *)
Definition sample_stored_object : Storage := {[ js "typing_scores" := js "{}" ]}.

(** A stored history of one entry. *)
Definition sample_storage : Storage := {[ js "typing_scores" := sample_stored ]}.

(** A runtime whose [JSON.stringify] prints the history that holds the
    number 7 and nothing else. *)
Definition printing_runtime : Runtime :=
  {| Math_random := fun _ => num 0;
     Date_now := fun k => 1700000000000 + Z.of_nat k;
     Number_toString36 := fun _ => js "0.4fzyo82mvyr";
     JSON_stringify := fun _ => js "[7]" |}.

(** The events of a short game: a word typed correctly, a word typed
    wrongly, two letters of the third word, one second. *)
Definition sample_play : list App.Event :=
  [App.InputChange (js "the "); App.InputChange (js "quikc "); App.InputChange (js "br");
   App.Tick 1%nat].

Definition sample_played : App.State :=
  from_result sample_mounted (@App.run steady_runtime sample_mounted sample_play).

(** The component after the first letter was typed. *)
Definition sample_started : App.State :=
  from_result sample_mounted (@App.step steady_runtime sample_mounted (App.InputChange (js "t"))).

(** The component while the words of the theme "tech" are awaited. *)
Definition sample_awaiting : App.State :=
  from_result sample_mounted (@App.step steady_runtime sample_mounted (App.ThemeChange (js "tech"))).

(** A game in which the History button was pressed after the first letter
    and typing went on: two timers run, and the first one has counted
    down to the last second. *)
Definition sample_two_timers : App.State :=
  from_result sample_mounted
    (@App.run steady_runtime sample_mounted
       ([App.InputChange (js "t"); App.ShowHistory; App.InputChange (js "th")] ++
        replicate 59 (App.Tick 1%nat))).

(** The component after three more ticks of the first timer. *)
Definition sample_after_end : App.State :=
  from_result sample_two_timers
    (@App.run steady_runtime sample_two_timers (replicate 3 (App.Tick 1%nat))).

(** Case conversion of the letters A to Z, which is what
    [toLowerCase] does on a text of ASCII characters. *)
Definition ascii_lower : Unicode :=
  {| toLowerCase := fmap (fun c => if ((65 <=? c) && (c <=? 90))%N then (c + 32)%N else c) |}.

(** * Proofs *)

(** ** The statistics: signs under binary64 rounding *)

Section Rounding.

Lemma digits2_pos_bound p : 2 ^ (Z.pos (digits2_pos p) - 1) <= Z.pos p.
Proof.
  induction p as [p IH|p IH|]; cbn [digits2_pos]; [| |done].
  - rewrite Pos2Z.inj_succ. replace (Z.succ (Z.pos (digits2_pos p)) - 1)
      with (Z.succ (Z.pos (digits2_pos p) - 1)) by lia.
    rewrite Z.pow_succ_r by lia. lia.
  - rewrite Pos2Z.inj_succ. replace (Z.succ (Z.pos (digits2_pos p)) - 1)
      with (Z.succ (Z.pos (digits2_pos p) - 1)) by lia.
    rewrite Z.pow_succ_r by lia. lia.
Qed.

Lemma shr_1_m mrs : 0 <= shr_m mrs -> shr_m (shr_1 mrs) = shr_m mrs / 2.
Proof.
  destruct mrs as [m r s]. cbn [shr_m shr_1]. intros Hm.
  destruct m as [|[p|p|]|p]; cbn [shr_m]; try done; try lia.
  - rewrite Pos2Z.inj_xI. rewrite Z.mul_comm, Z.div_add_l by lia. done.
  - rewrite Pos2Z.inj_xO. rewrite Z.mul_comm, Z.div_mul by lia. done.
Qed.

Lemma iter_shr_1_m n mrs :
  0 <= shr_m mrs -> shr_m (SpecFloat.iter_pos shr_1 n mrs) = shr_m mrs / 2 ^ Z.pos n.
Proof.
  revert mrs. induction n as [n IH|n IH|]; intros mrs Hm; cbn [SpecFloat.iter_pos].
  - assert (H1 : 0 <= shr_m (shr_1 mrs)) by (rewrite shr_1_m by done; apply Z.div_pos; lia).
    assert (H2 : 0 <= shr_m (SpecFloat.iter_pos shr_1 n (shr_1 mrs)))
      by (rewrite IH by done; apply Z.div_pos; lia).
    rewrite IH, IH, shr_1_m by done.
    rewrite !Z.div_div by lia. f_equal.
    rewrite <- Z.pow_add_r, <- Z.pow_succ_r by lia. f_equal. lia.
  - assert (H2 : 0 <= shr_m (SpecFloat.iter_pos shr_1 n mrs))
      by (rewrite IH by done; apply Z.div_pos; lia).
    rewrite IH, IH by done. rewrite !Z.div_div by lia. f_equal.
    rewrite <- Z.pow_add_r by lia. f_equal. lia.
  - rewrite shr_1_m by done. done.
Qed.

(** Rounding to the format keeps a positive mantissa positive when the
    exponent is representable. *)
Lemma shr_fexp_pos m e l :
  emin prec emax <= e ->
  let '(mrs, e') := shr_fexp prec emax (Z.pos m) e l in
  0 < shr_m mrs /\ e <= e'.
Proof.
  intros He. unfold shr_fexp, shr. cbn [Zdigits2].
  set (d := Z.pos (digits2_pos m)).
  assert (Hd : 2 ^ (d - 1) <= Z.pos m) by apply digits2_pos_bound.
  assert (Hrec : shr_m (shr_record_of_loc (Z.pos m) l) = Z.pos m)
    by (by destruct l as [|[]]).
  destruct (fexp prec emax (d + e) - e) as [|n|n] eqn:Hn.
  - rewrite Hrec. lia.
  - rewrite iter_shr_1_m, Hrec by (rewrite Hrec; lia). split; [|lia].
    assert (Hlt : Z.pos n <= d - 1).
    { unfold fexp, emin, prec, emax in *. lia. }
    apply Z.div_str_pos. split; [lia|].
    etrans; [|exact Hd]. apply Z.pow_le_mono_r; lia.
  - rewrite Hrec. lia.
Qed.

Lemma binary_round_aux_pos (s : bool) m e l :
  emin prec emax <= e ->
  positive_number (if s then SFopp (binary_round_aux prec emax s (Z.pos m) e l)
                   else binary_round_aux prec emax s (Z.pos m) e l).
Proof.
  intros He. unfold binary_round_aux.
  pose proof (shr_fexp_pos m e l He) as H1.
  destruct (shr_fexp prec emax (Z.pos m) e l) as [mrs' e'].
  destruct H1 as [Hm' He'].
  assert (Hr : 0 < round_nearest_even (shr_m mrs') (loc_of_shr_record mrs')).
  { unfold round_nearest_even. destruct (loc_of_shr_record mrs') as [|[]]; try lia.
    destruct (Z.even _); lia. }
  destruct (round_nearest_even (shr_m mrs') (loc_of_shr_record mrs')) as [|m2|m2]; try lia.
  pose proof (shr_fexp_pos m2 e' loc_Exact ltac:(lia)) as H2.
  destruct (shr_fexp prec emax (Z.pos m2) e' loc_Exact) as [mrs'' e''].
  destruct H2 as [Hm'' He''].
  destruct (shr_m mrs'') as [|m3|m3]; try lia.
  destruct (e'' <=? emax - prec), s; cbn [SFopp negb positive_number]; lia.
Qed.

Lemma binary_round_pos (s : bool) m e :
  emin prec emax <= e ->
  positive_number (if s then SFopp (binary_round prec emax s m e)
                   else binary_round prec emax s m e).
Proof.
  intros He. unfold binary_round, shl_align.
  destruct (fexp prec emax (Z.pos (digits2_pos m) + e) - e) as [|d|d] eqn:Hd;
    apply binary_round_aux_pos; try done.
  unfold fexp in *. lia.
Qed.

Lemma num_positive z : 0 < z -> positive_number (num z).
Proof.
  intros Hz. destruct z as [|p|p]; try lia.
  apply (binary_round_pos false p 0). unfold emin, prec, emax. lia.
Qed.

Lemma num_negative z : z < 0 -> negative_number (num z).
Proof.
  intros Hz. destruct z as [|p|p]; try lia.
  apply (binary_round_pos true p 0). unfold emin, prec, emax. lia.
Qed.

Lemma positive_not_le_zero x : positive_number x -> SFleb x (num 0) = false.
Proof. by destruct x as [[]|[]| |[] m e]. Qed.

Lemma positive_not_zero x : positive_number x -> SFeqb x (num 0) = false.
Proof. by destruct x as [[]|[]| |[] m e]. Qed.

Lemma negative_le_zero x : negative_number x -> SFleb x (num 0) = true.
Proof. by destruct x as [[]|[]| |[] m e]. Qed.

Lemma SFadd_positive x y :
  positive_number x -> positive_number y -> positive_number (SFadd prec emax x y).
Proof.
  destruct x as [[]|[]| |[] mx ex], y as [[]|[]| |[] my ey]; try done.
  cbn [positive_number SFadd]. intros Hx Hy.
  unfold cond_Zopp, binary_normalize.
  set (a := fst (shl_align mx ex (Z.min ex ey))).
  set (b := fst (shl_align my ey (Z.min ex ey))).
  change (Z.pos a + Z.pos b) with (Z.pos (a + b)).
  apply (binary_round_pos false). lia.
Qed.

End Rounding.


(** C5, as the code has it: on integers that are not negative,
    [calculateWPM] is 0 when no time has passed and else [Math.round] of
    the binary64 value of [(correctWords / timeInSeconds) * 60];
    [calculateAccuracy] is 0 when both counters are 0 and else
    [Math.round] of the binary64 value of [(correct / total) * 100].  The
    quotient and the product are each rounded to binary64, so the result
    is that of the exact formula at (30, 60) and (15, 5) but one below it
    at (49, 24) and at (23, 17). *)
Theorem statistics_in_binary64 :
  (forall c t : Z, 0 <= c -> 0 <= t ->
     calculateWPM (num c) (num t) =
       if t =? 0 then num 0
       else Math_round (SFmul prec emax (SFdiv prec emax (num c) (num t)) (num 60))) /\
  (forall c t : Z, t <= 0 -> calculateWPM (num c) (num t) = num 0) /\
  (forall c i : Z, 0 <= c -> 0 <= i ->
     calculateAccuracy (num c) (num i) =
       if c + i =? 0 then num 0
       else Math_round (SFmul prec emax
                          (SFdiv prec emax (num c) (SFadd prec emax (num c) (num i)))
                          (num 100))) /\
  calculateWPM (num 30) (num 60) = num 30 /\
  calculateAccuracy (num 15) (num 5) = num 75 /\
  calculateWPM (num 30) (num 60) = num (wpm_exact 30 60) /\
  calculateAccuracy (num 15) (num 5) = num (accuracy_exact 15 5) /\
  calculateWPM (num 49) (num 24) = num (wpm_exact 49 24 - 1) /\
  calculateAccuracy (num 23) (num 17) = num (accuracy_exact 23 17 - 1).
Proof.
  split; [|split; [|split]].
  - intros c t _ Ht. unfold calculateWPM. destruct (Z.eqb_spec t 0) as [->|Hne]; [done|].
    by rewrite positive_not_le_zero by (apply num_positive; lia).
  - intros c t Ht. unfold calculateWPM. destruct (Z.eq_dec t 0) as [->|Hne]; [done|].
    by rewrite negative_le_zero by (apply num_negative; lia).
  - intros c i Hc Hi. unfold calculateAccuracy.
    destruct (Z.eqb_spec (c + i) 0) as [Hz|Hne].
    + assert (c = 0) as -> by lia. assert (i = 0) as -> by lia. done.
    + rewrite positive_not_zero; [done|].
      destruct (Z.eq_dec c 0) as [->|Hc0]; [|destruct (Z.eq_dec i 0) as [->|Hi0]].
      * pose proof (num_positive i ltac:(lia)) as Hp.
        change (num 0) with (S754_zero false). by destruct (num i) as [[]|[]| |[] m e].
      * pose proof (num_positive c ltac:(lia)) as Hp.
        change (num 0) with (S754_zero false). by destruct (num c) as [[]|[]| |[] m e].
      * apply SFadd_positive; apply num_positive; lia.
  - repeat split; by vm_compute.
Qed.

(** ** The shuffle *)

(** *** The product [Math.random() * (i + 1)] in binary64 *)

Section Product.

Lemma digits2_pos_lt p : Z.pos p < 2 ^ Z.pos (digits2_pos p).
Proof.
  induction p as [p IH|p IH|]; cbn [digits2_pos]; [| |done];
    rewrite Pos2Z.inj_succ, Z.pow_succ_r by lia; lia.
Qed.

(** The round bit after a shift is the last bit that was shifted out. *)
Lemma shr_1_r mrs : 0 <= shr_m mrs -> shr_r (shr_1 mrs) = Z.odd (shr_m mrs).
Proof.
  destruct mrs as [m r s]. cbn [shr_m shr_1]. intros Hm.
  by destruct m as [|[p|p|]|p].
Qed.

Lemma iter_shr_1_r n mrs :
  0 <= shr_m mrs ->
  shr_r (SpecFloat.iter_pos shr_1 n mrs) = Z.testbit (shr_m mrs) (Z.pos n - 1).
Proof.
  revert mrs. induction n as [n IH|n IH|]; intros mrs Hm; cbn [SpecFloat.iter_pos].
  - assert (H1 : 0 <= shr_m (shr_1 mrs)) by (rewrite shr_1_m by done; apply Z.div_pos; lia).
    assert (H2 : 0 <= shr_m (SpecFloat.iter_pos shr_1 n (shr_1 mrs)))
      by (rewrite iter_shr_1_m by done; apply Z.div_pos; lia).
    rewrite IH, iter_shr_1_m, shr_1_m by done.
    rewrite Z.div_div by lia.
    replace (2 * 2 ^ Z.pos n) with (2 ^ (Z.pos n + 1)) by (rewrite Z.pow_add_r by lia; lia).
    rewrite <- Z.shiftr_div_pow2 by lia. rewrite Z.shiftr_spec by lia.
    f_equal. lia.
  - assert (H2 : 0 <= shr_m (SpecFloat.iter_pos shr_1 n mrs))
      by (rewrite iter_shr_1_m by done; apply Z.div_pos; lia).
    rewrite IH, iter_shr_1_m by done.
    rewrite <- Z.shiftr_div_pow2 by lia. rewrite Z.shiftr_spec by lia.
    f_equal. lia.
  - rewrite shr_1_r by done. by rewrite Z.bit0_odd.
Qed.

(** A mantissa whose round bit is set is at least half a unit above the
    shifted one. *)
Lemma round_bit_half M p :
  0 <= M -> 0 < p -> Z.testbit M (p - 1) = true ->
  (M / 2 ^ p) * 2 ^ p + 2 ^ (p - 1) <= M.
Proof.
  intros HM Hp Hbit. apply Z.testbit_true in Hbit; [|lia].
  set (q := M / 2 ^ (p - 1)) in *.
  assert (Hpow : 2 ^ p = 2 ^ (p - 1) * 2).
  { replace p with ((p - 1) + 1) at 1 by lia. rewrite Z.pow_add_r by lia. done. }
  assert (Hq : M / 2 ^ p = q / 2).
  { rewrite Hpow, <- Z.div_div by lia. done. }
  assert (H2 : 0 < 2 ^ (p - 1)) by (apply Z.pow_pos_nonneg; lia).
  pose proof (Z.mul_div_le M (2 ^ (p - 1)) H2) as Hle. fold q in Hle.
  pose proof (Z.div_mod q 2 ltac:(lia)) as Hdm. rewrite Hbit in Hdm.
  rewrite Hq, Hpow. nia.
Qed.

Lemma shifted_below M p : 0 <= M -> 0 <= p -> (M / 2 ^ p) * 2 ^ p <= M.
Proof.
  intros HM Hp. rewrite Z.mul_comm. apply Z.mul_div_le. apply Z.pow_pos_nonneg; lia.
Qed.

Lemma round_nearest_even_le mrs :
  round_nearest_even (shr_m mrs) (loc_of_shr_record mrs) <=
    shr_m mrs + (if shr_r mrs then 1 else 0).
Proof.
  destruct mrs as [m [] []]; cbn [shr_m shr_r loc_of_shr_record round_nearest_even]; try lia.
  destruct (Z.even m); lia.
Qed.

Lemma round_nearest_even_ge mrs :
  shr_m mrs <= round_nearest_even (shr_m mrs) (loc_of_shr_record mrs).
Proof.
  destruct mrs as [m [] []]; cbn [shr_m shr_r loc_of_shr_record round_nearest_even]; try lia.
  destruct (Z.even m); lia.
Qed.

(** The digits of a mantissa below a power of two. *)
Lemma Zdigits2_le m k : 0 <= m < 2 ^ k -> 0 <= k -> Zdigits2 m <= k.
Proof.
  intros [Hm Hlt] Hk. destruct m as [|p|p]; [done| |lia]. cbn [Zdigits2].
  pose proof (digits2_pos_bound p) as Hd.
  destruct (Z.le_gt_cases (Z.pos (digits2_pos p)) k) as [|Hgt]; [done|].
  assert (2 ^ k <= 2 ^ (Z.pos (digits2_pos p) - 1)) by (apply Z.pow_le_mono_r; lia). lia.
Qed.

(** The outcome of a shift on an exact mantissa: the exponent does not
    fall, the value does not grow, and it does not fall below a whole
    number that the value is not below. *)
Lemma shr_exact_le m e n :
  0 <= m ->
  let '(mrs, e') := shr (shr_record_of_loc m loc_Exact) e n in
  0 <= shr_m mrs /\ e <= e' /\ (e' = e \/ e' = e + n) /\
  shr_m mrs * 2 ^ (e' - e) <= m /\
  forall c, e' <= 0 -> c * 2 ^ (- e) <= m -> c * 2 ^ (- e') <= shr_m mrs.
Proof.
  intros Hm. unfold shr. cbn [shr_record_of_loc].
  destruct n as [|n|n]; cbn [shr_m]; rewrite ?Z.sub_diag; try (repeat split; auto; lia).
  rewrite iter_shr_1_m by done. cbn [shr_m].
  replace (e + Z.pos n - e) with (Z.pos n) by lia.
  split; [apply Z.div_pos; lia|]. split; [lia|]. split; [by right|].
  split; [apply shifted_below; lia|].
  intros c He' Hc. apply Z.div_le_lower_bound; [apply Z.pow_pos_nonneg; lia|].
  replace (- e) with (Z.pos n + - (e + Z.pos n)) in Hc by lia.
  rewrite Z.pow_add_r in Hc by lia. lia.
Qed.

(** Rounding a positive mantissa to the format: the result is at most
    half a unit of the last place above the value; a value below [2^53]
    is rounded at an exponent that is not positive, and then not below a
    whole number that it is not below. *)
Lemma binary_round_aux_bounds P E :
  exists m3 e3,
    binary_round_aux prec emax false (Z.pos P) E loc_Exact =
      match m3 with
      | Z0 => S754_zero false
      | Z.pos m => if e3 <=? emax - prec then S754_finite false m e3 else S754_infinity false
      | Z.neg _ => S754_nan
      end /\
    0 <= m3 /\ E <= e3 /\
    m3 * 2 ^ (e3 - E) <=
      Z.pos P + (let p := fexp prec emax (Z.pos (digits2_pos P) + E) - E in
                 if 0 <? p then 2 ^ (p - 1) else 0) /\
    (E <= 0 ->
     Z.pos P + (let p := fexp prec emax (Z.pos (digits2_pos P) + E) - E in
                if 0 <? p then 2 ^ (p - 1) else 0) < 2 ^ (53 - E) ->
     e3 <= 0 /\ forall c, c * 2 ^ (- E) <= Z.pos P -> c * 2 ^ (- e3) <= m3).
Proof.
  unfold binary_round_aux, shr_fexp. cbn [Zdigits2].
  pose proof (digits2_pos_bound P) as HdP.
  set (d := Z.pos (digits2_pos P)) in *.
  set (p := fexp prec emax (d + E) - E). cbn zeta.
  set (h := if 0 <? p then 2 ^ (p - 1) else 0).
  assert (Hfirst : exists m2 e',
            (let '(mrs', e') := shr (shr_record_of_loc (Z.pos P) loc_Exact) E p in
             (round_nearest_even (shr_m mrs') (loc_of_shr_record mrs'), e')) = (m2, e') /\
            0 <= m2 /\ E <= e' /\ (e' = E \/ e' = E + p) /\
            m2 * 2 ^ (e' - E) <= Z.pos P + h /\
            forall c, e' <= 0 -> c * 2 ^ (- E) <= Z.pos P -> c * 2 ^ (- e') <= m2).
  { unfold shr, h. cbn [shr_record_of_loc]. clearbody p. destruct p as [|q|q].
    - eexists _, _. split; [reflexivity|]. cbn [shr_m loc_of_shr_record round_nearest_even].
      rewrite Z.sub_diag. cbn. repeat split; auto; lia.
    - set (mrs := SpecFloat.iter_pos shr_1 q _).
      eexists _, _. split; [reflexivity|].
      pose proof (round_nearest_even_le mrs) as Hle.
      pose proof (round_nearest_even_ge mrs) as Hge.
      assert (Hm : shr_m mrs = Z.pos P / 2 ^ Z.pos q)
        by (unfold mrs; rewrite iter_shr_1_m by (cbn; lia); done).
      assert (Hr : shr_r mrs = Z.testbit (Z.pos P) (Z.pos q - 1))
        by (unfold mrs; rewrite iter_shr_1_r by (cbn; lia); done).
      assert (H0 : 0 <= shr_m mrs) by (rewrite Hm; apply Z.div_pos; lia).
      split; [lia|]. split; [lia|]. split; [by right|].
      replace (E + Z.pos q - E) with (Z.pos q) by lia.
      assert (Hpow : 0 < 2 ^ Z.pos q) by (apply Z.pow_pos_nonneg; lia).
      change (0 <? Z.pos q) with true. cbn iota. split.
      + destruct (shr_r mrs) eqn:Hbit.
        * symmetry in Hr.
          pose proof (round_bit_half (Z.pos P) (Z.pos q) ltac:(lia) ltac:(lia) Hr).
          rewrite <- Hm in *.
          assert (Hhalf : 2 ^ Z.pos q = 2 * 2 ^ (Z.pos q - 1)).
          { replace (Z.pos q) with ((Z.pos q - 1) + 1) at 1 by lia.
            rewrite Z.pow_add_r by lia. lia. }
          set (x := round_nearest_even _ _) in *. nia.
        * pose proof (shifted_below (Z.pos P) (Z.pos q) ltac:(lia) ltac:(lia)).
          rewrite <- Hm in *.
          assert (0 <= 2 ^ (Z.pos q - 1)) by (apply Z.pow_nonneg; lia). nia.
      + intros c He' Hc. etrans; [|exact Hge]. rewrite Hm.
        apply Z.div_le_lower_bound; [done|].
        replace (- E) with (Z.pos q + - (E + Z.pos q)) in Hc by lia.
        rewrite Z.pow_add_r in Hc by lia. lia.
    - eexists _, _. split; [reflexivity|]. cbn [shr_m loc_of_shr_record round_nearest_even].
      rewrite Z.sub_diag. cbn. repeat split; auto; lia. }
  destruct Hfirst as (m2 & e' & Heq & Hm2 & He' & He'cases & Hbound & Hlow).
  destruct (shr (shr_record_of_loc (Z.pos P) loc_Exact) E p) as [mrs' e0].
  injection Heq as Hm2eq He0. rewrite Hm2eq, He0.
  pose proof (shr_exact_le m2 e' (fexp prec emax (Zdigits2 m2 + e') - e') Hm2) as Hsecond.
  destruct (shr (shr_record_of_loc m2 loc_Exact) e' _) as [mrs'' e''].
  destruct Hsecond as (Hm3 & He'' & He''cases & Hle & Hlow').
  exists (shr_m mrs''), e''. split; [done|]. split; [done|]. split; [lia|].
  assert (Hupper : shr_m mrs'' * 2 ^ (e'' - E) <= Z.pos P + h).
  { etrans; [|exact Hbound].
    replace (e'' - E) with ((e'' - e') + (e' - E)) by lia.
    rewrite Z.pow_add_r by lia.
    assert (0 <= 2 ^ (e' - E)) by (apply Z.pow_nonneg; lia). nia. }
  split; [exact Hupper|].
  intros HE Hsmall.
  (* the exponents are not positive *)
  assert (Hd : d + E <= 53).
  { assert (0 <= h) by (unfold h; destruct (0 <? p); [apply Z.pow_nonneg|]; lia).
    assert (2 ^ (d - 1) < 2 ^ (53 - E)) by lia.
    apply Z.pow_lt_mono_r_iff in H0; lia. }
  assert (He'0 : e' <= 0) by (unfold p, fexp, emin, prec, emax in He'cases; lia).
  assert (Hd2 : Zdigits2 m2 + e' <= 53).
  { assert (Hlt : m2 < 2 ^ (53 - e')).
    { assert (Hsplit : 2 ^ (53 - E) = 2 ^ (53 - e') * 2 ^ (e' - E))
        by (rewrite <- Z.pow_add_r by lia; f_equal; lia).
      assert (0 < 2 ^ (e' - E)) by (apply Z.pow_pos_nonneg; lia). nia. }
    pose proof (Zdigits2_le m2 (53 - e') ltac:(lia) ltac:(lia)). lia. }
  assert (He''0 : e'' <= 0) by (unfold fexp, emin, prec, emax in He''cases; lia).
  split; [done|]. intros c Hc. apply Hlow'; [done|]. by apply Hlow.
Qed.

(** A mantissa that fits the format at its exponent is kept as it is. *)
Lemma binary_round_aux_exact (s : bool) m e :
  fexp prec emax (Z.pos (digits2_pos m) + e) <= e -> e <= emax - prec ->
  binary_round_aux prec emax s (Z.pos m) e loc_Exact = S754_finite s m e.
Proof.
  intros Hfit He. unfold binary_round_aux, shr_fexp, shr. cbn [Zdigits2 shr_record_of_loc].
  destruct (fexp prec emax (Z.pos (digits2_pos m) + e) - e) as [|q|q] eqn:Hq; try lia;
    cbn [shr_m loc_of_shr_record round_nearest_even Zdigits2]; rewrite Hq; cbn [shr_m];
    by rewrite (proj2 (Z.leb_le _ _) He).
Qed.

Lemma iter_xO m k : Z.pos (Pos.iter xO m k) = Z.pos m * 2 ^ Z.pos k.
Proof.
  induction k as [|k IH] using Pos.peano_ind.
  - cbn [Pos.iter]. lia.
  - rewrite Pos.iter_succ, Pos2Z.inj_xO, IH, Pos2Z.inj_succ, Z.pow_succ_r by lia. lia.
Qed.

Lemma digits2_pos_iter_xO m k :
  Z.pos (digits2_pos (Pos.iter xO m k)) = Z.pos (digits2_pos m) + Z.pos k.
Proof.
  induction k as [|k IH] using Pos.peano_ind.
  - cbn [Pos.iter digits2_pos]. lia.
  - rewrite Pos.iter_succ. cbn [digits2_pos]. rewrite !Pos2Z.inj_succ, IH. lia.
Qed.

Lemma digits2_pos_le m k : 0 <= k -> Z.pos m < 2 ^ k -> Z.pos (digits2_pos m) <= k.
Proof.
  intros Hk Hm. pose proof (digits2_pos_bound m) as Hd.
  destruct (Z.le_gt_cases (Z.pos (digits2_pos m)) k) as [|Hgt]; [done|].
  assert (2 ^ k <= 2 ^ (Z.pos (digits2_pos m) - 1)) by (apply Z.pow_le_mono_r; lia). lia.
Qed.

(** A whole mantissa below [2^53] at an exponent of the normal range is a
    number, with its value. *)
Lemma binary_normalize_exact K e0 :
  0 < K < 2 ^ 53 -> -1022 <= e0 <= 971 ->
  exists m e, binary_normalize prec emax K e0 false = S754_finite false m e /\
    e0 - 52 <= e <= e0 /\ Z.pos m = K * 2 ^ (e0 - e) /\
    valid_binary prec emax (S754_finite false m e) = true.
Proof.
  intros [Hpos Hlt] He0. destruct K as [|p|p]; try lia.
  unfold binary_normalize, binary_round, shl_align.
  pose proof (digits2_pos_le p 53 ltac:(lia) Hlt) as Hd.
  set (d := Z.pos (digits2_pos p)) in *.
  assert (Hfexp : fexp prec emax (d + e0) = d + e0 - 53) by (unfold fexp, emin, prec, emax; lia).
  rewrite Hfexp.
  destruct (d + e0 - 53 - e0) as [|q|q] eqn:Hq; try lia.
  - exists p, e0. split; [|split; [lia|split]].
    + apply binary_round_aux_exact; fold d; unfold fexp, emin, prec, emax; lia.
    + rewrite Z.sub_diag. cbn. lia.
    + cbn [valid_binary]. unfold bounded, canonical_mantissa. fold d.
      apply andb_true_intro. split; [apply Z.eqb_eq|apply Z.leb_le];
        unfold fexp, emin, prec, emax; lia.
  - exists (Pos.iter xO p q), (d + e0 - 53). split; [|split; [lia|split]].
    + apply binary_round_aux_exact; rewrite ?digits2_pos_iter_xO; fold d;
        unfold fexp, emin, prec, emax; lia.
    + rewrite iter_xO. f_equal. f_equal. lia.
    + cbn [valid_binary]. unfold bounded, canonical_mantissa.
      rewrite digits2_pos_iter_xO. fold d.
      apply andb_true_intro. split; [apply Z.eqb_eq|apply Z.leb_le];
        unfold fexp, emin, prec, emax; lia.
Qed.

(** The integers below [2^53] are numbers. *)
Lemma num_exact n :
  0 < n < 2 ^ 53 ->
  exists mn en, num n = S754_finite false mn en /\ -52 <= en <= 0 /\ Z.pos mn = n * 2 ^ (- en).
Proof.
  intros Hn. destruct (binary_normalize_exact n 0 Hn ltac:(lia)) as (m & e & Heq & He & Hm & _).
  exists m, e. split; [exact Heq|]. split; [lia|]. by rewrite Hm.
Qed.

(** A number from 0 (included) to 1 (excluded) is a zero or a mantissa
    below [2^53] at an exponent of at most [-53]. *)
Lemma unit_interval_cases r :
  valid_binary prec emax r = true -> SFleb (num 0) r = true -> SFltb r (num 1) = true ->
  (exists s, r = S754_zero s) \/
  (exists m e, r = S754_finite false m e /\ e <= -53 /\ Z.pos m < 2 ^ 53).
Proof.
  intros Hvalid H0 H1. destruct r as [s|s| |s m e]; try done.
  - left. by exists s.
  - by destruct s.
  - right. destruct s; [done|]. exists m, e. split; [done|].
    cbn [valid_binary] in Hvalid. unfold bounded, canonical_mantissa in Hvalid.
    apply andb_prop in Hvalid as [Hcanon _]. apply Z.eqb_eq in Hcanon.
    pose proof (digits2_pos_bound m) as Hlow. pose proof (digits2_pos_lt m) as Hhigh.
    set (d := Z.pos (digits2_pos m)) in *.
    assert (Hd : d <= 53) by (unfold fexp, emin, prec, emax in Hcanon; lia).
    assert (Hm : Z.pos m < 2 ^ 53).
    { eapply Z.lt_le_trans; [exact Hhigh|]. apply Z.pow_le_mono_r; lia. }
    split; [|done].
    change (num 1) with (S754_finite false 4503599627370496 (-52)) in H1.
    unfold SFltb in H1. cbn [SFcompare] in H1.
    destruct (Z.compare_spec e (-52)) as [->|Hlt|Hgt]; [|lia|done].
    assert (d = 53) by (unfold fexp, emin, prec, emax in Hcanon; lia).
    rewrite Pos.compare_cont_spec in H1.
    destruct (Pos.compare_spec m 4503599627370496) as [|Hlt|]; try done.
    replace d with 53 in Hlow by done. change (2 ^ (53 - 1)) with 4503599627370496 in Hlow. apply Pos2Z.pos_lt_pos in Hlt. clear - Hlow Hlt. lia.
Qed.

(** [Math.floor(r * n)] for a number [r] from 0 to 1 (excluded) and a
    whole [n]: the binary64 product is rounded, and stays below [n]. *)
Lemma floor_product_below r n :
  valid_binary prec emax r = true -> SFleb (num 0) r = true -> SFltb r (num 1) = true ->
  0 < n < 2 ^ 53 ->
  0 <= Math_floor (SFmul prec emax r (num n)) < n.
Proof.
  intros Hvalid H0 H1 Hn.
  destruct (num_exact n Hn) as (mn & en & -> & Hen & Hmn).
  destruct (unit_interval_cases r Hvalid H0 H1) as [[s ->]|(m & e & -> & He & Hm)].
  { cbn [SFmul Math_floor]. lia. }
  cbn [SFmul xorb].
  destruct (binary_round_aux_bounds (m * mn) (e + en)) as (m3 & e3 & -> & Hm3 & He3 & Hbound & _).
  cbn zeta in Hbound.
  destruct m3 as [|m'|m']; [cbn [Math_floor]; lia| |lia].
  set (E := e + en) in *. set (P := (m * mn)%positive) in *.
  set (a := - e - 53). set (b := - en) in *.
  assert (Ha : 0 <= a) by (unfold a; lia). assert (Hb : 0 <= b <= 52) by (unfold b; lia).
  assert (HE : - E = a + b + 53) by (unfold E, a, b; lia).
  pose proof (digits2_pos_bound P) as Hlow.
  set (d := Z.pos (digits2_pos P)) in *.
  assert (Hab : 0 < 2 ^ (a + b)) by (apply Z.pow_pos_nonneg; lia).
  assert (Hpa : 0 < 2 ^ a) by (apply Z.pow_pos_nonneg; lia).
  assert (Hpb : 0 < 2 ^ b) by (apply Z.pow_pos_nonneg; lia).
  assert (HN : 2 ^ (- E) = 2 ^ (a + b) * 2 ^ 53) by (rewrite HE, Z.pow_add_r by lia; done).
  assert (HP : Z.pos P + n * 2 ^ (a + b) <= n * 2 ^ (- E)).
  { unfold P. rewrite Pos2Z.inj_mul, Hmn, HN. rewrite (Z.pow_add_r 2 a b) by lia.
    assert (Z.pos m <= 2 ^ 53 - 1) by lia. nia. }
  assert (Hstrict : Z.pos m' * 2 ^ (e3 - E) < n * 2 ^ (- E)).
  { destruct (Z.lt_ge_cases (Z.pos m' * 2 ^ (e3 - E)) (n * 2 ^ (- E))) as [|Hge]; [done|].
    exfalso.
    destruct (Z.ltb_spec 0 (fexp prec emax (d + E) - E)) as [Hp|Hp]; [|nia].
    set (p := fexp prec emax (d + E) - E) in *.
    assert (Hh : n * 2 ^ (a + b) <= 2 ^ (p - 1)) by lia.
    assert (Hcases : p = a + b - 1021 \/ (p = d - 53 /\ 54 <= d))
      by (unfold p, fexp, emin, prec, emax in *; lia).
    destruct Hcases as [Hp1|[Hp2 Hd]].
    - assert (2 ^ (p - 1) < 2 ^ (a + b)) by (apply Z.pow_lt_mono_r; lia). nia.
    - rewrite Hp2 in Hh. replace (d - 53 - 1) with (d - 54) in Hh by lia.
      assert (Hd1 : 2 ^ (d - 1) = 2 ^ (d - 54) * 2 ^ 53)
        by (rewrite <- Z.pow_add_r by lia; f_equal; lia).
      rewrite HN in HP. nia. }
  assert (He3' : e3 < 53).
  { destruct (Z.lt_ge_cases e3 53) as [|Hge]; [done|]. exfalso.
    assert (2 ^ (53 - E) <= 2 ^ (e3 - E)) by (apply Z.pow_le_mono_r; lia).
    assert (2 ^ (53 - E) = 2 ^ 53 * 2 ^ (- E))
      by (rewrite <- Z.pow_add_r by lia; f_equal; lia).
    assert (0 < 2 ^ (- E)) by (apply Z.pow_pos_nonneg; lia).
    nia. }
  rewrite (proj2 (Z.leb_le e3 (emax - prec))) by (unfold emax, prec; lia).
  cbn [Math_floor]. cbn zeta.
  assert (HpE : 0 < 2 ^ (- E)) by (apply Z.pow_pos_nonneg; lia).
  destruct (Z.leb_spec 0 e3) as [Hpos|Hneg].
  - assert (2 ^ (e3 - E) = 2 ^ e3 * 2 ^ (- E))
      by (rewrite <- Z.pow_add_r by lia; f_equal; lia).
    assert (0 < 2 ^ e3) by (apply Z.pow_pos_nonneg; lia). nia.
  - assert (Hsplit : 2 ^ (- E) = 2 ^ (- e3) * 2 ^ (e3 - E))
      by (rewrite <- Z.pow_add_r by lia; f_equal; lia).
    assert (0 < 2 ^ (- e3)) by (apply Z.pow_pos_nonneg; lia).
    assert (0 < 2 ^ (e3 - E)) by (apply Z.pow_pos_nonneg; lia).
    split; [apply Z.div_pos; lia|].
    apply Z.div_lt_upper_bound; [lia|]. nia.
Qed.

(** *** A value of [Math.random()] for each index *)

Lemma fraction_above_mantissa c n :
  0 <= c < n -> n <= 2 ^ 53 ->
  let K := (c * 2 ^ 53 + n - 1) / n in
  0 <= K < 2 ^ 53 /\ c * 2 ^ 53 <= K * n < c * 2 ^ 53 + n /\ (c = 0 -> K = 0) /\ (0 < c -> 0 < K).
Proof.
  intros Hc Hn K.
  pose proof (Z.div_mod (c * 2 ^ 53 + n - 1) n ltac:(lia)) as Hdm.
  pose proof (Z.mod_pos_bound (c * 2 ^ 53 + n - 1) n ltac:(lia)) as Hmod.
  fold K in Hdm.
  assert (Hmul : c * 2 ^ 53 <= K * n < c * 2 ^ 53 + n) by lia.
  assert (HK : 0 <= K) by (apply Z.div_pos; lia).
  split; [|split; [done|split]].
  - split; [done|]. assert (K * n < 2 ^ 53 * n) by nia. nia.
  - intros ->. unfold K. apply Z.div_small. lia.
  - intros Hpos. nia.
Qed.

(** It is a number from 0 to 1 (excluded). *)
Lemma fraction_above_in_range c n :
  0 <= c < n -> n <= 2 ^ 53 ->
  valid_binary prec emax (fraction_above c n) = true /\
  SFleb (num 0) (fraction_above c n) = true /\
  SFltb (fraction_above c n) (num 1) = true.
Proof.
  intros Hc Hn. unfold fraction_above.
  destruct (fraction_above_mantissa c n Hc Hn) as ([HK0 HK] & _ & _ & _).
  set (K := (c * 2 ^ 53 + n - 1) / n) in *.
  destruct (Z.eq_dec K 0) as [->|HK1]; [done|].
  destruct (binary_normalize_exact K (-53) ltac:(lia) ltac:(lia)) as (m & e & -> & He & _ & Hvalid).
  split; [exact Hvalid|]. split; [done|].
  change (num 1) with (S754_finite false 4503599627370496 (-52)).
  unfold SFltb. cbn [SFcompare].
  destruct (Z.compare_spec e (-52)); (done || lia).
Qed.

(** Multiplied by [n] and floored, it gives [c]. *)
Lemma fraction_above_index c n :
  0 <= c < n -> n <= 2 ^ 52 ->
  Math_floor (SFmul prec emax (fraction_above c n) (num n)) = c.
Proof.
  intros Hc Hn.
  destruct (fraction_above_mantissa c n Hc ltac:(lia)) as ([HK0 HK] & HKn & Hzero & Hpos).
  destruct (num_exact n ltac:(lia)) as (mn & en & Hnum & Hen & Hmn).
  unfold fraction_above.
  set (K := (c * 2 ^ 53 + n - 1) / n) in *. rewrite Hnum.
  destruct (Z.eq_dec c 0) as [->|Hc0].
  { rewrite Hzero by done. done. }
  destruct (binary_normalize_exact K (-53) ltac:(lia) ltac:(lia)) as (m & e & -> & He & Hm & _).
  cbn [SFmul xorb].
  destruct (binary_round_aux_bounds (m * mn) (e + en))
    as (m3 & e3 & -> & Hm3 & He3 & Hbound & Hlow).
  cbn zeta in Hbound, Hlow.
  set (E := e + en) in *. set (P := (m * mn)%positive) in *.
  set (t := - E - 53).
  assert (Ht : 0 <= t) by (unfold t, E; lia).
  assert (HE : - E = t + 53) by (unfold t; lia).
  assert (Hpt : 0 < 2 ^ t) by (apply Z.pow_pos_nonneg; lia).
  assert (HN : 2 ^ (- E) = 2 ^ 53 * 2 ^ t) by (rewrite HE, Z.pow_add_r by lia; lia).
  assert (HP : Z.pos P = K * n * 2 ^ t).
  { unfold P. rewrite Pos2Z.inj_mul, Hm, Hmn.
    replace t with ((-53 - e) + (- en)) by (unfold t, E; lia).
    rewrite Z.pow_add_r by lia. lia. }
  pose proof (digits2_pos_bound P) as Hlowd.
  set (d := Z.pos (digits2_pos P)) in *.
  set (h := if 0 <? fexp prec emax (d + E) - E then 2 ^ (fexp prec emax (d + E) - E - 1) else 0)
    in *.
  assert (Hh : 0 <= h /\ h < n * 2 ^ t).
  { unfold h. destruct (Z.ltb_spec 0 (fexp prec emax (d + E) - E)) as [Hp|Hp]; [|nia].
    set (p := fexp prec emax (d + E) - E) in *. split; [apply Z.pow_nonneg; lia|].
    assert (Hp2 : p = d - 53 /\ 54 <= d) by (unfold p, fexp, emin, prec, emax, E in *; lia).
    destruct Hp2 as [-> Hd]. replace (d - 53 - 1) with (d - 54) by lia.
    assert (Hd1 : 2 ^ (d - 1) = 2 ^ (d - 54) * 2 ^ 53)
      by (rewrite <- Z.pow_add_r by lia; f_equal; lia).
    nia. }
  assert (Hsum : Z.pos P + h < (c + 1) * 2 ^ (- E)) by (rewrite HP, HN; nia).
  assert (Hsmall : Z.pos P + h < 2 ^ (53 - E)).
  { replace (53 - E) with (53 + - E) by lia. rewrite Z.pow_add_r, HN by lia.
    rewrite HN in Hsum. nia. }
  destruct (Hlow ltac:(unfold E; lia) Hsmall) as [He30 Hfloor].
  specialize (Hfloor c ltac:(rewrite HP, HN; nia)).
  assert (Hp3 : 0 < 2 ^ (- e3)) by (apply Z.pow_pos_nonneg; lia).
  destruct m3 as [|m'|m']; [nia| |lia].
  rewrite (proj2 (Z.leb_le e3 (emax - prec))) by (unfold emax, prec; lia).
  cbn [Math_floor]. cbn zeta.
  assert (Hsplit : 2 ^ (- E) = 2 ^ (- e3) * 2 ^ (e3 - E))
    by (rewrite <- Z.pow_add_r by lia; f_equal; lia).
  assert (Hp4 : 0 < 2 ^ (e3 - E)) by (apply Z.pow_pos_nonneg; lia).
  assert (Hupper : Z.pos m' < (c + 1) * 2 ^ (- e3)) by nia.
  destruct (Z.leb_spec 0 e3) as [Hge|Hlt].
  - assert (e3 = 0) as -> by lia. cbn in Hupper, Hfloor |- *. lia.
  - apply Z.le_antisymm.
    + apply Z.lt_succ_r. apply Z.div_lt_upper_bound; [done|]. lia.
    + apply Z.div_le_lower_bound; [done|]. lia.
Qed.

End Product.

Section ShuffleFacts.

Context `{Runtime} {T : Type}.
Implicit Types (a : list T) (h : gmap positive (list T)).

Lemma swap_length a i j : length (swap a i j) = length a.
Proof.
  unfold swap. destruct (a !! j), (a !! i); try reflexivity.
  by rewrite !length_insert.
Qed.

Lemma swap_exchanged a i j :
  (i < length a)%nat -> (j < length a)%nat -> exchanged a (swap a i j) i j.
Proof.
  intros Hi Hj. unfold swap.
  destruct (lookup_lt_is_Some_2 a j Hj) as [aj Haj].
  destruct (lookup_lt_is_Some_2 a i Hi) as [ai Hai].
  rewrite Haj, Hai. repeat split.
  - by rewrite !length_insert.
  - destruct (decide (i = j)) as [->|Hne].
    + rewrite list_lookup_insert_eq by (by rewrite length_insert). congruence.
    + rewrite list_lookup_insert_ne by done.
      rewrite list_lookup_insert_eq by done. done.
  - rewrite list_lookup_insert_eq by (by rewrite length_insert). done.
  - intros p Hpi Hpj. by rewrite !list_lookup_insert_ne.
Qed.

Lemma exchanged_Permutation a b i j :
  (i < length a)%nat -> (j < length a)%nat -> exchanged a b i j -> b ≡ₚ a.
Proof.
  intros Hi Hj (Hlen & Hbi & Hbj & Hother).
  apply Permutation_inj. split; [done|].
  exists (fun p => if decide (p = i) then j else if decide (p = j) then i else p).
  split.
  - intros p q. repeat case_decide; intros; subst; congruence.
  - intros p. repeat case_decide; subst; auto.
Qed.

Lemma swap_Permutation a i j : swap a i j ≡ₚ a.
Proof.
  unfold swap.
  destruct (a !! j) as [aj|] eqn:Haj; [|done].
  destruct (a !! i) as [ai|] eqn:Hai; [|done].
  apply (exchanged_Permutation _ _ i j); eauto using lookup_lt_Some.
  pose proof (swap_exchanged a i j (lookup_lt_Some _ _ _ Hai) (lookup_lt_Some _ _ _ Haj)) as E.
  unfold swap in E. by rewrite Haj, Hai in E.
Qed.

Lemma random_index_le k i :
  Math_random_in_range -> Z.of_nat i + 1 < 2 ^ 53 -> (random_index k i <= i)%nat.
Proof.
  intros Hr Hi. destruct (Hr k) as (Hvalid & H0 & H1). unfold random_index.
  pose proof (floor_product_below (Math_random k) (Z.of_nat i + 1) Hvalid H0 H1 ltac:(lia)).
  lia.
Qed.

Lemma shuffle_pass_length i k a : length (fst (shuffle_pass i k a)) = length a.
Proof.
  revert k a. induction i as [|i IH]; intros k a; simpl; [done|].
  by rewrite IH, swap_length.
Qed.

Lemma shuffle_pass_calls i k a : snd (shuffle_pass i k a) = (k + i)%nat.
Proof.
  revert k a. induction i as [|i IH]; intros k a; simpl; [lia|].
  rewrite IH. lia.
Qed.

Lemma shuffle_pass_Permutation i k a : fst (shuffle_pass i k a) ≡ₚ a.
Proof.
  revert k a. induction i as [|i IH]; intros k a; simpl; [done|].
  by rewrite IH, swap_Permutation.
Qed.

Lemma FisherYates_ext (draw draw' : nat -> nat) i a b :
  (forall p, (1 <= p <= i)%nat -> draw p = draw' p) ->
  FisherYates draw i a b -> FisherYates draw' i a b.
Proof.
  intros Hext Hfy. induction Hfy as [a|i a b c Hle Hex Hfy IH]; [constructor|].
  eapply FisherYates_step.
  - rewrite <- Hext by lia. exact Hle.
  - rewrite <- Hext by lia. exact Hex.
  - apply IH. intros p Hp. apply Hext. lia.
Qed.

(** The pass of the loop is the Fisher-Yates pass with the indices that
    the calls of [Math.random()] give, the call [k] for the index [i],
    the next call for the index below, and so on. *)
Lemma shuffle_pass_FisherYates i k a :
  Math_random_in_range -> (i < length a)%nat -> Z.of_nat (length a) < 2 ^ 53 ->
  FisherYates (fun p => random_index (k + (i - p)) p) i a (fst (shuffle_pass i k a)).
Proof.
  intros Hr. revert k a. induction i as [|i IH]; intros k a Hi Hlen; simpl.
  - constructor.
  - eapply FisherYates_step.
    + apply random_index_le; [done|lia].
    + rewrite Nat.sub_diag, Nat.add_0_r.
      pose proof (random_index_le k (S i) Hr ltac:(lia)). apply swap_exchanged; lia.
    + apply (FisherYates_ext (fun p => random_index (S k + (i - p)) p)).
      * intros p Hp. f_equal. destruct p; lia.
      * apply IH; rewrite swap_length; lia.
Qed.

(** The loop through the reference does to the store what the loop on the
    contents computes. *)
Lemma shuffle_loop_contents l i k h a :
  h !! l = Some a ->
  shuffle_loop l i k h = (<[l := fst (shuffle_pass i k a)]> h, snd (shuffle_pass i k a)).
Proof.
  revert k h a. induction i as [|i IH]; intros k h a Hl; simpl.
  - by rewrite insert_id.
  - unfold swap_at at 1. rewrite Hl.
    rewrite (IH _ _ (swap a (S i) (random_index k (S i)))) by apply lookup_insert_eq.
    by rewrite insert_insert_eq.
Qed.

Lemma shuffleArray_contents array k h a :
  h !! array = Some a ->
  shuffleArray array k h =
    Some (fresh (dom h), <[fresh (dom h) := fst (shuffled k a)]> h, snd (shuffled k a)).
Proof.
  intros Ha. unfold shuffleArray, shuffled. rewrite Ha.
  rewrite (shuffle_loop_contents _ _ _ _ a) by apply lookup_insert_eq.
  by rewrite insert_insert_eq.
Qed.

Lemma fresh_not_allocated h : h !! fresh (dom h) = None.
Proof. apply not_elem_of_dom, is_fresh. Qed.

End ShuffleFacts.

(** C8: [shuffleArray] returns a permutation of its argument, made by a
    Fisher-Yates pass: for each index [i] from the last down to 1 the
    element there is exchanged with the one at the random index
    [Math.floor(Math.random() * (i + 1))] of the call made for [i], and
    this index is at most [i].  [Math.random()] yields numbers from 0 to
    1 (excluded), and the array has fewer than [2^53] elements, as every
    array of the language has. *)
Theorem shuffleArray_permutation `{Runtime} {T : Type}
    (array : positive) (k : nat) (h : gmap positive (list T)) (a : list T) :
  Math_random_in_range ->
  Z.of_nat (length a) < 2 ^ 53 ->
  h !! array = Some a ->
  exists newArray h' a',
    shuffleArray array k h = Some (newArray, h', (k + (length a - 1))%nat) /\
    h' !! newArray = Some a' /\
    a' ≡ₚ a /\
    FisherYates (fun i => random_index (k + (length a - 1 - i)) i) (length a - 1) a a'.
Proof.
  intros Hr Hlen Ha.
  exists (fresh (dom h)), (<[fresh (dom h) := fst (shuffled k a)]> h), (fst (shuffled k a)).
  rewrite (shuffleArray_contents _ _ _ a Ha). unfold shuffled.
  rewrite shuffle_pass_calls. split; [done|]. split; [apply lookup_insert_eq|].
  split; [apply shuffle_pass_Permutation|].
  destruct a as [|x a]; [constructor|].
  apply shuffle_pass_FisherYates; [done|simpl; lia|done].
Qed.

(** C10: [shuffleArray] does not change its argument: the array it
    returns is a new one, and every array of the store, the argument
    among them, holds after the call what it held before. *)
Theorem shuffleArray_frame `{Runtime} {T : Type}
    (array : positive) (k : nat) (h : gmap positive (list T)) (a : list T) :
  h !! array = Some a ->
  exists newArray h' k',
    shuffleArray array k h = Some (newArray, h', k') /\
    h !! newArray = None /\
    newArray <> array /\
    h' !! array = Some a /\
    forall l, l <> newArray -> h' !! l = h !! l.
Proof.
  intros Ha. eexists _, _, _. split; [by apply shuffleArray_contents|].
  pose proof (fresh_not_allocated h) as Hf.
  split; [done|]. split; [congruence|].
  split.
  - rewrite lookup_insert_ne by congruence. done.
  - intros l Hl. by rewrite lookup_insert_ne.
Qed.

(** ** The matched prefix *)

Section MatchFacts.

Implicit Types (target draft : jsstring).

Lemma commonPrefixLength_le_draft target draft :
  (commonPrefixLength target draft <= length draft)%nat.
Proof.
  revert draft. induction target as [|c t IH]; intros [|d r]; simpl; try lia.
  case_bool_decide; [|lia]. specialize (IH r). lia.
Qed.

(** The common prefix reaches past [n] exactly when it reaches [n] and
    the two characters at [n] exist and agree. *)
Lemma commonPrefixLength_S target draft n :
  (S n <= commonPrefixLength target draft)%nat <->
  (n <= commonPrefixLength target draft)%nat /\
  exists c, target !! n = Some c /\ draft !! n = Some c.
Proof.
  revert draft n. induction target as [|c t IH]; intros [|d r] n; simpl.
  - split; [lia|]. intros (_ & ? & ? & ?). done.
  - split; [lia|]. intros (_ & ? & ? & ?). done.
  - split; [lia|]. intros (_ & ? & ? & ?). done.
  - case_bool_decide as Hcd.
    + subst d. destruct n as [|n]; simpl.
      * split; [intros _; split; [lia|eauto]|lia].
      * rewrite <- !Nat.succ_le_mono. apply IH.
    + split; [lia|]. intros (Hn & x & Hc & Hd).
      destruct n; simpl in *; [congruence|lia].
Qed.

Lemma commonPrefixLength_spec target draft n :
  (n < commonPrefixLength target draft)%nat <->
  forall p, (p <= n)%nat -> exists c, target !! p = Some c /\ draft !! p = Some c.
Proof.
  induction n as [|n IH].
  - change (0 < ?x)%nat with (1 <= x)%nat. rewrite commonPrefixLength_S. split.
    + intros (_ & Hc) p Hp. by replace p with O by lia.
    + intros Hp. split; [lia|]. apply Hp. lia.
  - change (S n < ?x)%nat with (S (S n) <= x)%nat. rewrite commonPrefixLength_S.
    change (S n <= ?x)%nat with (n < x)%nat. rewrite IH. split.
    + intros (Hlt & Hc) p Hp. destruct (decide (p = S n)) as [->|]; [done|].
      apply Hlt. lia.
    + intros Hp. split; [intros p ?; apply Hp; lia|apply Hp; lia].
Qed.

Lemma matchPart_prefix target draft n :
  (n <= length draft)%nat ->
  foldl (App.matchStep target draft) [] (seq 0 n) =
    take (n `min` commonPrefixLength target draft) draft.
Proof.
  pose proof (commonPrefixLength_le_draft target draft) as Hle.
  induction n as [|n IH]; intros Hn; [done|].
  rewrite seq_S, foldl_app, IH by lia. cbn [foldl Nat.add]. unfold App.matchStep.
  destruct (lookup_lt_is_Some_2 draft n ltac:(lia)) as [c Hc]. rewrite Hc.
  rewrite length_take.
  destruct (target !! n) as [d|] eqn:Hd.
  - case_bool_decide as Hcd; cbn [andb].
    + subst d. case_bool_decide as Hlen.
      * assert (S n <= commonPrefixLength target draft)%nat
          by (apply commonPrefixLength_S; split; [lia|eauto]).
        rewrite !Nat.min_l by lia. by rewrite (take_S_r _ _ c Hc).
      * f_equal. lia.
    + assert (~ (S n <= commonPrefixLength target draft)%nat).
      { rewrite commonPrefixLength_S. intros (_ & x & ? & ?). congruence. }
      f_equal. lia.
  - assert (~ (S n <= commonPrefixLength target draft)%nat).
    { rewrite commonPrefixLength_S. intros (_ & x & ? & ?). congruence. }
    f_equal. lia.
Qed.

Lemma matchPart_take target draft :
  App.matchPart target draft = take (commonPrefixLength target draft) draft.
Proof.
  unfold App.matchPart. rewrite matchPart_prefix by done.
  f_equal. pose proof (commonPrefixLength_le_draft target draft). lia.
Qed.

End MatchFacts.

(** C7: the matched prefix is the longest common prefix: position [i]
    counts exactly when the draft and the target agree at [i] and at every
    position before it, so the run stops at the first mismatch;
    [matchedPrefixLength("hello", "heLLo") = 2]. *)
Theorem matchedPrefixLength_longest_common_prefix (target draft : jsstring) :
  App.matchedPrefixLength target draft = commonPrefixLength target draft /\
  (forall i, (i < App.matchedPrefixLength target draft)%nat <->
             forall p, (p <= i)%nat -> exists c, target !! p = Some c /\ draft !! p = Some c) /\
  App.matchPart target draft = take (App.matchedPrefixLength target draft) target /\
  App.matchedPrefixLength (js "hello") (js "heLLo") = 2%nat.
Proof.
  assert (Hlen : App.matchedPrefixLength target draft = commonPrefixLength target draft).
  { unfold App.matchedPrefixLength. rewrite matchPart_take, length_take.
    pose proof (commonPrefixLength_le_draft target draft). lia. }
  split; [done|]. split; [|split].
  - intros i. rewrite Hlen. apply commonPrefixLength_spec.
  - rewrite Hlen, matchPart_take. apply list_eq. intros i.
    destruct (decide (i < commonPrefixLength target draft)%nat) as [Hi|Hi].
    + rewrite !lookup_take_lt by done.
      pose proof (proj1 (commonPrefixLength_spec target draft i) Hi i (Nat.le_refl i))
        as (c & -> & ->). done.
    + rewrite !lookup_take_ge by lia. done.
  - vm_compute. reflexivity.
Qed.

(** ** The input handler *)

Section InputFacts.

Context `{Runtime}.
Implicit Types (s : App.State) (val : jsstring) (w : types.WordObject).


Lemma started_frame s :
  App.words (started s) = App.words s /\
  App.currentIndex (started s) = App.currentIndex s /\
  App.stats (started s) = App.stats s /\
  App.inputValue (started s) = App.inputValue s /\
  App.randomCalls (started s) = App.randomCalls s.
Proof. unfold started. by case_decide. Qed.


Lemma marked_length b s : length (marked b s) = length (App.words s).
Proof. unfold marked. case_decide; by rewrite ?length_alter. Qed.

Lemma marked_texts b s : types.text <$> marked b s = types.text <$> App.words s.
Proof.
  unfold marked. apply list_eq. intros i.
  assert (Halter : forall st j (l : list types.WordObject),
             (types.text <$> alter (App.setWordStatus st) j l) !! i = (types.text <$> l) !! i).
  { intros st j l. rewrite !list_lookup_fmap.
    destruct (decide (j = i)) as [->|].
    - rewrite list_lookup_alter_eq. by destruct (l !! i).
    - by rewrite list_lookup_alter_ne. }
  case_decide; by rewrite ?Halter.
Qed.

Lemma marked_current b s w :
  App.words s !! App.currentIndex s = Some w ->
  marked b s !! App.currentIndex s =
    Some (App.setWordStatus (if b then types.correct else types.incorrect) w).
Proof.
  intros Hw. unfold marked. case_decide.
  - rewrite list_lookup_alter_ne by lia. by rewrite list_lookup_alter_eq, Hw.
  - by rewrite list_lookup_alter_eq, Hw.
Qed.

Lemma marked_next b s w' :
  App.words s !! (App.currentIndex s + 1)%nat = Some w' ->
  marked b s !! (App.currentIndex s + 1)%nat = Some (App.setWordStatus types.active w').
Proof.
  intros Hw. unfold marked. apply lookup_lt_Some in Hw as Hlt.
  rewrite decide_True by (by rewrite length_alter).
  rewrite list_lookup_alter_eq, list_lookup_alter_ne by lia. by rewrite Hw.
Qed.

(** A submission, written out. *)
Lemma handleInputChange_submit s val w :
  endsWith val SPACE = true ->
  App.words s !! App.currentIndex s = Some w ->
  let isCorrect := bool_decide (trim val = types.text w) in
  let prev := App.stats s in
  let s2 :=
    App.set_inputValue []
      (App.set_currentIndex (App.currentIndex s + 1)%nat
      (App.set_stats
         {| types.wpm := types.wpm prev;
            types.accuracy := types.accuracy prev;
            types.correctWords :=
              if isCorrect then (types.correctWords prev + 1)%nat else types.correctWords prev;
            types.incorrectWords :=
              if isCorrect then types.incorrectWords prev else (types.incorrectWords prev + 1)%nat;
            types.totalKeystrokes := (types.totalKeystrokes prev + length (trim val) + 1)%nat;
            types.timeSpent := types.timeSpent prev |}
      (App.set_words (marked isCorrect s) (started s)))) in
  App.handleInputChange val s =
    if decide (length (App.words s) < App.currentIndex s + 10)%nat
    then Ok (App.set_randomCalls (snd (shuffled (App.randomCalls s) DEFAULT_WORDS))
            (App.set_words (marked isCorrect s ++
                             (App.pendingWord <$> fst (shuffled (App.randomCalls s) DEFAULT_WORDS)))
               s2))
    else Ok s2.
Proof.
  intros Hend Hw. unfold App.handleInputChange. rewrite Hend, Hw.
  destruct (started_frame s) as (Hwords & Hidx & Hstats & _ & Hcalls).
  fold (started s). rewrite Hwords, Hidx, Hstats. fold (marked (bool_decide (trim val = types.text w)) s).
  destruct (decide (length (App.words s) < App.currentIndex s + 10)%nat); [|done].
  cbn [App.randomCalls App.set_inputValue App.set_currentIndex App.set_stats App.set_words].
  rewrite Hcalls. by destruct (shuffled _ _).
Qed.

Lemma handleInputChange_draft s val w :
  endsWith val SPACE = false ->
  App.words s !! App.currentIndex s = Some w ->
  App.handleInputChange val s =
    Ok (if decide (length val <= length (types.text w) + 3)%nat
        then App.set_inputValue val (started s) else started s).
Proof.
  intros Hend Hw. unfold App.handleInputChange. rewrite Hend, Hw. fold (started s).
  by case_decide.
Qed.

Lemma step_InputChange s val :
  App.status s <> types.finished -> App.isLoading s = false ->
  App.step s (App.InputChange val) = App.handleInputChange val s.
Proof.
  intros Hs Hl. cbn [App.step]. rewrite Hl, bool_decide_true by done. done.
Qed.

End InputFacts.

(** C1: a text that ends in a space submits the typed word: it is the
    trimmed text; the active word becomes [correct] exactly when the typed
    word is its text, else [incorrect]; the counter of that outcome grows
    by one and the other stays; the keystrokes grow by the typed length
    plus one; the cursor moves on by one; the next word, when there is
    one, becomes [active]; the draft is emptied. *)
Theorem submitDraft_classifies `{Runtime} (s : App.State) (val : jsstring) (w : types.WordObject) :
  App.status s <> types.finished ->
  App.isLoading s = false ->
  endsWith val SPACE = true ->
  App.words s !! App.currentIndex s = Some w ->
  exists s', App.step s (App.InputChange val) = Ok s' /\
    let typed := trim val in
    let isCorrect := bool_decide (typed = types.text w) in
    App.words s' !! App.currentIndex s =
      Some {| types.text := types.text w;
              types.status := if isCorrect then types.correct else types.incorrect |} /\
    types.correctWords (App.stats s') =
      (types.correctWords (App.stats s) + if isCorrect then 1 else 0)%nat /\
    types.incorrectWords (App.stats s') =
      (types.incorrectWords (App.stats s) + if isCorrect then 0 else 1)%nat /\
    types.totalKeystrokes (App.stats s') =
      (types.totalKeystrokes (App.stats s) + length typed + 1)%nat /\
    App.currentIndex s' = (App.currentIndex s + 1)%nat /\
    (forall w', App.words s !! (App.currentIndex s + 1)%nat = Some w' ->
       App.words s' !! (App.currentIndex s + 1)%nat =
         Some {| types.text := types.text w'; types.status := types.active |}) /\
    App.inputValue s' = [].
Proof.
  intros Hs Hl Hend Hw. rewrite step_InputChange by done.
  rewrite (handleInputChange_submit s val w Hend Hw).
  pose proof (marked_current (bool_decide (trim val = types.text w)) s w Hw) as Hcur.
  pose proof (marked_next (bool_decide (trim val = types.text w)) s) as Hnext.
  apply lookup_lt_Some in Hw as Hlt.
  destruct (decide (length (App.words s) < App.currentIndex s + 10)%nat);
    eexists; (split; [reflexivity|]);
    cbn [App.words App.stats App.currentIndex App.inputValue App.set_randomCalls
         App.set_words App.set_inputValue App.set_currentIndex App.set_stats
         types.correctWords types.incorrectWords types.totalKeystrokes];
    (split; [|split; [|split; [|split; [|split; [|split]]]]]);
    try done; try (by destruct (bool_decide _); lia).
  - rewrite lookup_app_l by (by rewrite marked_length). exact Hcur.
  - intros w' Hw'. apply lookup_lt_Some in Hw' as Hlt'.
    rewrite lookup_app_l by (by rewrite marked_length). by apply Hnext.
Qed.

(** C6: a text that does not end in a space becomes the draft exactly
    when it is at most three longer than the active word; a longer one
    leaves the draft as it was; either way the words, the cursor and the
    counters do not change. *)
Theorem draft_update_bounded `{Runtime} (s : App.State) (val : jsstring) (w : types.WordObject) :
  App.status s <> types.finished ->
  App.isLoading s = false ->
  endsWith val SPACE = false ->
  App.words s !! App.currentIndex s = Some w ->
  exists s', App.step s (App.InputChange val) = Ok s' /\
    ((length val <= length (types.text w) + 3)%nat -> App.inputValue s' = val) /\
    (~ (length val <= length (types.text w) + 3)%nat -> App.inputValue s' = App.inputValue s) /\
    App.words s' = App.words s /\
    App.currentIndex s' = App.currentIndex s /\
    App.stats s' = App.stats s.
Proof.
  intros Hs Hl Hend Hw. rewrite step_InputChange by done.
  rewrite (handleInputChange_draft s val w Hend Hw).
  destruct (started_frame s) as (Hwords & Hidx & Hstats & Hinput & _).
  eexists. split; [reflexivity|].
  case_decide; cbn [App.inputValue App.words App.currentIndex App.stats App.set_inputValue];
    repeat split; try done; try (intros; lia).
Qed.

(** C3, as the code has it: a submission appends a batch exactly when
    fewer than 10 words are left from the submitted word to the tail, that
    is [words.length - currentIndex < 10] before the cursor moves.  The
    batch is a shuffle of [DEFAULT_WORDS], all [pending], and goes to the
    tail: the sequence grows by 40 and the words already there keep their
    places and texts.  Otherwise the sequence keeps its length. *)
Theorem stream_extension `{Runtime} (s : App.State) (val : jsstring) (w : types.WordObject) :
  App.status s <> types.finished ->
  App.isLoading s = false ->
  endsWith val SPACE = true ->
  App.words s !! App.currentIndex s = Some w ->
  exists s', App.step s (App.InputChange val) = Ok s' /\
    types.text <$> take (length (App.words s)) (App.words s') = types.text <$> App.words s /\
    ((length (App.words s) - App.currentIndex s < 10)%nat ->
       exists batch, batch ≡ₚ DEFAULT_WORDS /\
         drop (length (App.words s)) (App.words s') = App.pendingWord <$> batch /\
         length (App.words s') = (length (App.words s) + 40)%nat /\
         (App.currentIndex s' + 10 <= length (App.words s'))%nat) /\
    ((10 <= length (App.words s) - App.currentIndex s)%nat ->
       length (App.words s') = length (App.words s)).
Proof.
  intros Hs Hl Hend Hw. rewrite step_InputChange by done.
  rewrite (handleInputChange_submit s val w Hend Hw).
  apply lookup_lt_Some in Hw as Hlt.
  set (b := bool_decide (trim val = types.text w)).
  pose proof (marked_length b s) as Hlen. pose proof (marked_texts b s) as Htexts.
  destruct (decide (length (App.words s) < App.currentIndex s + 10)%nat) as [Hext|Hext];
    eexists; (split; [reflexivity|]);
    cbn [App.words App.currentIndex App.set_randomCalls App.set_words
         App.set_inputValue App.set_currentIndex App.set_stats].
  - split; [|split; [|intros; lia]].
    + rewrite <- Hlen, take_app_length. exact Htexts.
    + intros _. exists (fst (shuffled (App.randomCalls s) DEFAULT_WORDS)).
      assert (Hp : fst (shuffled (App.randomCalls s) DEFAULT_WORDS) ≡ₚ DEFAULT_WORDS)
        by apply shuffle_pass_Permutation.
      split; [exact Hp|]. split; [by rewrite <- Hlen, drop_app_length|].
      rewrite length_app, length_fmap, Hlen, (Permutation_length Hp).
      change (length DEFAULT_WORDS) with 40%nat. lia.
  - split; [|split; [intros; lia|by intros _]].
    rewrite <- Hlen, firstn_all. exact Htexts.
Qed.

(** ** The session invariant *)

Ltac state_simpl :=
  cbn [App.status App.words App.currentIndex App.inputValue App.timeLeft App.duration
       App.selectedTopic App.customTopic App.isLoading App.history App.stats
       App.timerRef App.intervals App.nextInterval App.generating App.localStorage
       App.randomCalls
       App.nowCalls
       App.set_status App.set_words App.set_currentIndex App.set_inputValue
       App.set_timeLeft App.set_duration App.set_selectedTopic App.set_customTopic
       App.set_isLoading App.set_generating App.set_history App.set_stats App.set_timerRef
       App.set_intervals
       App.set_nextInterval App.set_localStorage App.set_randomCalls App.set_nowCalls
       App.startGame App.initial App.zeroStats
       types.correctWords types.incorrectWords types.totalKeystrokes types.wpm
       types.accuracy types.timeSpent] in *.

Lemma DEFAULT_WORDS_length : length DEFAULT_WORDS = 40%nat.
Proof. reflexivity. Qed.

Lemma bind_Ok {A B} (a : A) (f : A -> result B) : bind (Ok a) f = f a.
Proof. reflexivity. Qed.

Lemma Ok_inj {A} (a b : A) : Ok a = Ok b -> a = b.
Proof. by intros [=]. Qed.

Section SessionFacts.

Context `{Runtime}.
Implicit Types (s : App.State).

(** [initGame] on a list that is not empty, written out. *)
Lemma initGame_Ok d customWords s :
  let baseWords := default DEFAULT_WORDS customWords in
  baseWords <> [] ->
  App.initGame d customWords s =
    Ok (App.set_stats App.zeroStats
       (App.set_status types.idle
       (App.set_timeLeft d
       (App.set_inputValue []
       (App.set_currentIndex 0%nat
       (App.set_words (alter (App.setWordStatus types.active) 0%nat
                         (App.pendingWord <$> fst (shuffled (App.randomCalls s) baseWords)))
       (App.set_randomCalls (snd (shuffled (App.randomCalls s) baseWords)) s))))))).
Proof.
  intros baseWords Hne. unfold App.initGame.
  replace (match customWords with Some ws => ws | None => DEFAULT_WORDS end)
    with baseWords by (by destruct customWords).
  pose proof (shuffle_pass_length (length baseWords - 1) (App.randomCalls s) baseWords) as Hlen.
  fold (shuffled (App.randomCalls s) baseWords) in Hlen.
  destruct (shuffled (App.randomCalls s) baseWords) as [a k]. simpl in Hlen.
  destruct a as [|x a]; [by destruct baseWords|]. done.
Qed.

Lemma initGame_invariant d customWords s s' :
  App.initGame d customWords s = Ok s' ->
  session_invariant s' /\
  App.localStorage s' = App.localStorage s /\ App.history s' = App.history s.
Proof.
  unfold App.initGame. destruct (shuffled _ _) as [a k].
  destruct (App.pendingWord <$> a) as [|x l] eqn:Ha; [done|].
  intros [= <-]. unfold session_invariant. state_simpl. simpl. repeat split; lia.
Qed.

Lemma initGameWith_Ok d generated s : exists s', App.initGameWith d generated s = Ok s'.
Proof.
  unfold App.initGameWith. destruct generated as [|x l].
  - rewrite initGame_Ok by done. eauto.
  - rewrite initGame_Ok by done. eauto.
Qed.

Lemma handleInputChange_invariant val s s' :
  session_invariant s ->
  App.handleInputChange val s = Ok s' ->
  session_invariant s' /\
  App.localStorage s' = App.localStorage s /\ App.history s' = App.history s.
Proof.
  intros [Hsum Hlt].
  destruct (lookup_lt_is_Some_2 _ _ Hlt) as [w Hw].
  destruct (started_frame s) as (Hwords & Hidx & Hstats & _ & _).
  assert (Hframe : App.localStorage (started s) = App.localStorage s /\
                   App.history (started s) = App.history s)
    by (unfold started; by case_decide).
  destruct Hframe as [Hls Hh].
  destruct (endsWith val SPACE) eqn:Hend.
  - rewrite (handleInputChange_submit s val w Hend Hw).
    pose proof (marked_length (bool_decide (trim val = types.text w)) s) as Hlen.
    pose proof (shuffle_pass_length (length DEFAULT_WORDS - 1) (App.randomCalls s) DEFAULT_WORDS)
      as Hbatch.
    fold (shuffled (App.randomCalls s) DEFAULT_WORDS) in Hbatch.
    rewrite DEFAULT_WORDS_length in Hbatch.
    destruct (decide (length (App.words s) < App.currentIndex s + 10)%nat);
      intros Heq; apply Ok_inj in Heq; subst s';
      unfold session_invariant; state_simpl; rewrite ?length_app, ?length_fmap, ?Hbatch, Hlen;
      (split; [split; [destruct (bool_decide (trim val = types.text w)); lia|lia]|done]).
  - rewrite (handleInputChange_draft s val w Hend Hw).
    case_decide; intros Heq; apply Ok_inj in Heq; subst s';
      unfold session_invariant; state_simpl; rewrite ?Hwords, ?Hidx, ?Hstats; done.
Qed.

Lemma handleInputChange_Ok val s :
  session_invariant s -> exists s', App.handleInputChange val s = Ok s'.
Proof.
  intros [_ Hlt]. destruct (lookup_lt_is_Some_2 _ _ Hlt) as [w Hw].
  destruct (endsWith val SPACE) eqn:Hend.
  - rewrite (handleInputChange_submit s val w Hend Hw). case_decide; eauto.
  - rewrite (handleInputChange_draft s val w Hend Hw). eauto.
Qed.

Lemma endGame_invariant c s s' :
  session_invariant s ->
  App.endGame c s = Ok s' ->
  session_invariant s'.
Proof.
  intros Hinv. unfold App.endGame.
  destruct (saveScore _ _) as [stored|]; [|done]. cbn [bind].
  destruct (App.spread _) as [prevHist|]; [|done]. cbn [bind].
  intros [= <-]. unfold session_invariant in *.
  destruct (App.timerRef s) as [[|t]|]; state_simpl; done.
Qed.

Lemma endGame_Ok c s :
  stringify_parses -> history_is_array s ->
  exists s', App.endGame c s = Ok s' /\ history_is_array s'.
Proof.
  intros Hlaw [[stored Hstored] [entries Hentries]]. unfold App.endGame.
  set (newScore := ScoreEntry_value _).
  assert (Hls : forall s0, App.localStorage (App.set_nowCalls (S (App.nowCalls s0))
                   (App.set_randomCalls (S (App.randomCalls s0)) s0)) = App.localStorage s0) by done.
  assert (Hs1 : forall x, App.localStorage (App.set_status x
             match App.timerRef s with
             | Some (S t) => App.set_intervals (delete (S t) (App.intervals s)) s
             | _ => s end) = App.localStorage s /\
           App.history (App.set_status x
             match App.timerRef s with
             | Some (S t) => App.set_intervals (delete (S t) (App.intervals s)) s
             | _ => s end) = App.history s)
    by (intros; by destruct (App.timerRef s) as [[|?]|]).
  rewrite Hls. destruct (Hs1 types.finished) as [-> Hh].
  unfold saveScore. rewrite Hstored. cbn [bind].
  cbn [App.history App.set_nowCalls App.set_randomCalls]. rewrite Hh, Hentries. cbn [App.spread bind].
  eexists. split; [reflexivity|]. unfold history_is_array. state_simpl. split; [|eauto].
  unfold getItem_or. rewrite lookup_insert_eq.
  destruct (Hlaw (drop (length (stored ++ [newScore]) - 100) (stored ++ [newScore]))) as [l' Hl'].
  destruct (JSON_stringify _) eqn:Hstr; [done|]. eauto.
Qed.

Lemma step_invariant s ev s' :
  session_invariant s -> App.step s ev = Ok s' -> session_invariant s'.
Proof.
  intros Hinv.
  assert (Hinit : forall d cw s0, App.initGame d cw s0 = Ok s' -> session_invariant s')
    by (intros d cw s0 Hstep; by apply initGame_invariant in Hstep as [? _]).
  assert (Hsame : forall s0, session_invariant s0 -> Ok s0 = Ok s' -> session_invariant s')
    by (intros s0 ? Heq; apply Ok_inj in Heq; by subst).
  assert (Hloaded : forall d g b s0,
            bind (App.initGameWith d g s0) (fun s2 => Ok (App.set_isLoading b s2)) = Ok s' ->
            session_invariant s').
  { intros d g b s0. unfold App.initGameWith.
    destruct (App.initGame d _ s0) as [s2|] eqn:Hs2; [|done]. rewrite bind_Ok.
    apply Hsame. by apply initGame_invariant in Hs2 as [? _]. }
  destruct ev; cbn [App.step].
  - destruct (_ && _); [|by apply Hsame].
    intros Hstep. by destruct (handleInputChange_invariant val s s' Hinv Hstep).
  - destruct (App.intervals s !! interval) as [c|]; [|by apply Hsame].
    unfold App.tick. destruct (App.timeLeft s <=? 1).
    + destruct (App.endGame c s) as [s1|] eqn:Hend; [|done]. rewrite bind_Ok.
      apply Hsame. by apply (endGame_invariant c s s1).
    + by apply Hsame.
  - case_decide; [apply Hinit|by apply Hsame].
  - destruct (_ && _); [|by apply Hsame]. case_decide; [by apply Hsame|apply Hinit].
  - destruct (_ && _); [|by apply Hsame]. unfold App.handleThemeChange.
    case_decide; [by apply Hsame|]. destruct (_ || _); [by apply Hsame|apply Hloaded].
  - destruct (_ && _); by apply Hsame.
  - destruct (_ && _); [|by apply Hsame]. unfold App.handleCustomTopicSubmit.
    destruct (App.customTopic s); by apply Hsame.
  - destruct (App.generating s !! request) as [d|]; [|by apply Hsame].
    unfold App.wordsGenerated. apply Hloaded.
  - by apply Hsame.
  - case_decide; by apply Hsame.
Qed.

Lemma step_Ok s ev :
  stringify_parses -> session_invariant s -> history_is_array s ->
  exists s', App.step s ev = Ok s' /\ history_is_array s'.
Proof.
  intros Hlaw Hinv Harr.
  assert (Hinit : forall d cw s0, history_is_array s0 -> default DEFAULT_WORDS cw <> [] ->
            exists s', App.initGame d cw s0 = Ok s' /\ history_is_array s').
  { intros d cw s0 Hs0 Hne. rewrite initGame_Ok by done. eexists. split; [done|exact Hs0]. }
  assert (Hloaded : forall d g b s0, history_is_array s0 ->
            exists s', bind (App.initGameWith d g s0) (fun s2 => Ok (App.set_isLoading b s2)) = Ok s' /\
                       history_is_array s').
  { intros d g b s0 Hs0. unfold App.initGameWith.
    destruct (Hinit d (match g with [] => None | _ :: _ => Some g end) s0 Hs0) as (s2 & -> & Hs2);
      [by destruct g|].
    rewrite bind_Ok. eexists. split; [done|exact Hs2]. }
  destruct ev; cbn [App.step].
  - destruct (_ && _); [|eauto].
    destruct (handleInputChange_Ok val s Hinv) as [s' Hs'].
    exists s'. split; [done|].
    destruct (handleInputChange_invariant val s s' Hinv Hs') as (_ & Hls & Hh).
    unfold history_is_array. by rewrite Hls, Hh.
  - destruct (App.intervals s !! interval) as [c|]; [|eauto].
    unfold App.tick. destruct (App.timeLeft s <=? 1); [|eauto].
    destruct (endGame_Ok c s Hlaw Harr) as (s1 & -> & Hs1). rewrite bind_Ok. eauto.
  - case_decide; [|eauto]. by apply Hinit.
  - destruct (_ && _); [|eauto]. case_decide; [eauto|]. by apply Hinit.
  - destruct (_ && _); [|eauto]. unfold App.handleThemeChange.
    case_decide; [eauto|]. destruct (_ || _); [eauto|by apply Hloaded].
  - destruct (_ && _); eauto.
  - destruct (_ && _); [|eauto]. unfold App.handleCustomTopicSubmit.
    destruct (App.customTopic s); eauto.
  - destruct (App.generating s !! request) as [d|]; [|eauto].
    unfold App.wordsGenerated. by apply Hloaded.
  - eauto.
  - case_decide; [|eauto]. eexists. split; [done|].
    unfold history_is_array. state_simpl. split; [|eauto].
    unfold getItem_or. rewrite lookup_delete_eq. exists []. by vm_compute.
Qed.

Lemma mount_invariant storage s0 :
  App.mount storage = Ok s0 ->
  session_invariant s0 /\
  getScoreHistory storage = Ok (App.history s0) /\ App.localStorage s0 = storage.
Proof.
  unfold App.mount. destruct (getScoreHistory storage) as [h|]; [|done]. cbn [bind].
  intros Hinit. apply initGame_invariant in Hinit as (Hinv & Hls & Hh). by rewrite Hh, Hls.
Qed.

End SessionFacts.

(** C2: from the mounted component on, after any sequence of events the
    two counters add up to the cursor and the cursor is an index of the
    word sequence.  No handler throws on the way when the stored history
    is an array (or absent) and stays readable. *)
Theorem counters_track_cursor `{Runtime}
    (storage : Storage) (s0 : App.State) (evs : list App.Event) :
  App.mount storage = Ok s0 ->
  (forall s, App.run s0 evs = Ok s -> session_invariant s) /\
  (stringify_parses -> (exists entries, App.history s0 = VArray entries) ->
   exists s, App.run s0 evs = Ok s).
Proof.
  intros Hmount. apply mount_invariant in Hmount as (Hinv & Hhist & Hls). split.
  - clear Hhist Hls. revert s0 Hinv. induction evs as [|ev evs IH]; intros s0 Hinv s; cbn [App.run].
    + by intros [= <-].
    + destruct (App.step s0 ev) as [s1|] eqn:Hstep; [|done]. cbn [bind].
      apply IH. by apply (step_invariant s0 ev).
  - intros Hlaw [entries Hentries].
    assert (Harr : history_is_array s0).
    { split; [|eauto]. exists entries. rewrite Hls. unfold getScoreHistory in Hhist. congruence. }
    clear Hhist Hls Hentries. revert s0 Hinv Harr.
    induction evs as [|ev evs IH]; intros s0 Hinv Harr; cbn [App.run]; [eauto|].
    destruct (step_Ok s0 ev Hlaw Hinv Harr) as (s1 & Hstep & Harr1). rewrite Hstep. cbn [bind].
    apply IH; [by apply (step_invariant s0 ev)|done].
Qed.

(** ** The end of the game *)

Section FinalizeFacts.

Context `{Runtime}.
Implicit Types (s : App.State).

Lemma run_app s evs1 evs2 :
  App.run s (evs1 ++ evs2) = bind (App.run s evs1) (fun s' => App.run s' evs2).
Proof.
  revert s. induction evs1 as [|ev evs1 IH]; intros s; cbn [App.run app bind]; [done|].
  destruct (App.step s ev); cbn [bind]; [apply IH|done].
Qed.

Lemma set_timeLeft_id s : App.set_timeLeft (App.timeLeft s) s = s.
Proof. by destruct s. Qed.

(** While more than one second is left, the ticks only count down. *)
Lemma run_ticks n s i c :
  App.intervals s !! i = Some c ->
  App.timeLeft s = Z.of_nat n + 1 ->
  App.run s (replicate n (App.Tick i)) = Ok (App.set_timeLeft 1 s).
Proof.
  revert s. induction n as [|n IH]; intros s Hi Ht; cbn [replicate App.run].
  - change 1 with (Z.of_nat 0 + 1). by rewrite <- Ht, set_timeLeft_id.
  - cbn [App.step]. rewrite Hi. unfold App.tick.
    destruct (Z.leb_spec (App.timeLeft s) 1); [lia|]. cbn [bind].
    rewrite (IH (App.set_timeLeft (App.timeLeft s - 1) s)); [done|done|].
    cbn [App.timeLeft App.set_timeLeft]. lia.
Qed.

(** The tick at one second or less ends the game. *)
Lemma tick_finishes s i c entries stored :
  App.intervals s !! i = Some c ->
  App.timeLeft s <= 1 ->
  App.history s = VArray entries ->
  JSON_parse (getItem_or (js "typing_scores") (js "[]") (App.localStorage s)) = Ok (VArray stored) ->
  exists s', App.step s (App.Tick i) = Ok s' /\
    App.status s' = types.finished /\
    App.timeLeft s' = 0 /\
    App.history s' = VArray (entries ++ [ScoreEntry_value (finalScore c s)]) /\
    App.localStorage s' =
      <[js "typing_scores" :=
          JSON_stringify (VArray (drop (length (stored ++ [ScoreEntry_value (finalScore c s)]) - 100)
                                       (stored ++ [ScoreEntry_value (finalScore c s)])))]>
        (App.localStorage s) /\
    App.stats s' = {| types.wpm := types.wpm (types.base (finalScore c s));
                      types.accuracy := types.accuracy (types.base (finalScore c s));
                      types.correctWords := types.correctWords (App.stats s);
                      types.incorrectWords := types.incorrectWords (App.stats s);
                      types.totalKeystrokes := types.totalKeystrokes (App.stats s);
                      types.timeSpent := types.timeSpent (App.stats s) |} /\
    App.intervals s' = match App.timerRef s with
                       | Some (S t) => delete (S t) (App.intervals s)
                       | _ => App.intervals s
                       end /\
    App.words s' = App.words s /\ App.currentIndex s' = App.currentIndex s.
Proof.
  intros Hi Ht Hh Hst. cbn [App.step]. rewrite Hi. unfold App.tick.
  destruct (Z.leb_spec (App.timeLeft s) 1); [|lia].
  unfold App.endGame.
  set (s1 := match App.timerRef s with
             | Some (S t) => App.set_intervals (delete (S t) (App.intervals s)) s
             | _ => s
             end).
  assert (Hs1 : App.stats s1 = App.stats s /\ App.randomCalls s1 = App.randomCalls s /\
                App.nowCalls s1 = App.nowCalls s /\ App.localStorage s1 = App.localStorage s /\
                App.history s1 = App.history s /\ App.words s1 = App.words s /\
                App.currentIndex s1 = App.currentIndex s /\
                App.intervals s1 = match App.timerRef s with
                                   | Some (S t) => delete (S t) (App.intervals s)
                                   | _ => App.intervals s
                                   end)
    by (unfold s1; by destruct (App.timerRef s) as [[|t]|]).
  destruct Hs1 as (Hstats & Hrc & Hnc & Hls & Hhist & Hw & Hci & Hiv).
  state_simpl. rewrite Hstats, Hrc, Hnc, Hls, Hhist. fold (finalScore c s).
  unfold saveScore. rewrite Hst. cbn [bind]. rewrite Hh. cbn [App.spread bind].
  eexists. split; [reflexivity|]. state_simpl. by rewrite Hiv, Hw, Hci.
Qed.

End FinalizeFacts.

Section ScenarioFacts.

Context `{Runtime}.

Lemma no_interval_no_tick (s : App.State) (evs : list App.Event) :
  App.intervals s = ∅ ->
  Forall (fun ev => exists j, ev = App.Tick j) evs ->
  App.run s evs = Ok s.
Proof.
  intros Hnone Hall. induction Hall as [|ev evs [j ->] _ IH]; cbn [App.run]; [done|].
  cbn [App.step]. rewrite Hnone, lookup_empty. cbn [bind]. exact IH.
Qed.

Lemma shuffled_DEFAULT_WORDS_length k : length (fst (shuffled k DEFAULT_WORDS)) = 40%nat.
Proof. unfold shuffled. by rewrite shuffle_pass_length. Qed.

(** What [initGame] sets and what it leaves. *)
Lemma initGame_fields d customWords s s' :
  App.initGame d customWords s = Ok s' ->
  App.status s' = types.idle /\ App.currentIndex s' = 0%nat /\
  length (App.words s') = length (default DEFAULT_WORDS customWords) /\
  App.stats s' = App.zeroStats /\ App.inputValue s' = [] /\
  App.timeLeft s' = d /\ App.duration s' = App.duration s /\
  App.isLoading s' = App.isLoading s /\ App.selectedTopic s' = App.selectedTopic s /\
  App.customTopic s' = App.customTopic s /\ App.intervals s' = App.intervals s /\
  App.nextInterval s' = App.nextInterval s /\ App.timerRef s' = App.timerRef s /\
  App.history s' = App.history s /\ App.localStorage s' = App.localStorage s.
Proof.
  unfold App.initGame.
  replace (match customWords with Some ws => ws | None => DEFAULT_WORDS end)
    with (default DEFAULT_WORDS customWords) by (by destruct customWords).
  pose proof (shuffle_pass_length (length (default DEFAULT_WORDS customWords) - 1)
                (App.randomCalls s) (default DEFAULT_WORDS customWords)) as Hlen.
  fold (shuffled (App.randomCalls s) (default DEFAULT_WORDS customWords)) in Hlen.
  destruct (shuffled (App.randomCalls s) (default DEFAULT_WORDS customWords)) as [a k].
  cbn [fst] in Hlen. rewrite <- Hlen.
  destruct (App.pendingWord <$> a) as [|x l] eqn:Ha; [done|].
  intros Heq. apply Ok_inj in Heq. subst s'. state_simpl.
  rewrite length_alter, <- Ha, length_fmap. done.
Qed.

Lemma step_SelectDuration s t :
  App.status s <> types.finished -> t ∈ TIME_OPTIONS -> t <> App.duration s ->
  App.step s (App.SelectDuration t) = App.initGame t None (App.set_timeLeft t (App.set_duration t s)).
Proof.
  intros Hs Ht Hd. cbn [App.step].
  rewrite (bool_decide_true _ Hs), (bool_decide_true _ Ht). cbn [andb].
  by rewrite decide_False.
Qed.

(** The session after the first render and the choice of 15 seconds. *)
Lemma mount_configured storage s0 s1 :
  App.mount storage = Ok s0 ->
  App.step s0 (App.SelectDuration 15) = Ok s1 ->
  App.status s1 = types.idle /\ App.isLoading s1 = false /\
  App.currentIndex s1 = 0%nat /\ length (App.words s1) = 40%nat /\
  App.stats s1 = App.zeroStats /\ App.timeLeft s1 = 15 /\ App.duration s1 = 15 /\
  App.selectedTopic s1 = js "random" /\ App.intervals s1 = ∅ /\
  App.nextInterval s1 = 1%nat /\ App.history s1 = App.history s0 /\
  App.localStorage s1 = storage.
Proof.
  intros Hmount Hstep. unfold App.mount in Hmount.
  destruct (getScoreHistory storage) as [h|]; [|done]. rewrite bind_Ok in Hmount.
  apply initGame_fields in Hmount
    as (Hst & _ & _ & _ & _ & _ & Hdur & Hload & Htopic & _ & Hiv & Hnext & _ & Hh & Hls).
  state_simpl.
  rewrite step_SelectDuration in Hstep
    by first [by rewrite Hst | apply list_elem_of_here | by rewrite Hdur].
  apply initGame_fields in Hstep
    as (Hst1 & Hidx1 & Hlen1 & Hstats1 & _ & Htime1 & Hdur1 & Hload1 & Htopic1 & _ & Hiv1 &
        Hnext1 & _ & Hh1 & Hls1).
  state_simpl. cbn [default] in Hlen1. rewrite DEFAULT_WORDS_length in Hlen1.
  rewrite Hst1, Hidx1, Hlen1, Hstats1, Htime1, Hdur1, Hload1, Htopic1, Hiv1, Hnext1, Hh1, Hls1.
  rewrite Hload, Htopic, Hiv, Hnext, Hls. done.
Qed.

(** The score of [endGame] as the value that is stored. *)
Lemma finalScore_value (c : App.Closure) (s : App.State) :
  ScoreEntry_value (finalScore c s) =
    VObject [
      (js "id", VString (take 9 (drop 2 (Number_toString36 (Math_random (App.randomCalls s))))));
      (js "timestamp", VNumber (num (Date_now (App.nowCalls s))));
      (js "topic", VString (if decide (App.closed_selectedTopic c = js "custom")
                            then App.closed_customTopic c else App.closed_selectedTopic c));
      (js "wpm", VNumber (calculateWPM (num (Z.of_nat (types.correctWords (App.stats s))))
                                       (num (App.closed_duration c))));
      (js "accuracy",
         VNumber (calculateAccuracy (num (Z.of_nat (types.correctWords (App.stats s))))
                                    (num (Z.of_nat (types.incorrectWords (App.stats s))))));
      (js "correctWords", VNumber (num (Z.of_nat (types.correctWords (App.stats s)))));
      (js "incorrectWords", VNumber (num (Z.of_nat (types.incorrectWords (App.stats s)))));
      (js "totalKeystrokes", VNumber (num (Z.of_nat (types.totalKeystrokes (App.stats s)))));
      (js "timeSpent", VNumber (num (App.closed_duration c)))
    ].
Proof. reflexivity. Qed.

(** The word "the" typed at once, then 15 ticks, in a session that waits
    with 15 seconds and "the" as its first word. *)
Lemma typed_the_scenario s1 entries stored :
  App.status s1 = types.idle -> App.isLoading s1 = false ->
  App.currentIndex s1 = 0%nat -> (10 <= length (App.words s1))%nat ->
  App.stats s1 = App.zeroStats -> App.timeLeft s1 = 15 -> App.duration s1 = 15 ->
  App.selectedTopic s1 = js "random" -> App.intervals s1 = ∅ ->
  App.nextInterval s1 = 1%nat ->
  App.history s1 = VArray entries ->
  JSON_parse (getItem_or (js "typing_scores") (js "[]") (App.localStorage s1)) = Ok (VArray stored) ->
  (exists w, App.words s1 !! 0%nat = Some w /\ types.text w = js "the") ->
  exists s' id timestamp,
    App.run s1 (App.InputChange (js "the ") :: replicate 15 (App.Tick 1%nat)) = Ok s' /\
    App.status s' = types.finished /\
    App.history s' =
      VArray (entries ++ [VObject [
        (js "id", VString id);
        (js "timestamp", VNumber (num timestamp));
        (js "topic", VString (js "random"));
        (js "wpm", VNumber (num 4));
        (js "accuracy", VNumber (num 100));
        (js "correctWords", VNumber (num 1));
        (js "incorrectWords", VNumber (num 0));
        (js "totalKeystrokes", VNumber (num 4));
        (js "timeSpent", VNumber (num 15))]]) /\
    App.intervals s' = ∅.
Proof.
  intros Hstatus Hload Hidx Hlen Hstats Htime Hdur Htopic Hiv Hnext Hh Hst [w [Hw Hthe]].
  set (c := {| App.closed_duration := 15; App.closed_selectedTopic := js "random";
               App.closed_customTopic := App.customTopic s1 |}).
  assert (Hend : endsWith (js "the ") SPACE = true) by (by vm_compute).
  assert (Hcorrect : bool_decide (trim (js "the ") = types.text w) = true)
    by (rewrite Hthe; by vm_compute).
  assert (Hkeys : length (trim (js "the ")) = 3%nat) by (by vm_compute).
  rewrite <- Hidx in Hw.
  (* the word is typed *)
  assert (Hsubmit : exists s2, App.step s1 (App.InputChange (js "the ")) = Ok s2 /\
            App.intervals s2 = {[ 1%nat := c ]} /\ App.timerRef s2 = Some 1%nat /\
            App.timeLeft s2 = 15 /\ App.history s2 = VArray entries /\
            App.localStorage s2 = App.localStorage s1 /\
            types.correctWords (App.stats s2) = 1%nat /\
            types.incorrectWords (App.stats s2) = 0%nat /\
            types.totalKeystrokes (App.stats s2) = 4%nat).
  { rewrite step_InputChange by (done || by rewrite Hstatus).
    rewrite (handleInputChange_submit s1 _ w Hend Hw).
    rewrite decide_False by lia. eexists. split; [reflexivity|].
    unfold started. rewrite decide_True by done. state_simpl.
    by rewrite Hcorrect, Hkeys, Hstats, Hiv, Hnext, Htime, Hh, Hdur, Htopic, insert_empty. }
  destruct Hsubmit as (s2 & Hstep2 & Hiv2 & Href2 & Htime2 & Hh2 & Hls2 & Hcw & Hiw & Htk).
  cbn [App.run]. rewrite Hstep2. cbn [bind].
  (* 14 ticks count down *)
  change (replicate 15 (App.Tick 1%nat))
    with (replicate 14 (App.Tick 1%nat) ++ [App.Tick 1%nat]).
  rewrite run_app.
  rewrite (run_ticks 14 s2 1%nat c) by (by rewrite ?Hiv2, ?lookup_singleton_eq).
  cbn [bind App.run].
  (* the last tick *)
  destruct (tick_finishes (App.set_timeLeft 1 s2) 1%nat c entries stored)
    as (s' & Hlast & Hfin & _ & Hh' & _ & _ & Hiv' & _);
    [state_simpl; by rewrite Hiv2, lookup_singleton_eq|done|done|state_simpl; by rewrite Hls2|].
  rewrite Hlast. cbn [bind].
  exists s', (take 9 (drop 2 (Number_toString36 (Math_random (App.randomCalls s2))))),
    (Date_now (App.nowCalls s2)).
  split; [done|]. split; [done|]. split.
  - rewrite Hh', finalScore_value. state_simpl. rewrite Hcw, Hiw, Htk.
    repeat f_equal; by vm_compute.
  - state_simpl. by rewrite Hiv', Href2, Hiv2, delete_singleton_eq.
Qed.

End ScenarioFacts.

(** X20: the end of a game.  The ticks of a running interval count down
    while more than one second is left.  The interval that [startGame]
    sets holds on to the [duration] and the topic of the render in which
    the game was started.  The tick that finds one second or less ends
    the game: the status becomes [finished], and one score is added to
    the history and to the stored history, whose words per minute are
    those of the correct words over the duration that the ticking
    interval holds on to, whatever time has passed and whatever
    [duration] is configured by now, and whose accuracy is that of the
    two counters.  [endGame] clears the interval of [timerRef]: when
    the ticking interval is that one and the only one, no interval is
    left and no later tick does anything, so that the game is ended once.
    With 15 seconds chosen after the first render, the word "the" typed
    correctly and 15 ticks, the session is [finished], the score has 1
    correct word, 0 incorrect, 4 words per minute, accuracy 100 and 15
    seconds spent, and it is the only one added. *)
Theorem finalize_with_captured_duration `{Runtime} :
  (forall s i c, App.intervals s !! i = Some c -> 1 < App.timeLeft s ->
     App.step s (App.Tick i) = Ok (App.set_timeLeft (App.timeLeft s - 1) s)) /\
  (forall s,
     App.status (App.startGame s) = types.playing /\
     App.timerRef (App.startGame s) = Some (App.nextInterval s) /\
     App.intervals (App.startGame s) !! App.nextInterval s =
       Some {| App.closed_duration := App.duration s;
               App.closed_selectedTopic := App.selectedTopic s;
               App.closed_customTopic := App.customTopic s |}) /\
  (forall s i c entries stored,
     App.intervals s !! i = Some c ->
     App.timeLeft s <= 1 ->
     App.history s = VArray entries ->
     JSON_parse (getItem_or (js "typing_scores") (js "[]") (App.localStorage s)) = Ok (VArray stored) ->
     let finalWpm := calculateWPM (num (Z.of_nat (types.correctWords (App.stats s))))
                                  (num (App.closed_duration c)) in
     let finalAccuracy := calculateAccuracy (num (Z.of_nat (types.correctWords (App.stats s))))
                                            (num (Z.of_nat (types.incorrectWords (App.stats s)))) in
     let newScore := VObject [
       (js "id", VString (take 9 (drop 2 (Number_toString36 (Math_random (App.randomCalls s))))));
       (js "timestamp", VNumber (num (Date_now (App.nowCalls s))));
       (js "topic", VString (if decide (App.closed_selectedTopic c = js "custom")
                             then App.closed_customTopic c else App.closed_selectedTopic c));
       (js "wpm", VNumber finalWpm);
       (js "accuracy", VNumber finalAccuracy);
       (js "correctWords", VNumber (num (Z.of_nat (types.correctWords (App.stats s)))));
       (js "incorrectWords", VNumber (num (Z.of_nat (types.incorrectWords (App.stats s)))));
       (js "totalKeystrokes", VNumber (num (Z.of_nat (types.totalKeystrokes (App.stats s)))));
       (js "timeSpent", VNumber (num (App.closed_duration c)))] in
     exists s', App.step s (App.Tick i) = Ok s' /\
       App.status s' = types.finished /\
       App.timeLeft s' = 0 /\
       App.history s' = VArray (entries ++ [newScore]) /\
       App.localStorage s' =
         <[js "typing_scores" :=
             JSON_stringify (VArray (drop (length (stored ++ [newScore]) - 100)
                                          (stored ++ [newScore])))]> (App.localStorage s) /\
       types.wpm (App.stats s') = finalWpm /\
       types.accuracy (App.stats s') = finalAccuracy /\
       (App.intervals s = {[ i := c ]} -> App.timerRef s = Some i -> i <> 0%nat ->
        App.intervals s' = ∅ /\
        forall evs, Forall (fun ev => exists j, ev = App.Tick j) evs -> App.run s' evs = Ok s')) /\
  (forall storage s0 s1 entries,
     App.mount storage = Ok s0 ->
     App.history s0 = VArray entries ->
     App.step s0 (App.SelectDuration 15) = Ok s1 ->
     (exists w, App.words s1 !! 0%nat = Some w /\ types.text w = js "the") ->
     exists s' id timestamp,
       App.run s1 (App.InputChange (js "the ") :: replicate 15 (App.Tick 1%nat)) = Ok s' /\
       App.status s' = types.finished /\
       App.history s' =
         VArray (entries ++ [VObject [
           (js "id", VString id);
           (js "timestamp", VNumber (num timestamp));
           (js "topic", VString (js "random"));
           (js "wpm", VNumber (num 4));
           (js "accuracy", VNumber (num 100));
           (js "correctWords", VNumber (num 1));
           (js "incorrectWords", VNumber (num 0));
           (js "totalKeystrokes", VNumber (num 4));
           (js "timeSpent", VNumber (num 15))]]) /\
       App.intervals s' = ∅ /\
       forall evs, Forall (fun ev => exists j, ev = App.Tick j) evs -> App.run s' evs = Ok s').
Proof.
  split; [|split; [|split]].
  - intros s i c Hi Ht. cbn [App.step]. rewrite Hi. unfold App.tick.
    by destruct (Z.leb_spec (App.timeLeft s) 1); [lia|].
  - intros s. unfold App.startGame. state_simpl. by rewrite lookup_insert_eq.
  - intros s i c entries stored Hi Ht Hh Hst finalWpm finalAccuracy newScore.
    destruct (tick_finishes s i c entries stored Hi Ht Hh Hst)
      as (s' & Hstep & Hfin & Hzero & Hh' & Hls' & Hstats & Hiv' & _).
    rewrite finalScore_value in Hh', Hls'.
    exists s'. split; [exact Hstep|]. split; [exact Hfin|]. split; [exact Hzero|].
    split; [exact Hh'|]. split; [exact Hls'|]. rewrite Hstats.
    split; [reflexivity|]. split; [reflexivity|].
    intros Hiv Href Hi0.
    assert (Hnone : App.intervals s' = ∅).
    { rewrite Hiv', Href, Hiv. destruct i as [|i]; [done|]. apply delete_singleton_eq. }
    split; [exact Hnone|]. intros evs Hevs. by apply no_interval_no_tick.
  - intros storage s0 s1 entries Hmount Hentries Hstep Hthe.
    destruct (mount_configured storage s0 s1 Hmount Hstep)
      as (Hstatus & Hload & Hidx & Hlen & Hstats & Htime & Hdur & Htopic & Hiv & Hnext & Hh & Hls).
    apply mount_invariant in Hmount as (_ & Hstored & _).
    unfold getScoreHistory in Hstored. rewrite Hentries in Hstored.
    destruct (typed_the_scenario s1 entries entries) as (s' & id & timestamp & Hrun & Hfin & Hh' & Hnone);
      try done; [lia|by rewrite Hh|by rewrite Hls|].
    exists s', id, timestamp. split; [exact Hrun|]. split; [exact Hfin|]. split; [exact Hh'|].
    split; [exact Hnone|]. intros evs Hevs. by apply no_interval_no_tick.
Qed.

(** ** The stored history *)

(** C9, as the code has it: [getScoreHistory] is [JSON.parse] of the
    stored text, and of ["[]"] when nothing or the empty text is stored:
    it returns the stored history, the empty list when there is none, and
    it throws the [SyntaxError] of [JSON.parse] when the text is
    malformed. *)
Theorem getScoreHistory_parses_stored :
  (forall storage : Storage,
     getScoreHistory storage =
       match storage !! js "typing_scores" with
       | Some (c :: text) => JSON_parse (c :: text)
       | _ => Ok (VArray [])
       end) /\
  getScoreHistory ∅ = Ok (VArray []) /\
  getScoreHistory {[ js "typing_scores" := sample_stored ]} =
    Ok (VArray [VObject [(js "wpm", VNumber (num 4)); (js "topic", VString (js "random"))]]) /\
  getScoreHistory {[ js "typing_scores" := js "[{" ]} = Throw SyntaxError.
Proof.
  split; [|repeat split; by vm_compute].
  intros storage. unfold getScoreHistory, getItem_or.
  destruct (storage !! js "typing_scores") as [[|c text]|]; try done; by vm_compute.
Qed.

(** ** Where the code differs from the wording of a claim *)

(** C3 fails as stated: in the session that has submitted 30 of its 40
    words, the next submission moves the cursor to 31 with 9 words ahead
    of it, and no batch is appended. *)
Lemma extension_not_as_claimed : ~ @extension_as_claimed steady_runtime.
Proof.
  intros Hclaim.
  assert (Hstep : exists s', @App.step steady_runtime sample_after_30 (App.InputChange (js " ")) = Ok s' /\
            App.currentIndex s' = 31%nat /\ length (App.words s') = 40%nat).
  { eexists. split; [vm_compute; reflexivity|]. split; vm_compute; reflexivity. }
  destruct Hstep as (s' & Hstep & Hidx & Hlen).
  assert (H40 : length (App.words sample_after_30) = 40%nat) by (vm_compute; reflexivity).
  assert (Hstatus : App.status sample_after_30 <> types.finished) by (vm_compute; discriminate).
  assert (Hload : App.isLoading sample_after_30 = false) by (vm_compute; reflexivity).
  assert (Hend : endsWith (js " ") SPACE = true) by (vm_compute; reflexivity).
  pose proof (Hclaim sample_after_30 s' (js " ") Hstatus Hload Hend Hstep) as Hgrow.
  rewrite Hidx, H40 in Hgrow. lia.
Qed.

(** C9 fails as stated: with the truncated text "[{" stored, the parse
    failure is what [getScoreHistory] yields, and the first render, which
    loads the history, fails with it. *)
Lemma malformed_history_throws :
  ~ malformed_history_is_empty /\
  getScoreHistory {[ js "typing_scores" := js "[{" ]} = Throw SyntaxError /\
  @App.mount steady_runtime {[ js "typing_scores" := js "[{" ]} = Throw SyntaxError.
Proof.
  split; [|split; by vm_compute].
  intros Hclaim.
  specialize (Hclaim {[ js "typing_scores" := js "[{" ]} (js "[{")).
  rewrite lookup_singleton_eq in Hclaim.
  assert (Hthrow : getScoreHistory {[ js "typing_scores" := js "[{" ]} = Throw SyntaxError)
    by (by vm_compute).
  rewrite Hthrow in Hclaim. discriminate Hclaim; [done|by vm_compute].
Qed.

(** C5 fails as stated: with 23 correct words and 17 incorrect ones the
    exact accuracy is 57.5, which rounds to 58, but the code yields 57,
    because the binary64 product is just below 57.5. *)
Lemma accuracy_differs_from_exact_rounding :
  ~ statistics_as_claimed /\
  accuracy_exact 23 17 = 58 /\
  calculateAccuracy (num 23) (num 17) = num 57.
Proof.
  split; [|split; by vm_compute].
  intros Hclaim. destruct (Hclaim 23 40 17) as [_ Hacc]; try lia.
  revert Hacc. by vm_compute.
Qed.

(** C4: the code does not end every game once, nor with the configured
    duration: a timer that runs when the session is set back to [idle]
    is not cleared, and it keeps the [endGame] of the render in which it
    was started.  When the History button is pressed after the first
    letter and typing goes on, two timers run; the game that is
    [playing] is ended by a tick of the second, which [endGame] clears,
    and the next tick of the first ends it again: a second score is
    added.  When 15 seconds are chosen after the first letter and typing
    goes on, the game that is [playing] with [duration] 15 is ended by a
    tick of the first timer with a score of 1 word per minute and 60
    seconds spent for one correct word, where 15 seconds give 4, and
    the next tick of that timer adds a second score. *)
Theorem finalize_with_orphaned_timer :
  (@App.run steady_runtime sample_mounted
     ([App.InputChange (js "t"); App.ShowHistory; App.InputChange (js "the ")] ++
      concat (replicate 29 [App.Tick 1%nat; App.Tick 2%nat]) ++ [App.Tick 1%nat]) =
     Ok sample_resumed /\
   App.status sample_resumed = types.playing /\
   App.duration sample_resumed = 60 /\
   App.timeLeft sample_resumed = 1 /\
   App.history sample_resumed = VArray [] /\
   @App.step steady_runtime sample_resumed (App.Tick 2%nat) = Ok sample_resumed_end /\
   App.status sample_resumed_end = types.finished /\
   (exists first, App.history sample_resumed_end = VArray [first]) /\
   @App.step steady_runtime sample_resumed_end (App.Tick 1%nat) = Ok sample_resumed_again /\
   (exists first second, App.history sample_resumed_again = VArray [first; second])) /\
  (@App.run steady_runtime sample_mounted
     ([App.InputChange (js "t"); App.SelectDuration 15; App.InputChange (js "the ")] ++
      concat (replicate 7 [App.Tick 1%nat; App.Tick 2%nat])) = Ok sample_reconfigured /\
   App.status sample_reconfigured = types.playing /\
   App.duration sample_reconfigured = 15 /\
   App.timeLeft sample_reconfigured = 1 /\
   types.correctWords (App.stats sample_reconfigured) = 1%nat /\
   App.closed_duration <$> App.intervals sample_reconfigured !! 1%nat = Some 60 /\
   App.closed_duration <$> App.intervals sample_reconfigured !! 2%nat = Some 15 /\
   App.history sample_reconfigured = VArray [] /\
   @App.step steady_runtime sample_reconfigured (App.Tick 1%nat) = Ok sample_reconfigured_end /\
   App.status sample_reconfigured_end = types.finished /\
   App.history sample_reconfigured_end =
     VArray [VObject [
       (js "id", VString (js "4fzyo82mv"));
       (js "timestamp", VNumber (num 1700000000000));
       (js "topic", VString (js "random"));
       (js "wpm", VNumber (num 1));
       (js "accuracy", VNumber (num 100));
       (js "correctWords", VNumber (num 1));
       (js "incorrectWords", VNumber (num 0));
       (js "totalKeystrokes", VNumber (num 4));
       (js "timeSpent", VNumber (num 60))]] /\
   calculateWPM (num 1) (num 15) = num 4 /\
   @App.step steady_runtime sample_reconfigured_end (App.Tick 1%nat) =
     Ok sample_reconfigured_again /\
   (exists first second, App.history sample_reconfigured_again = VArray [first; second])).
Proof.
  split.
  - do 7 (split; [by vm_compute|]).
    split; [eexists; vm_compute; reflexivity|]. split; [by vm_compute|].
    eexists _, _. vm_compute. reflexivity.
  - do 13 (split; [by vm_compute|]).
    eexists _, _. vm_compute. reflexivity.
Qed.

(** ** The theorems at sample inputs *)

Lemma steady_in_range : @Math_random_in_range steady_runtime.
Proof. intros k. by vm_compute. Qed.

Lemma cycling_in_range : @Math_random_in_range cycling_runtime.
Proof.
  intros k. cbn [Math_random cycling_runtime runtime_of].
  pose proof (Nat.mod_upper_bound k 4 ltac:(lia)) as Hk.
  destruct (k mod 4)%nat as [|[|[|[|n]]]]; [by vm_compute..|lia].
Qed.

Lemma steady_stringify_parses : @stringify_parses steady_runtime.
Proof. intros l. exists []. by vm_compute. Qed.

Lemma submitDraft_classifies_witness :
  exists s', @App.step steady_runtime sample_mounted (App.InputChange (js "the ")) = Ok s' /\
    App.words s' !! 0%nat = Some {| types.text := js "the"; types.status := types.correct |} /\
    types.correctWords (App.stats s') = 1%nat /\
    types.incorrectWords (App.stats s') = 0%nat /\
    types.totalKeystrokes (App.stats s') = 4%nat /\
    App.currentIndex s' = 1%nat /\
    App.words s' !! 1%nat = Some {| types.text := js "quick"; types.status := types.active |} /\
    App.inputValue s' = [].
Proof.
  destruct (@submitDraft_classifies steady_runtime sample_mounted (js "the ")
              {| types.text := js "the"; types.status := types.active |})
    as (s' & Hstep & Hw & Hc & Hi & Hk & Hidx & Hnext & Hin);
    [vm_compute; discriminate|vm_compute; reflexivity|vm_compute; reflexivity|
     vm_compute; reflexivity|].
  exists s'. split; [exact Hstep|]. split; [exact Hw|]. split; [exact Hc|].
  split; [exact Hi|]. split; [exact Hk|]. split; [exact Hidx|].
  split; [|exact Hin].
  apply (Hnext {| types.text := js "quick"; types.status := types.pending |}).
  vm_compute. reflexivity.
Defined.

Lemma counters_track_cursor_witness :
  @App.mount steady_runtime ∅ = Ok sample_mounted /\
  (forall s, @App.run steady_runtime sample_mounted
               [App.InputChange (js "the "); App.Tick 1%nat; App.InputChange (js "quikc ")] = Ok s ->
             session_invariant s) /\
  exists s, @App.run steady_runtime sample_mounted
              [App.InputChange (js "the "); App.Tick 1%nat; App.InputChange (js "quikc ")] = Ok s.
Proof.
  assert (Hmount : @App.mount steady_runtime ∅ = Ok sample_mounted)
    by (vm_compute; reflexivity).
  split; [exact Hmount|].
  destruct (@counters_track_cursor steady_runtime ∅ sample_mounted
              [App.InputChange (js "the "); App.Tick 1%nat; App.InputChange (js "quikc ")] Hmount)
    as [Hinv Hrun].
  split; [exact Hinv|].
  apply Hrun; [exact steady_stringify_parses|]. exists []. vm_compute. reflexivity.
Defined.

Lemma stream_extension_witness :
  exists s', @App.step steady_runtime sample_after_30 (App.InputChange (js " ")) = Ok s' /\
    length (App.words s') = 40%nat.
Proof.
  destruct (@stream_extension steady_runtime sample_after_30 (js " ")
              {| types.text := js "design"; types.status := types.active |})
    as (s' & Hstep & _ & _ & Hkeep);
    [vm_compute; discriminate|vm_compute; reflexivity|vm_compute; reflexivity|
     vm_compute; reflexivity|].
  exists s'. split; [exact Hstep|]. apply Hkeep. vm_compute. lia.
Defined.

Lemma finalize_with_captured_duration_witness :
  exists s' id timestamp,
    @App.run steady_runtime sample_configured
      (App.InputChange (js "the ") :: replicate 15 (App.Tick 1%nat)) = Ok s' /\
    App.status s' = types.finished /\
    App.history s' =
      VArray ([] ++ [VObject [
        (js "id", VString id);
        (js "timestamp", VNumber (num timestamp));
        (js "topic", VString (js "random"));
        (js "wpm", VNumber (num 4));
        (js "accuracy", VNumber (num 100));
        (js "correctWords", VNumber (num 1));
        (js "incorrectWords", VNumber (num 0));
        (js "totalKeystrokes", VNumber (num 4));
        (js "timeSpent", VNumber (num 15))]]) /\
    App.intervals s' = ∅ /\
    forall evs, Forall (fun ev => exists j, ev = App.Tick j) evs ->
                @App.run steady_runtime s' evs = Ok s'.
Proof.
  apply (proj2 (proj2 (proj2 (@finalize_with_captured_duration steady_runtime)))
           ∅ sample_mounted sample_configured []).
  - vm_compute. reflexivity.
  - vm_compute. reflexivity.
  - vm_compute. reflexivity.
  - exists {| types.text := js "the"; types.status := types.active |}.
    split; vm_compute; reflexivity.
Defined.

Lemma statistics_in_binary64_witness :
  calculateWPM (num 30) (num 60) =
    Math_round (SFmul prec emax (SFdiv prec emax (num 30) (num 60)) (num 60)) /\
  calculateWPM (num 30) (num 0) = num 0 /\
  calculateAccuracy (num 0) (num 0) = num 0.
Proof.
  split; [|split].
  - apply (proj1 statistics_in_binary64 30 60); lia.
  - apply (proj1 (proj2 statistics_in_binary64) 30 0). lia.
  - apply (proj1 (proj2 (proj2 statistics_in_binary64)) 0 0); lia.
Defined.

Lemma draft_update_bounded_witness :
  (exists s', @App.step steady_runtime sample_mounted (App.InputChange (js "thexyz")) = Ok s' /\
     App.inputValue s' = js "thexyz" /\ App.currentIndex s' = 0%nat) /\
  (exists s', @App.step steady_runtime sample_mounted (App.InputChange (js "thexyzw")) = Ok s' /\
     App.inputValue s' = [] /\ App.currentIndex s' = 0%nat).
Proof.
  split.
  - destruct (@draft_update_bounded steady_runtime sample_mounted (js "thexyz")
                {| types.text := js "the"; types.status := types.active |})
      as (s' & Hstep & Hyes & _ & _ & Hidx & _);
      [vm_compute; discriminate|vm_compute; reflexivity|vm_compute; reflexivity|
       vm_compute; reflexivity|].
    exists s'. split; [exact Hstep|]. split; [|exact Hidx]. apply Hyes. vm_compute. lia.
  - destruct (@draft_update_bounded steady_runtime sample_mounted (js "thexyzw")
                {| types.text := js "the"; types.status := types.active |})
      as (s' & Hstep & _ & Hno & _ & Hidx & _);
      [vm_compute; discriminate|vm_compute; reflexivity|vm_compute; reflexivity|
       vm_compute; reflexivity|].
    exists s'. split; [exact Hstep|]. split; [|exact Hidx]. apply Hno. vm_compute. lia.
Defined.

Lemma shuffleArray_permutation_witness :
  exists newArray h' a',
    @shuffleArray cycling_runtime nat 1%positive 0%nat {[ 1%positive := [10; 20; 30; 40]%nat ]} =
      Some (newArray, h', 3%nat) /\
    h' !! newArray = Some a' /\
    a' ≡ₚ [10; 20; 30; 40]%nat /\
    FisherYates (fun i => @random_index cycling_runtime (0 + (3 - i)) i) 3
      [10; 20; 30; 40]%nat a'.
Proof.
  apply (@shuffleArray_permutation cycling_runtime nat 1%positive 0%nat
           {[ 1%positive := [10; 20; 30; 40]%nat ]} [10; 20; 30; 40]%nat).
  - exact cycling_in_range.
  - vm_compute. reflexivity.
  - vm_compute. reflexivity.
Defined.

Lemma shuffleArray_frame_witness :
  exists newArray h' k',
    @shuffleArray cycling_runtime nat 1%positive 0%nat {[ 1%positive := [10; 20; 30; 40]%nat ]} =
      Some (newArray, h', k') /\
    ({[ 1%positive := [10; 20; 30; 40]%nat ]} : gmap positive (list nat)) !! newArray = None /\
    newArray <> 1%positive /\
    h' !! 1%positive = Some [10; 20; 30; 40]%nat /\
    forall l, l <> newArray ->
      h' !! l = ({[ 1%positive := [10; 20; 30; 40]%nat ]} : gmap positive (list nat)) !! l.
Proof.
  apply (@shuffleArray_frame cycling_runtime nat 1%positive 0%nat
           {[ 1%positive := [10; 20; 30; 40]%nat ]} [10; 20; 30; 40]%nat).
  vm_compute. reflexivity.
Defined.

(** * Further properties of the code *)

(** ** The stored history: [saveScore] *)

Section SliceFacts.

Context {A : Type}.
Implicit Types (l : list A).

(** [l.slice(-n)]: the last [n] elements, all of them when there are
    fewer. *)
Lemma slice_last_suffix n l : drop (length l - n) l `suffix_of` l.
Proof. apply suffix_drop. Qed.

Lemma slice_last_length n l : length (drop (length l - n) l) = (length l `min` n)%nat.
Proof. rewrite length_drop. lia. Qed.

Lemma slice_last_snoc n l x :
  drop (length (l ++ [x]) - S n) (l ++ [x]) = drop (length l - n) l ++ [x].
Proof.
  rewrite length_app. cbn [length].
  replace (length l + 1 - S n)%nat with (length l - n)%nat by lia.
  rewrite drop_app_le by lia. done.
Qed.

End SliceFacts.

(** X1: when the stored history reads as an array, [saveScore] stores the
    text of the last 100 entries of that array with the new score pushed:
    the new score is the last entry, the entries before it keep their
    order, the oldest ones are dropped once there are more than 100, and
    no other key of the storage changes. *)
Theorem saveScore_keeps_last_100 `{Runtime}
    (score : jsvalue) (storage : Storage) (entries : list jsvalue) :
  getScoreHistory storage = Ok (VArray entries) ->
  exists kept,
    saveScore score storage =
      Ok (<[js "typing_scores" := JSON_stringify (VArray kept)]> storage) /\
    kept = drop (length entries - 99) entries ++ [score] /\
    kept `suffix_of` entries ++ [score] /\
    length kept = ((length entries + 1) `min` 100)%nat /\
    last kept = Some score /\
    ((length entries < 100)%nat -> kept = entries ++ [score]).
Proof.
  intros Hstored. unfold getScoreHistory in Hstored.
  exists (drop (length entries - 99) entries ++ [score]).
  split; [|split; [done|split; [|split; [|split]]]].
  - unfold saveScore. rewrite Hstored, bind_Ok.
    by rewrite (slice_last_snoc 99 entries score).
  - apply suffix_app, suffix_drop.
  - rewrite length_app, length_drop. cbn [length]. lia.
  - by rewrite last_snoc.
  - intros Hlt. replace (length entries - 99)%nat with 0%nat by lia. done.
Qed.

(** X2: when the stored history does not read as an array, [saveScore]
    throws and stores nothing: the [SyntaxError] of [JSON.parse] for a
    malformed text, a [TypeError] for a value without [push].  The tick
    that ends the game then throws the same, so the game does not reach
    [finished]. *)
Theorem saveScore_throws_on_unreadable_history `{Runtime}
    (score : jsvalue) (storage : Storage) (r : result jsvalue) :
  getScoreHistory storage = r ->
  (forall l, r <> Ok (VArray l)) ->
  let thrown := match r with
                | Throw e => e
                | Ok _ => TypeError
                end in
  saveScore score storage = Throw thrown /\
  forall (s : App.State) (i : nat) (c : App.Closure),
    App.localStorage s = storage ->
    App.intervals s !! i = Some c -> App.timeLeft s <= 1 ->
    App.step s (App.Tick i) = Throw thrown.
Proof.
  intros Hr Hno thrown. unfold getScoreHistory in Hr.
  assert (Hsave : forall v, saveScore v storage = Throw thrown).
  { intros v. unfold saveScore. rewrite Hr. unfold thrown.
    destruct r as [[]|e]; try done. by destruct (Hno elements). }
  split; [apply Hsave|].
  intros s i c Hls Hi Ht. cbn [App.step]. rewrite Hi. unfold App.tick.
  destruct (Z.leb_spec (App.timeLeft s) 1); [|lia].
  unfold App.endGame.
  assert (Hframe : App.localStorage
            (App.set_nowCalls (S (App.nowCalls (App.set_status types.finished
               match App.timerRef s with
               | Some (S t) => App.set_intervals (delete (S t) (App.intervals s)) s
               | _ => s
               end)))
            (App.set_randomCalls (S (App.randomCalls (App.set_status types.finished
               match App.timerRef s with
               | Some (S t) => App.set_intervals (delete (S t) (App.intervals s)) s
               | _ => s
               end)))
            (App.set_status types.finished
               match App.timerRef s with
               | Some (S t) => App.set_intervals (delete (S t) (App.intervals s)) s
               | _ => s
               end))) = storage)
    by (by destruct (App.timerRef s) as [[|t]|]).
  rewrite Hframe, Hsave. done.
Qed.

(** X3: what [saveScore] stores, [getScoreHistory] reads back: when the
    text [JSON.stringify] prints of the kept entries parses to them, the
    history read after [saveScore] is the last 100 of the history read
    before it with the score pushed. *)
Theorem getScoreHistory_after_saveScore `{Runtime}
    (score : jsvalue) (storage storage' : Storage) (entries : list jsvalue) :
  getScoreHistory storage = Ok (VArray entries) ->
  saveScore score storage = Ok storage' ->
  JSON_parse (JSON_stringify (VArray (drop (length entries - 99) entries ++ [score]))) =
    Ok (VArray (drop (length entries - 99) entries ++ [score])) ->
  getScoreHistory storage' = Ok (VArray (drop (length entries - 99) entries ++ [score])).
Proof.
  intros Hstored Hsave Hlaw. unfold getScoreHistory in *.
  unfold saveScore in Hsave. rewrite Hstored, bind_Ok in Hsave.
  apply Ok_inj in Hsave. subst storage'.
  rewrite (slice_last_snoc 99 entries score).
  unfold getItem_or. rewrite lookup_insert_eq.
  destruct (JSON_stringify _) as [|c text] eqn:Hstr; [|done].
  revert Hlaw. by vm_compute.
Qed.

(** ** The display of the active word *)

Section DisplayFacts.

Implicit Types (target draft : jsstring).

Lemma commonPrefixLength_le_target target draft :
  (commonPrefixLength target draft <= length target)%nat.
Proof.
  revert draft. induction target as [|c t IH]; intros [|d r]; simpl; try lia.
  case_bool_decide; [|lia]. specialize (IH r). lia.
Qed.

Lemma commonPrefixLength_take target draft :
  take (commonPrefixLength target draft) draft = take (commonPrefixLength target draft) target.
Proof.
  revert draft. induction target as [|c t IH]; intros [|d r]; simpl; try done.
  case_bool_decide; [|done]. subst d. simpl. by rewrite IH.
Qed.

Lemma commonPrefixLength_prefix target rest :
  commonPrefixLength target (target ++ rest) = length target.
Proof.
  induction target as [|c t IH]; simpl; [done|].
  rewrite bool_decide_true by done. by rewrite IH.
Qed.

End DisplayFacts.

(** X16: whatever is typed, the active word is displayed whole: the
    matched part followed by the remaining part is the text of the word.
    The matched part is a prefix of what is typed, and nothing remains
    exactly when what is typed begins with the whole word. *)
Theorem matchPart_remainingPart_whole (wordText typed : jsstring) :
  App.matchPart wordText typed ++ App.remainingPart wordText typed = wordText /\
  App.matchPart wordText typed `prefix_of` typed /\
  (App.remainingPart wordText typed = [] <-> wordText `prefix_of` typed).
Proof.
  pose proof (commonPrefixLength_le_draft wordText typed) as Hd.
  pose proof (commonPrefixLength_le_target wordText typed) as Ht.
  assert (Hlen : length (App.matchPart wordText typed) = commonPrefixLength wordText typed).
  { rewrite matchPart_take, length_take. lia. }
  split; [|split].
  - unfold App.remainingPart. rewrite Hlen, matchPart_take, commonPrefixLength_take.
    apply take_drop.
  - rewrite matchPart_take. apply prefix_take.
  - unfold App.remainingPart. rewrite Hlen. split.
    + intros Hnil. apply drop_nil_inv in Hnil.
      assert (Hfull : commonPrefixLength wordText typed = length wordText) by lia.
      exists (drop (length wordText) typed).
      rewrite <- (take_drop (length wordText) typed) at 1. f_equal.
      rewrite <- Hfull at 1. rewrite commonPrefixLength_take, Hfull. apply firstn_all.
    + intros [rest ->]. rewrite commonPrefixLength_prefix. apply drop_all.
Qed.

(** ** Typing a word exactly *)

Section TrimFacts.

Implicit Types (s m ws : jsstring).

Lemma trimStart_white ws m :
  Forall (fun c => is_white_space c = true) ws -> clean_start m -> trimStart (ws ++ m) = m.
Proof.
  intros Hws Hm. induction Hws as [|c ws Hc _ IH]; simpl.
  - destruct m as [|d m]; [done|]. simpl in *. by rewrite Hm.
  - by rewrite Hc.
Qed.

Lemma trimStart_split s :
  exists ws, Forall (fun c => is_white_space c = true) ws /\
             s = ws ++ trimStart s /\ clean_start (trimStart s).
Proof.
  induction s as [|c s (ws & Hws & Hs & Hclean)]; simpl.
  - by exists [].
  - destruct (is_white_space c) eqn:Hc.
    + exists (c :: ws). split; [by constructor|]. split; [simpl; congruence|done].
    + exists []. split; [done|]. split; [done|]. simpl. done.
Qed.

Lemma trimEnd_white m ws :
  Forall (fun c => is_white_space c = true) ws -> clean_start (reverse m) ->
  trimEnd (m ++ ws) = m.
Proof.
  intros Hws Hm. unfold trimEnd. rewrite reverse_app.
  rewrite trimStart_white; [apply reverse_involutive| |done].
  by apply Forall_reverse.
Qed.

(** [trim] yields the middle of a text between two runs of white space,
    when the middle has no white space at either end. *)
Lemma trim_middle ws1 m ws2 :
  Forall (fun c => is_white_space c = true) ws1 ->
  Forall (fun c => is_white_space c = true) ws2 ->
  clean_start m -> clean_start (reverse m) ->
  trim (ws1 ++ m ++ ws2) = m.
Proof.
  intros H1 H2 Hs He. unfold trim.
  destruct m as [|c m].
  - simpl. rewrite <- (app_nil_r (ws1 ++ ws2)).
    rewrite trimStart_white; [done| |done]. by apply Forall_app.
  - rewrite trimStart_white; [|done|done]. by apply trimEnd_white.
Qed.

Lemma trim_split s :
  exists ws1 ws2,
    Forall (fun c => is_white_space c = true) ws1 /\
    Forall (fun c => is_white_space c = true) ws2 /\
    s = ws1 ++ trim s ++ ws2 /\
    clean_start (trim s) /\ clean_start (reverse (trim s)).
Proof.
  destruct (trimStart_split s) as (ws1 & H1 & Hs & Hclean).
  destruct (trimStart_split (reverse (trimStart s))) as (ws2 & H2 & Hr & Hclean2).
  exists ws1, (reverse ws2). unfold trim, trimEnd.
  split; [done|]. split; [by apply Forall_reverse|].
  assert (Hx : trimStart s = reverse (trimStart (reverse (trimStart s))) ++ reverse ws2).
  { rewrite <- reverse_app, <- Hr. by rewrite reverse_involutive. }
  split; [by rewrite <- Hx|]. split; [|by rewrite reverse_involutive].
  destruct (reverse (trimStart (reverse (trimStart s)))) as [|c m] eqn:Hm; [done|].
  rewrite Hx in Hclean. exact Hclean.
Qed.

(** White space typed after a text does not change what [trim] yields. *)
Lemma trim_app_white s ws :
  Forall (fun c => is_white_space c = true) ws -> trim (s ++ ws) = trim s.
Proof.
  intros Hws. destruct (trim_split s) as (ws1 & ws2 & H1 & H2 & Hs & Hc1 & Hc2).
  rewrite Hs at 1. rewrite <- !(assoc_L (++)).
  apply trim_middle; try done. by apply Forall_app.
Qed.

Lemma trim_idempotent s : trim (trim s) = trim s.
Proof.
  destruct (trim_split s) as (ws1 & ws2 & H1 & H2 & Hs & Hc1 & Hc2).
  rewrite <- (app_nil_r (trim s)) at 1. by apply (trim_middle []).
Qed.

Lemma endsWith_app s t : endsWith (s ++ t) t = true.
Proof.
  unfold endsWith. apply bool_decide_eq_true.
  rewrite length_app. replace (length s + length t - length t)%nat with (length s) by lia.
  by rewrite drop_app_length.
Qed.

End TrimFacts.

Section ExactWordFacts.

Context `{Runtime}.

(** The word at the cursor after a submission. *)
Lemma handleInputChange_classifies (s s' : App.State) val w :
  endsWith val SPACE = true ->
  App.words s !! App.currentIndex s = Some w ->
  App.handleInputChange val s = Ok s' ->
  App.words s' !! App.currentIndex s =
    Some (App.setWordStatus
            (if bool_decide (trim val = types.text w) then types.correct else types.incorrect) w) /\
  types.correctWords (App.stats s') =
    (if bool_decide (trim val = types.text w)
     then types.correctWords (App.stats s) + 1 else types.correctWords (App.stats s))%nat /\
  types.incorrectWords (App.stats s') =
    (if bool_decide (trim val = types.text w)
     then types.incorrectWords (App.stats s) else types.incorrectWords (App.stats s) + 1)%nat.
Proof.
  intros Hend Hw. rewrite (handleInputChange_submit s val w Hend Hw).
  pose proof (marked_current (bool_decide (trim val = types.text w)) s w Hw) as Hcur.
  destruct (decide (length (App.words s) < App.currentIndex s + 10)%nat);
    intros Heq; apply Ok_inj in Heq; subst s'; state_simpl.
  - rewrite lookup_app_l by (rewrite marked_length; by eapply lookup_lt_Some). done.
  - done.
Qed.

End ExactWordFacts.

(** X6: a word is typed correctly by typing its text and a space,
    provided the text has no white space at its ends ([trim] leaves it as
    it is): the word at the cursor becomes [correct] and the count of
    correct words grows by one.  A word whose text [trim] would change
    cannot be typed correctly: every submission marks it [incorrect]. *)
Theorem exact_word_is_correct `{Runtime}
    (s : App.State) (w : types.WordObject) (val : jsstring) :
  App.status s <> types.finished -> App.isLoading s = false ->
  App.words s !! App.currentIndex s = Some w ->
  endsWith val SPACE = true ->
  exists s', App.step s (App.InputChange val) = Ok s' /\
    (val = types.text w ++ SPACE -> trim (types.text w) = types.text w ->
       App.words s' !! App.currentIndex s = Some (App.setWordStatus types.correct w) /\
       types.correctWords (App.stats s') = (types.correctWords (App.stats s) + 1)%nat /\
       types.incorrectWords (App.stats s') = types.incorrectWords (App.stats s)) /\
    (trim (types.text w) <> types.text w ->
       App.words s' !! App.currentIndex s = Some (App.setWordStatus types.incorrect w) /\
       types.correctWords (App.stats s') = types.correctWords (App.stats s) /\
       types.incorrectWords (App.stats s') = (types.incorrectWords (App.stats s) + 1)%nat).
Proof.
  intros Hstatus Hload Hw Hend. rewrite step_InputChange by done.
  assert (Hok : exists s', App.handleInputChange val s = Ok s').
  { rewrite (handleInputChange_submit s val w Hend Hw).
    destruct (decide (length (App.words s) < App.currentIndex s + 10)%nat); eauto. }
  destruct Hok as [s' Hs']. exists s'. split; [done|].
  pose proof (handleInputChange_classifies s s' val w Hend Hw Hs') as Hcls.
  split.
  - intros -> Hclean.
    assert (Htrim : trim (types.text w ++ SPACE) = types.text w).
    { rewrite trim_app_white; [done|]. repeat constructor. }
    by rewrite bool_decide_true in Hcls by done.
  - intros Hdirty.
    assert (Hne : trim val <> types.text w).
    { intros Heq. apply Hdirty. rewrite <- Heq. apply trim_idempotent. }
    by rewrite bool_decide_false in Hcls by done.
Qed.

(** ** A fresh session: [initGame] *)

Section InitFacts.

Context `{Runtime}.
Implicit Types (s : App.State).

Lemma shuffled_Permutation {T} k (a : list T) : fst (shuffled k a) ≡ₚ a.
Proof. apply shuffle_pass_Permutation. Qed.

Lemma shuffled_length {T} k (a : list T) : length (fst (shuffled k a)) = length a.
Proof. apply shuffle_pass_length. Qed.

Lemma shuffled_calls {T} k (a : list T) : snd (shuffled k a) = (k + (length a - 1))%nat.
Proof. apply shuffle_pass_calls. Qed.

(** The words [initGame] makes of a shuffled list. *)
Lemma fresh_words_texts (a : list jsstring) :
  types.text <$> alter (App.setWordStatus types.active) 0%nat (App.pendingWord <$> a) = a.
Proof.
  destruct a as [|x a]; [done|]. simpl. f_equal.
  rewrite <- list_fmap_compose. apply list_fmap_id.
Qed.

Lemma fresh_words_statuses (a : list jsstring) :
  a <> [] ->
  types.status <$> alter (App.setWordStatus types.active) 0%nat (App.pendingWord <$> a) =
    types.active :: replicate (length a - 1) types.pending.
Proof.
  destruct a as [|x a]; [done|]. intros _. simpl. f_equal.
  rewrite Nat.sub_0_r.
  induction a as [|y a IH]; simpl; [done|]. by rewrite IH.
Qed.

End InitFacts.

(** X4: [initGame] on a list of words that is not empty (the default
    words when it is given none) makes a fresh session: the words are
    those of the list in a shuffled order, the first is [active] and the
    others are [pending], the cursor, the draft and the statistics are
    reset, the clock shows the duration [initGame] closed over and the
    status is [idle].  It draws one random number less than there are
    words.  It does not stop an interval that runs, and it leaves the
    duration, the history and the storage as they are.  On an empty list
    it throws a [TypeError], for the first word there is none. *)
Theorem initGame_fresh_session `{Runtime}
    (d : Z) (customWords : option (list jsstring)) (s : App.State) :
  default DEFAULT_WORDS customWords <> [] ->
  App.initGame d (Some []) s = Throw TypeError /\
  exists s', App.initGame d customWords s = Ok s' /\
    types.text <$> App.words s' ≡ₚ default DEFAULT_WORDS customWords /\
    types.status <$> App.words s' =
      types.active :: replicate (length (default DEFAULT_WORDS customWords) - 1) types.pending /\
    App.currentIndex s' = 0%nat /\ App.inputValue s' = [] /\
    App.stats s' = App.zeroStats /\
    App.timeLeft s' = d /\ App.status s' = types.idle /\
    App.randomCalls s' =
      (App.randomCalls s + (length (default DEFAULT_WORDS customWords) - 1))%nat /\
    App.intervals s' = App.intervals s /\ App.timerRef s' = App.timerRef s /\
    App.duration s' = App.duration s /\
    App.history s' = App.history s /\ App.localStorage s' = App.localStorage s.
Proof.
  intros Hne. split; [done|].
  rewrite initGame_Ok by done. eexists. split; [reflexivity|]. state_simpl.
  rewrite fresh_words_texts, shuffled_calls.
  rewrite fresh_words_statuses, shuffled_length.
  - repeat split; try done. apply shuffled_Permutation.
  - intros Hnil. apply Hne. apply length_zero_iff_nil.
    rewrite <- (shuffled_length (App.randomCalls s)). by rewrite Hnil.
Qed.

(** X5: when an awaited word generation answers, the session is made
    afresh from the words of the answer, and from the default words when
    the answer is empty (as it is when the generation failed): the handler
    does not throw, the words are those in a shuffled order, the loading
    flag is off, the clock shows the duration of the render that asked,
    and the request is no longer awaited. *)
Theorem generated_words_start_session `{Runtime}
    (s : App.State) (request : nat) (d : Z) (newWords : list jsstring) :
  App.generating s !! request = Some d ->
  exists s', App.step s (App.Generated request newWords) = Ok s' /\
    types.text <$> App.words s' ≡ₚ
      match newWords with
      | [] => DEFAULT_WORDS
      | _ :: _ => newWords
      end /\
    App.isLoading s' = false /\
    App.generating s' = delete request (App.generating s) /\
    App.timeLeft s' = d /\ App.status s' = types.idle /\
    App.currentIndex s' = 0%nat /\ App.inputValue s' = [] /\
    App.stats s' = App.zeroStats.
Proof.
  intros Hreq. cbn [App.step]. rewrite Hreq.
  unfold App.wordsGenerated, App.initGameWith.
  set (cw := match newWords with [] => None | _ :: _ => Some newWords end).
  assert (Hbase : default DEFAULT_WORDS cw =
                   match newWords with [] => DEFAULT_WORDS | _ :: _ => newWords end)
    by (by destruct newWords).
  assert (Hne : default DEFAULT_WORDS cw <> []) by (rewrite Hbase; by destruct newWords).
  rewrite initGame_Ok, bind_Ok by done. eexists. split; [reflexivity|]. state_simpl.
  rewrite fresh_words_texts, <- Hbase. repeat split; try done. apply shuffled_Permutation.
Qed.

(** ** What one event does to the session *)

(** An event that leaves the session as it is. *)
Ltac same_case :=
  let Heq := fresh "Heq" in
  intros Heq; apply Ok_inj in Heq; subst; left; by repeat split.

Section StepFacts.

Context `{Runtime}.
Implicit Types (s : App.State).

Lemma same_session_refl s : same_session s s.
Proof. by repeat split. Qed.

Lemma endGame_same_session c s s' : App.endGame c s = Ok s' -> same_session s s'.
Proof.
  unfold App.endGame.
  destruct (saveScore _ _) as [stored|]; [|done]. rewrite bind_Ok.
  destruct (App.spread _) as [prevHist|]; [|done]. rewrite bind_Ok.
  intros Heq. apply Ok_inj in Heq. subst s'. unfold same_session.
  destruct (App.timerRef s) as [[|t]|]; state_simpl; done.
Qed.

Lemma tick_same_session c s s' : App.tick c s = Ok s' -> same_session s s'.
Proof.
  unfold App.tick. destruct (App.timeLeft s <=? 1).
  - destruct (App.endGame c s) as [s1|] eqn:Hend; [|done]. rewrite bind_Ok.
    intros Heq. apply Ok_inj in Heq. subst s'.
    apply endGame_same_session in Hend. exact Hend.
  - intros Heq. apply Ok_inj in Heq. subst s'. by repeat split.
Qed.

(** An event leaves the session as it is, or makes it afresh with
    [initGame], or is an input that [handleInputChange] handles. *)
Lemma step_session s ev s' :
  App.step s ev = Ok s' ->
  same_session s s' \/
  (exists d cw s0 s1, App.initGame d cw s0 = Ok s1 /\
     App.words s' = App.words s1 /\ App.currentIndex s' = App.currentIndex s1 /\
     App.inputValue s' = App.inputValue s1 /\ App.stats s' = App.stats s1) \/
  (exists val, ev = App.InputChange val /\ App.handleInputChange val s = Ok s').
Proof.
  assert (Hinit : forall d cw s0, App.initGame d cw s0 = Ok s' ->
            exists d cw s0 s1, App.initGame d cw s0 = Ok s1 /\
              App.words s' = App.words s1 /\ App.currentIndex s' = App.currentIndex s1 /\
              App.inputValue s' = App.inputValue s1 /\ App.stats s' = App.stats s1)
    by (intros d cw s0 Hs0; by exists d, cw, s0, s').
  assert (Hloaded : forall d g b s0,
            bind (App.initGameWith d g s0) (fun s2 => Ok (App.set_isLoading b s2)) = Ok s' ->
            exists d cw s0 s1, App.initGame d cw s0 = Ok s1 /\
              App.words s' = App.words s1 /\ App.currentIndex s' = App.currentIndex s1 /\
              App.inputValue s' = App.inputValue s1 /\ App.stats s' = App.stats s1).
  { intros d g b s0. unfold App.initGameWith.
    destruct (App.initGame d _ s0) as [s2|] eqn:Hs2; [|done]. rewrite bind_Ok.
    intros Heq. apply Ok_inj in Heq. subst s'. by eexists d, _, s0, s2. }
  destruct ev; cbn [App.step].
  - destruct (_ && _); [|same_case]. right. right. by exists val.
  - destruct (App.intervals s !! interval) as [c|]; [|same_case].
    intros Htick. left. by apply (tick_same_session c).
  - case_decide; [intros Hi; right; left; by eapply Hinit|same_case].
  - destruct (_ && _); [|same_case].
    case_decide; [same_case|intros Hi; right; left; by eapply Hinit].
  - destruct (_ && _); [|same_case]. unfold App.handleThemeChange.
    case_decide; [same_case|].
    destruct (_ || _); [same_case|intros Hi; right; left; by eapply Hloaded].
  - destruct (_ && _); same_case.
  - destruct (_ && _); [|same_case]. unfold App.handleCustomTopicSubmit.
    destruct (App.customTopic s); same_case.
  - destruct (App.generating s !! request) as [d|]; [|same_case].
    unfold App.wordsGenerated. intros Hi. right. left. by eapply Hloaded.
  - same_case.
  - case_decide; same_case.
Qed.

(** A property of the session that [initGame] establishes and
    [handleInputChange] keeps holds after every sequence of events. *)
Lemma run_session (P : App.State -> Prop) :
  (forall s s', same_session s s' -> P s -> P s') ->
  (forall s s', App.words s' = App.words s -> App.currentIndex s' = App.currentIndex s ->
                App.inputValue s' = App.inputValue s -> App.stats s' = App.stats s ->
                P s -> P s') ->
  (forall d cw s s', App.initGame d cw s = Ok s' -> P s') ->
  (forall val s s', P s -> App.handleInputChange val s = Ok s' -> P s') ->
  forall storage s0 evs s,
    App.mount storage = Ok s0 -> App.run s0 evs = Ok s -> P s.
Proof.
  intros Hsame Hcopy Hinit Hinput storage s0 evs s Hmount.
  assert (H0 : P s0).
  { unfold App.mount in Hmount. destruct (getScoreHistory storage) as [h|]; [|done].
    rewrite bind_Ok in Hmount. by eapply Hinit. }
  clear Hmount. revert s0 H0. induction evs as [|ev evs IH]; intros s0 H0; cbn [App.run].
  - intros Heq. apply Ok_inj in Heq. by subst.
  - destruct (App.step s0 ev) as [s1|] eqn:Hstep; [|done]. rewrite bind_Ok.
    apply IH. destruct (step_session s0 ev s1 Hstep)
      as [Hs|[(d & cw & sa & sb & Hi & Hw & Hc & Hv & Hst)|(val & _ & Hh)]].
    + by apply (Hsame s0).
    + apply (Hcopy sb); try done. by eapply Hinit.
    + by apply (Hinput val s0).
Qed.

End StepFacts.

(** ** The statuses of the words follow the cursor *)

Section OrderFacts.

Context `{Runtime}.
Implicit Types (s : App.State) (w : types.WordObject) (ws pre post batch : list types.WordObject).

Lemma count_status_app st ws1 ws2 :
  count_status st (ws1 ++ ws2) = (count_status st ws1 + count_status st ws2)%nat.
Proof. unfold count_status. by rewrite filter_app, length_app. Qed.

Lemma count_status_cons st w ws :
  count_status st (w :: ws) =
    ((if decide (types.status w = st) then 1 else 0) + count_status st ws)%nat.
Proof. unfold count_status. rewrite filter_cons. by case_decide. Qed.

Lemma count_status_none st ws :
  Forall (fun w => types.status w <> st) ws -> count_status st ws = 0%nat.
Proof.
  induction 1 as [|w ws Hw _ IH]; [done|].
  rewrite count_status_cons, IH. by rewrite decide_False.
Qed.

Lemma pending_batch (a : list jsstring) :
  Forall (fun w => types.status w = types.pending) (App.pendingWord <$> a).
Proof. apply Forall_fmap. by apply Forall_true. Qed.

Lemma alter_twice_around {A} (f g : A -> A) (l1 : list A) (y : A) (l2 : list A) :
  (if decide (length l1 + 1 < length (alter f (length l1) (l1 ++ y :: l2)))%nat
   then alter g (length l1 + 1)%nat (alter f (length l1) (l1 ++ y :: l2))
   else alter f (length l1) (l1 ++ y :: l2)) =
  l1 ++ f y :: match l2 with
               | [] => []
               | p :: l2' => g p :: l2'
               end.
Proof.
  assert (Hf : alter f (length l1) (l1 ++ y :: l2) = l1 ++ f y :: l2).
  { rewrite <- (Nat.add_0_r (length l1)) at 1. by rewrite alter_app_r. }
  rewrite Hf, length_app. cbn [length].
  destruct l2 as [|p l2'].
  - rewrite decide_False by (cbn [length]; lia). done.
  - rewrite decide_True by (cbn [length]; lia). by rewrite alter_app_r.
Qed.

(** The words after the two status updates of a submission, around the
    cursor. *)
Lemma marked_around b s w :
  App.words s !! App.currentIndex s = Some w ->
  marked b s =
    take (App.currentIndex s) (App.words s) ++
    App.setWordStatus (if b then types.correct else types.incorrect) w ::
    match drop (S (App.currentIndex s)) (App.words s) with
    | [] => []
    | p :: post => App.setWordStatus types.active p :: post
    end.
Proof.
  intros Hw. unfold marked.
  pose proof (lookup_lt_Some _ _ _ Hw) as Hlt.
  pose (pre := take (App.currentIndex s) (App.words s)).
  pose (post := drop (S (App.currentIndex s)) (App.words s)).
  assert (Hws : App.words s = pre ++ w :: post) by (symmetry; by apply take_drop_middle).
  assert (Hc : App.currentIndex s = length pre) by (unfold pre; rewrite length_take; lia).
  change (take (App.currentIndex s) (App.words s)) with pre.
  change (drop (S (App.currentIndex s)) (App.words s)) with post.
  clearbody pre post. rewrite Hws, Hc. apply alter_twice_around.
Qed.

(** The statuses around the cursor once a word is classified and the
    cursor has moved on. *)
Lemma in_order_after_submission pre w post batch st :
  st = types.correct \/ st = types.incorrect ->
  Forall classified pre ->
  types.status w = types.active \/ types.status w = types.pending ->
  Forall (fun x => types.status x = types.pending) post ->
  Forall (fun x => types.status x = types.pending) batch ->
  let rest := match post with
              | [] => []
              | p :: post' => App.setWordStatus types.active p :: post'
              end in
  let next := (pre ++ App.setWordStatus st w :: rest) ++ batch in
  Forall classified (take (length pre + 1) next) /\
  (forall x, next !! (length pre + 1)%nat = Some x ->
             types.status x = types.active \/ types.status x = types.pending) /\
  Forall (fun x => types.status x = types.pending) (drop (S (length pre + 1)) next) /\
  forall st', st' = types.correct \/ st' = types.incorrect ->
    count_status st' next =
      (count_status st' (pre ++ w :: post) + if decide (st = st') then 1 else 0)%nat.
Proof.
  intros Hst Hpre Hw Hpost Hbatch rest next.
  assert (Hnext : next = (pre ++ [App.setWordStatus st w]) ++ (rest ++ batch)).
  { unfold next. by rewrite <- !(assoc_L (++)). }
  assert (Hlen : length (pre ++ [App.setWordStatus st w]) = (length pre + 1)%nat)
    by (by rewrite length_app).
  assert (Hrest : forall x, (rest ++ batch) !! 0%nat = Some x ->
                            types.status x = types.active \/ types.status x = types.pending).
  { intros x. unfold rest. destruct post as [|p post'].
    - intros Hx. right. apply (proj1 (Forall_lookup _ _) Hbatch 0%nat x Hx).
    - intros [= <-]. by left. }
  assert (Htail : Forall (fun x => types.status x = types.pending) (drop 1 (rest ++ batch))).
  { unfold rest. destruct post as [|p post'].
    - by apply Forall_drop.
    - cbn [app drop]. apply Forall_app. split; [|done]. by inversion Hpost. }
  split; [|split; [|split]].
  - rewrite Hnext, <- Hlen, take_app_length. apply Forall_app. split; [done|].
    constructor; [|done]. unfold classified. cbn. destruct Hst; auto.
  - intros x. rewrite Hnext, <- Hlen, lookup_app_r by lia.
    rewrite Nat.sub_diag. apply Hrest.
  - rewrite Hnext. replace (S (length pre + 1)) with (length (pre ++ [App.setWordStatus st w]) + 1)%nat
      by lia.
    rewrite drop_app_add. exact Htail.
  - intros st' Hst'. unfold next.
    rewrite !count_status_app, !count_status_cons. cbn [types.status App.setWordStatus].
    assert (Hw0 : types.status w <> st') by (destruct Hw, Hst'; congruence).
    destruct (decide (types.status w = st')) as [?|_]; [done|].
    assert (Hpost0 : count_status st' post = 0%nat).
    { apply count_status_none. eapply Forall_impl; [exact Hpost|].
      intros x Hx. cbn in *. destruct Hst'; congruence. }
    assert (Hbatch0 : count_status st' batch = 0%nat).
    { apply count_status_none. eapply Forall_impl; [exact Hbatch|].
      intros x Hx. cbn in *. destruct Hst'; congruence. }
    assert (Hrest0 : count_status st' rest = 0%nat).
    { unfold rest. destruct post as [|p post']; [done|].
      rewrite count_status_cons. cbn [types.status App.setWordStatus].
      rewrite decide_False by (destruct Hst'; congruence).
      rewrite count_status_cons in Hpost0. lia. }
    rewrite Hpost0, Hbatch0, Hrest0. lia.
Qed.

Lemma same_session_in_order s s' : same_session s s' -> words_in_order s -> words_in_order s'.
Proof.
  intros (Hw & Hc & _ & Hcw & Hiw & _). unfold words_in_order.
  by rewrite Hw, Hc, Hcw, Hiw.
Qed.

Lemma initGame_in_order d cw s s' : App.initGame d cw s = Ok s' -> words_in_order s'.
Proof.
  unfold App.initGame. destruct (shuffled _ _) as [a k].
  destruct a as [|x a]; [done|].
  intros Heq. apply Ok_inj in Heq. subst s'. unfold words_in_order. state_simpl.
  cbn [fmap list_fmap alter list_alter take drop lookup list_lookup].
  pose proof (pending_batch a) as Hpend.
  split; [done|]. split; [intros w [= <-]; by left|]. split; [done|].
  rewrite !count_status_cons. cbn [types.status App.setWordStatus].
  rewrite !decide_False by done.
  split; symmetry; apply count_status_none; (eapply Forall_impl; [exact Hpend|]);
    intros w Hw; cbn in *; congruence.
Qed.

Lemma handleInputChange_in_order val s s' :
  words_in_order s -> App.handleInputChange val s = Ok s' -> words_in_order s'.
Proof.
  intros (Hpre & Hcur & Hpost & Hcw & Hiw).
  destruct (App.words s !! App.currentIndex s) as [w|] eqn:Hw;
    [|unfold App.handleInputChange; rewrite Hw; by destruct (endsWith val SPACE)].
  destruct (started_frame s) as (Hwords & Hidx & Hstats & _ & _).
  destruct (endsWith val SPACE) eqn:Hend.
  - rewrite (handleInputChange_submit s val w Hend Hw).
    set (b := bool_decide (trim val = types.text w)).
    set (st := if b then types.correct else types.incorrect).
    assert (Hst : st = types.correct \/ st = types.incorrect) by (unfold st; destruct b; auto).
    pose proof (take_drop_middle _ _ _ Hw) as Hsplit.
    pose proof (lookup_lt_Some _ _ _ Hw) as Hlt.
    assert (Hlen : length (take (App.currentIndex s) (App.words s)) = App.currentIndex s)
      by (rewrite length_take; lia).
    assert (Hgen : forall batch, Forall (fun x => types.status x = types.pending) batch ->
              forall s2,
                App.words s2 = marked b s ++ batch ->
                App.currentIndex s2 = (App.currentIndex s + 1)%nat ->
                types.correctWords (App.stats s2) =
                  (if b then types.correctWords (App.stats s) + 1
                   else types.correctWords (App.stats s))%nat ->
                types.incorrectWords (App.stats s2) =
                  (if b then types.incorrectWords (App.stats s)
                   else types.incorrectWords (App.stats s) + 1)%nat ->
                words_in_order s2).
    { intros batch Hbatch s2 Hw2 Hc2 Hcw2 Hiw2.
      pose proof (in_order_after_submission _ w _ batch st Hst Hpre (Hcur w eq_refl) Hpost Hbatch)
        as Hord.
      cbv zeta in Hord. rewrite Hlen, Hsplit in Hord. unfold st in Hord.
      rewrite <- (marked_around b s w Hw) in Hord. fold st in Hord.
      destruct Hord as (H1 & H2 & H3 & H4).
      unfold words_in_order. rewrite Hw2, Hc2, Hcw2, Hiw2.
      split; [done|]. split; [done|]. split; [done|].
      rewrite !H4 by auto. rewrite <- Hcw, <- Hiw. unfold st.
      destruct b; split; try (rewrite decide_True by done); try (rewrite decide_False by done); lia. }
    destruct (decide (length (App.words s) < App.currentIndex s + 10)%nat);
      intros Heq; apply Ok_inj in Heq; subst s'.
    + apply (Hgen (App.pendingWord <$> fst (shuffled (App.randomCalls s) DEFAULT_WORDS)));
        [apply pending_batch|done..].
    + apply (Hgen []); try done. state_simpl. by rewrite app_nil_r.
  - rewrite (handleInputChange_draft s val w Hend Hw).
    intros Heq. apply Ok_inj in Heq. subst s'.
    unfold words_in_order.
    destruct (decide (length val <= length (types.text w) + 3)%nat); state_simpl;
      by rewrite Hwords, Hidx, Hstats, Hw.
Qed.

End OrderFacts.

(** X7: from the mounted component on, after any sequence of events the
    statuses of the words follow the cursor: every word before the cursor
    is [correct] or [incorrect], the word at the cursor is neither, every
    word after it is [pending]; and the counters of correct and incorrect
    words are the numbers of words with these statuses. *)
Theorem words_stay_in_order `{Runtime}
    (storage : Storage) (s0 s : App.State) (evs : list App.Event) :
  App.mount storage = Ok s0 ->
  App.run s0 evs = Ok s ->
  (forall i w, App.words s !! i = Some w ->
     ((i < App.currentIndex s)%nat ->
        types.status w = types.correct \/ types.status w = types.incorrect) /\
     (i = App.currentIndex s ->
        types.status w = types.active \/ types.status w = types.pending) /\
     ((App.currentIndex s < i)%nat -> types.status w = types.pending)) /\
  types.correctWords (App.stats s) = count_status types.correct (App.words s) /\
  types.incorrectWords (App.stats s) = count_status types.incorrect (App.words s).
Proof.
  intros Hmount Hrun.
  assert (Hinv : words_in_order s).
  { revert Hmount Hrun. apply (run_session words_in_order).
    - apply same_session_in_order.
    - intros s1 s2 Hw Hc _ Hst. unfold words_in_order. by rewrite Hw, Hc, Hst.
    - apply initGame_in_order.
    - intros val s1 s2. apply handleInputChange_in_order. }
  destruct Hinv as (Hpre & Hcur & Hpost & Hcw & Hiw).
  split; [|done]. intros i w Hi. split; [|split].
  - intros Hlt. apply (proj1 (Forall_lookup _ _) Hpre i w).
    by rewrite lookup_take_lt.
  - intros ->. by apply Hcur.
  - intros Hlt. apply (proj1 (Forall_lookup _ _) Hpost (i - S (App.currentIndex s))%nat w).
    rewrite lookup_drop. by replace (S (App.currentIndex s) + (i - S (App.currentIndex s)))%nat
      with i by lia.
Qed.

(** ** The draft stays within its bound *)

Section DraftFacts.

Context `{Runtime}.
Implicit Types (s : App.State).

Lemma handleInputChange_draft_in_bounds val s s' :
  draft_in_bounds s -> App.handleInputChange val s = Ok s' -> draft_in_bounds s'.
Proof.
  intros [Hno Hfit].
  destruct (App.words s !! App.currentIndex s) as [w|] eqn:Hw;
    [|unfold App.handleInputChange; rewrite Hw; by destruct (endsWith val SPACE)].
  destruct (started_frame s) as (Hwords & Hidx & _ & Hinput & _).
  destruct (endsWith val SPACE) eqn:Hend.
  - rewrite (handleInputChange_submit s val w Hend Hw).
    destruct (decide (length (App.words s) < App.currentIndex s + 10)%nat);
      intros Heq; apply Ok_inj in Heq; subst s'; unfold draft_in_bounds; state_simpl;
      (split; [done|]); intros; cbn [length]; lia.
  - rewrite (handleInputChange_draft s val w Hend Hw).
    intros Heq. apply Ok_inj in Heq. subst s'. unfold draft_in_bounds.
    destruct (decide (length val <= length (types.text w) + 3)%nat); state_simpl.
    + rewrite Hwords, Hidx, Hw. split; [done|]. by intros ? [= <-].
    + rewrite Hwords, Hidx, Hinput, Hw. by split.
Qed.

End DraftFacts.

(** X8: from the mounted component on, after any sequence of events the
    draft in the input is no submission (it does not end in a space) and
    is at most three code units longer than the word at the cursor. *)
Theorem draft_stays_in_bounds `{Runtime}
    (storage : Storage) (s0 s : App.State) (evs : list App.Event) :
  App.mount storage = Ok s0 ->
  App.run s0 evs = Ok s ->
  endsWith (App.inputValue s) SPACE = false /\
  forall w, App.words s !! App.currentIndex s = Some w ->
            (length (App.inputValue s) <= length (types.text w) + 3)%nat.
Proof.
  change (App.mount storage = Ok s0 -> App.run s0 evs = Ok s -> draft_in_bounds s).
  apply (run_session draft_in_bounds).
  - intros s1 s2 (Hw & Hc & Hv & _). unfold draft_in_bounds. by rewrite Hw, Hc, Hv.
  - intros s1 s2 Hw Hc Hv _. unfold draft_in_bounds. by rewrite Hw, Hc, Hv.
  - intros d cw s1 s2 Hinit.
    destruct (initGame_fields d cw s1 s2 Hinit) as (_ & _ & _ & _ & Hv & _).
    unfold draft_in_bounds. rewrite Hv. split; [done|]. intros; cbn [length]; lia.
  - intros val s1 s2. apply handleInputChange_draft_in_bounds.
Qed.

(** ** What a game in progress never undoes *)

Section PlayFacts.

Context `{Runtime}.
Implicit Types (s : App.State).

Lemma continues_refl s : continues s s.
Proof. by repeat split. Qed.

Lemma continues_trans s1 s2 s3 : continues s1 s2 -> continues s2 s3 -> continues s1 s3.
Proof.
  intros (Ha & ? & ? & ? & ?) (Hb & ? & ? & ? & ?).
  split; [by etrans|]. repeat split; lia.
Qed.

Lemma same_session_continues s s' : same_session s s' -> continues s s'.
Proof.
  intros (Hw & Hc & _ & Hcw & Hiw & Hk). unfold continues.
  rewrite Hw, Hc, Hcw, Hiw, Hk. by repeat split.
Qed.

Lemma handleInputChange_continues val s s' :
  App.handleInputChange val s = Ok s' -> continues s s'.
Proof.
  destruct (App.words s !! App.currentIndex s) as [w|] eqn:Hw;
    [|unfold App.handleInputChange; rewrite Hw; by destruct (endsWith val SPACE)].
  destruct (started_frame s) as (Hwords & Hidx & Hstats & _ & _).
  destruct (endsWith val SPACE) eqn:Hend.
  - rewrite (handleInputChange_submit s val w Hend Hw).
    pose proof (marked_texts (bool_decide (trim val = types.text w)) s) as Htexts.
    destruct (decide (length (App.words s) < App.currentIndex s + 10)%nat);
      intros Heq; apply Ok_inj in Heq; subst s'; unfold continues; state_simpl;
      rewrite ?fmap_app, Htexts;
      (split; [try done; by apply prefix_app_r|]);
      destruct (bool_decide (trim val = types.text w)); repeat split; lia.
  - rewrite (handleInputChange_draft s val w Hend Hw).
    intros Heq. apply Ok_inj in Heq. subst s'. unfold continues.
    destruct (decide (length val <= length (types.text w) + 3)%nat); state_simpl;
      by rewrite Hwords, Hidx, Hstats.
Qed.

Lemma play_step_continues s ev s' :
  play_event ev -> App.step s ev = Ok s' -> continues s s'.
Proof.
  intros Hev Hstep.
  destruct (step_session s ev s' Hstep) as [Hs|[(d & cw & sa & sb & Hi & _)|(val & _ & Hh)]].
  - by apply same_session_continues.
  - destruct ev; try done; cbn [App.step] in Hstep.
    + destruct (_ && _); [by apply (handleInputChange_continues val)|].
      apply Ok_inj in Hstep. subst. apply continues_refl.
    + destruct (App.intervals s !! interval) as [c|].
      * apply same_session_continues. by apply (tick_same_session c).
      * apply Ok_inj in Hstep. subst. apply continues_refl.
  - by apply (handleInputChange_continues val).
Qed.

End PlayFacts.

(** X17: while a game is played (input and ticks of the timer), nothing
    done is undone: the words that were there stay, in their order and
    with their texts (words are only added at the end), the cursor never
    moves back, and the counts of correct words, incorrect words and
    keystrokes never go down. *)
Theorem play_never_undoes `{Runtime} (s s' : App.State) (evs : list App.Event) :
  Forall play_event evs ->
  App.run s evs = Ok s' ->
  types.text <$> App.words s `prefix_of` types.text <$> App.words s' /\
  (App.currentIndex s <= App.currentIndex s')%nat /\
  (types.correctWords (App.stats s) <= types.correctWords (App.stats s'))%nat /\
  (types.incorrectWords (App.stats s) <= types.incorrectWords (App.stats s'))%nat /\
  (types.totalKeystrokes (App.stats s) <= types.totalKeystrokes (App.stats s'))%nat.
Proof.
  intros Hevs. revert s. induction Hevs as [|ev evs Hev _ IH]; intros s; cbn [App.run].
  - intros Heq. apply Ok_inj in Heq. subst. apply continues_refl.
  - destruct (App.step s ev) as [s1|] eqn:Hstep; [|done]. rewrite bind_Ok.
    intros Hrun. apply (continues_trans s s1 s'); [by apply (play_step_continues s ev)|by apply IH].
Qed.

(** ** The clock and the timers *)

Section TimerFacts.

Context `{Runtime}.
Implicit Types (s : App.State).

Lemma TIME_OPTIONS_bounds d : d ∈ TIME_OPTIONS -> 15 <= d <= 300.
Proof.
  unfold TIME_OPTIONS. rewrite !elem_of_cons, elem_of_nil. lia.
Qed.

(** What [endGame] sets and what it leaves. *)
Lemma endGame_fields c s s' :
  App.endGame c s = Ok s' ->
  App.status s' = types.finished /\ App.timerRef s' = App.timerRef s /\
  App.timeLeft s' = App.timeLeft s /\ App.duration s' = App.duration s /\
  App.generating s' = App.generating s /\
  App.intervals s' = match App.timerRef s with
                     | Some (S t) => delete (S t) (App.intervals s)
                     | _ => App.intervals s
                     end /\
  exists prevHist, App.spread (App.history s) = Ok prevHist /\
    App.history s' = VArray (prevHist ++ [ScoreEntry_value (finalScore c s)]).
Proof.
  unfold App.endGame.
  destruct (saveScore _ _) as [stored|]; [|done]. rewrite bind_Ok.
  set (s1 := match App.timerRef s with
             | Some (S t) => App.set_intervals (delete (S t) (App.intervals s)) s
             | _ => s
             end).
  assert (Hs1 : App.stats s1 = App.stats s /\ App.randomCalls s1 = App.randomCalls s /\
                App.nowCalls s1 = App.nowCalls s /\ App.history s1 = App.history s /\
                App.timerRef s1 = App.timerRef s /\ App.timeLeft s1 = App.timeLeft s /\
                App.duration s1 = App.duration s /\ App.generating s1 = App.generating s /\
                App.intervals s1 = match App.timerRef s with
                                   | Some (S t) => delete (S t) (App.intervals s)
                                   | _ => App.intervals s
                                   end)
    by (unfold s1; by destruct (App.timerRef s) as [[|t]|] eqn:E).
  destruct Hs1 as (Hstats & Hrc & Hnc & Hhist & Href & Htl & Hd & Hg & Hiv).
  state_simpl. rewrite Hhist.
  destruct (App.spread (App.history s)) as [prevHist|]; [|done]. rewrite bind_Ok.
  intros Heq. apply Ok_inj in Heq. subst s'. state_simpl.
  rewrite Hstats, Hrc, Hnc. fold (finalScore c s).
  repeat split; try done. by exists prevHist.
Qed.

(** What [handleInputChange] leaves, and the timer it starts. *)
Lemma handleInputChange_fields val s s' :
  App.handleInputChange val s = Ok s' ->
  App.status s' = App.status (started s) /\ App.intervals s' = App.intervals (started s) /\
  App.timerRef s' = App.timerRef (started s) /\
  App.timeLeft s' = App.timeLeft s /\ App.duration s' = App.duration s /\
  App.generating s' = App.generating s.
Proof.
  destruct (App.words s !! App.currentIndex s) as [w|] eqn:Hw;
    [|unfold App.handleInputChange; rewrite Hw; by destruct (endsWith val SPACE)].
  assert (Hframe : App.timeLeft (started s) = App.timeLeft s /\
                   App.duration (started s) = App.duration s /\
                   App.generating (started s) = App.generating s)
    by (unfold started; by case_decide).
  destruct Hframe as (Htl & Hd & Hg).
  destruct (endsWith val SPACE) eqn:Hend.
  - rewrite (handleInputChange_submit s val w Hend Hw).
    destruct (decide (length (App.words s) < App.currentIndex s + 10)%nat);
      intros Heq; apply Ok_inj in Heq; subst s'; state_simpl; by rewrite Htl, Hd, Hg.
  - rewrite (handleInputChange_draft s val w Hend Hw).
    intros Heq. apply Ok_inj in Heq. subst s'.
    destruct (decide (length val <= length (types.text w) + 3)%nat); state_simpl;
      by rewrite ?Htl, ?Hd, ?Hg.
Qed.

Lemma started_fields s :
  (App.status s = types.idle ->
     App.status (started s) = types.playing /\
     App.intervals (started s) =
       <[App.nextInterval s := {| App.closed_duration := App.duration s;
                                  App.closed_selectedTopic := App.selectedTopic s;
                                  App.closed_customTopic := App.customTopic s |}]>
         (App.intervals s) /\
     App.timerRef (started s) = Some (App.nextInterval s)) /\
  (App.status s <> types.idle -> started s = s).
Proof. unfold started. split; intros Hs; [by rewrite decide_True|by rewrite decide_False]. Qed.

(** What [initGame] does to the clock and the timers. *)
Lemma initGame_timer d cw s s' :
  App.initGame d cw s = Ok s' ->
  App.timeLeft s' = d /\ App.duration s' = App.duration s /\
  App.generating s' = App.generating s /\ App.intervals s' = App.intervals s.
Proof.
  unfold App.initGame. destruct (shuffled _ _) as [a k].
  destruct (App.pendingWord <$> a) as [|x l]; [done|].
  intros Heq. apply Ok_inj in Heq. by subst s'.
Qed.

Lemma timer_in_range_init d cw s s' :
  timer_in_range s -> d ∈ TIME_OPTIONS -> App.initGame d cw s = Ok s' -> timer_in_range s'.
Proof.
  intros (_ & Hd & Hg & Hiv) Hopt Hinit.
  destruct (initGame_timer d cw s s' Hinit) as (Htl' & Hd' & Hg' & Hiv').
  pose proof (TIME_OPTIONS_bounds d Hopt). unfold timer_in_range.
  rewrite Htl', Hd', Hg', Hiv'. split; [lia|done].
Qed.

Lemma step_timer s ev s' :
  timer_in_range s -> App.step s ev = Ok s' -> timer_in_range s'.
Proof.
  intros Hinv. pose proof Hinv as (Htl & Hd & Hg & Hiv).
  assert (Hsame : Ok s = Ok s' -> timer_in_range s')
    by (intros Heq; apply Ok_inj in Heq; by subst).
  assert (Hloaded : forall d g b s0, timer_in_range s0 -> d ∈ TIME_OPTIONS ->
            bind (App.initGameWith d g s0) (fun s2 => Ok (App.set_isLoading b s2)) = Ok s' ->
            timer_in_range s').
  { intros d g b s0 Hs0 Hopt. unfold App.initGameWith.
    destruct (App.initGame d _ s0) as [s2|] eqn:Hs2; [|done]. rewrite bind_Ok.
    intros Heq. apply Ok_inj in Heq. subst s'.
    by apply (timer_in_range_init d _ s0 s2 Hs0 Hopt) in Hs2. }
  destruct ev; cbn [App.step].
  - destruct (_ && _); [|done]. intros Hstep.
    destruct (handleInputChange_fields val s s' Hstep) as (_ & Hiv' & _ & Htl' & Hd' & Hg').
    unfold timer_in_range. rewrite Hiv', Htl', Hd', Hg'.
    split; [done|]. split; [done|]. split; [done|].
    destruct (decide (App.status s = types.idle)) as [Hidle|Hno].
    + destruct (proj1 (started_fields s) Hidle) as (_ & -> & _).
      by apply map_Forall_insert_2.
    + by rewrite (proj2 (started_fields s) Hno).
  - destruct (App.intervals s !! interval) as [c|]; [|done].
    unfold App.tick. destruct (Z.leb_spec (App.timeLeft s) 1).
    + destruct (App.endGame c s) as [s1|] eqn:Hend; [|done]. rewrite bind_Ok.
      intros Heq. apply Ok_inj in Heq. subst s'.
      destruct (endGame_fields c s s1 Hend) as (_ & _ & _ & Hd' & Hg' & Hiv' & _).
      unfold timer_in_range. state_simpl. rewrite Hd', Hg', Hiv'.
      split; [lia|]. split; [done|]. split; [done|].
      destruct (App.timerRef s) as [[|t]|]; try done. by apply map_Forall_delete.
    + intros Heq. apply Ok_inj in Heq. subst s'. unfold timer_in_range. state_simpl.
      split; [lia|done].
  - case_decide; [|done]. by apply timer_in_range_init.
  - destruct (bool_decide (App.status s <> types.finished)); [|done]. cbn [andb].
    case_bool_decide as Hopt; [|done].
    pose proof (TIME_OPTIONS_bounds t Hopt).
    assert (Hset : timer_in_range (App.set_timeLeft t (App.set_duration t s)))
      by (unfold timer_in_range; state_simpl; split; [lia|done]).
    case_decide; [|by apply timer_in_range_init].
    intros Heq. apply Ok_inj in Heq. by subst s'.
  - destruct (_ && _); [|done]. unfold App.handleThemeChange.
    case_decide; [intros Heq; apply Ok_inj in Heq; by subst s'|].
    destruct (_ || _).
    + intros Heq. apply Ok_inj in Heq. subst s'. unfold timer_in_range. state_simpl.
      split; [done|]. split; [done|]. split; [|done].
      apply Forall_app. split; [done|]. by constructor.
    + by apply Hloaded.
  - destruct (_ && _); [|done]. intros Heq. apply Ok_inj in Heq. by subst s'.
  - destruct (_ && _); [|done]. unfold App.handleCustomTopicSubmit.
    destruct (App.customTopic s); [done|].
    intros Heq. apply Ok_inj in Heq. subst s'. unfold timer_in_range. state_simpl.
    split; [done|]. split; [done|]. split; [|done].
    apply Forall_app. split; [done|]. by constructor.
  - destruct (App.generating s !! request) as [d|] eqn:Hreq; [|done].
    unfold App.wordsGenerated. apply Hloaded.
    + unfold timer_in_range. state_simpl. split; [done|]. split; [done|]. split; [|done].
      by apply Forall_delete.
    + by apply (proj1 (Forall_lookup _ _) Hg request d).
  - intros Heq. apply Ok_inj in Heq. by subst s'.
  - case_decide; [|done]. intros Heq. apply Ok_inj in Heq. by subst s'.
Qed.

Lemma mount_timer storage s0 : App.mount storage = Ok s0 -> timer_in_range s0.
Proof.
  unfold App.mount. destruct (getScoreHistory storage) as [h|]; [|done]. rewrite bind_Ok.
  apply timer_in_range_init; [|unfold TIME_OPTIONS; set_solver].
  unfold timer_in_range. state_simpl. split; [lia|]. split; [unfold TIME_OPTIONS; set_solver|].
  split; [done|]. apply map_Forall_empty.
Qed.

End TimerFacts.

(** X9: from the mounted component on, after any sequence of events the
    clock is never negative and never above 300 seconds, the configured
    duration is one of [TIME_OPTIONS], and so is the duration every
    running timer will record as the time spent. *)
Theorem timer_stays_in_range `{Runtime}
    (storage : Storage) (s0 s : App.State) (evs : list App.Event) :
  App.mount storage = Ok s0 ->
  App.run s0 evs = Ok s ->
  0 <= App.timeLeft s <= 300 /\
  App.duration s ∈ TIME_OPTIONS /\
  forall i c, App.intervals s !! i = Some c -> App.closed_duration c ∈ TIME_OPTIONS.
Proof.
  intros Hmount Hrun.
  assert (Hinv : timer_in_range s).
  { apply mount_timer in Hmount. revert s0 Hmount Hrun.
    induction evs as [|ev evs IH]; intros s0 H0; cbn [App.run].
    - intros Heq. apply Ok_inj in Heq. by subst.
    - destruct (App.step s0 ev) as [s1|] eqn:Hstep; [|done]. rewrite bind_Ok.
      apply IH. by apply (step_timer s0 ev). }
  destruct Hinv as (Htl & Hd & _ & Hiv). split; [done|]. split; [done|].
  intros i c Hc. by apply (Hiv i c).
Qed.

(** X11: the status changes only in three ways: an input in the status
    [idle] starts the game ([playing]); the tick of a running timer that
    finds at most one second left ends it ([finished]); a new race, a
    choice of duration, a choice of theme, the answer of a word generation
    and the History button lead to [idle].  Every other event leaves the
    status as it is.  Conversely, every input that the [idle] component
    handles starts the game, whether the typed text is kept or not. *)
Theorem status_changes_by_rule `{Runtime} (s s' : App.State) (ev : App.Event) :
  App.step s ev = Ok s' ->
  (App.status s' = App.status s \/
   (App.status s = types.idle /\ App.status s' = types.playing /\
    exists val, ev = App.InputChange val) \/
   (App.status s' = types.finished /\
    exists i c, ev = App.Tick i /\ App.intervals s !! i = Some c /\ App.timeLeft s <= 1) \/
   (App.status s' = types.idle /\
    (ev = App.NewRace \/ (exists t, ev = App.SelectDuration t) \/
     (exists themeId, ev = App.ThemeChange themeId) \/
     (exists request newWords, ev = App.Generated request newWords) \/
     ev = App.ShowHistory))) /\
  (forall val, ev = App.InputChange val -> App.status s = types.idle ->
               App.isLoading s = false -> App.status s' = types.playing).
Proof.
  intros Hstep. split.
  - assert (Hinit : forall d cw s0, App.initGame d cw s0 = Ok s' -> App.status s' = types.idle)
      by (intros d cw s0 Hi; by destruct (initGame_fields d cw s0 s' Hi) as (? & _)).
    assert (Hloaded : forall d g b s0,
              bind (App.initGameWith d g s0) (fun s2 => Ok (App.set_isLoading b s2)) = Ok s' ->
              App.status s' = types.idle).
    { intros d g b s0. unfold App.initGameWith.
      destruct (App.initGame d _ s0) as [s2|] eqn:Hs2; [|done]. rewrite bind_Ok.
      intros Heq. apply Ok_inj in Heq. subst s'.
      by destruct (initGame_fields d _ s0 s2 Hs2) as (? & _). }
    destruct ev; cbn [App.step] in Hstep.
    + destruct (_ && _); [|apply Ok_inj in Hstep; subst; by left].
      destruct (handleInputChange_fields val s s' Hstep) as (Hst & _).
      destruct (decide (App.status s = types.idle)) as [Hidle|Hno].
      * destruct (proj1 (started_fields s) Hidle) as (Hp & _).
        right. left. rewrite Hst, Hp. eauto.
      * left. by rewrite Hst, (proj2 (started_fields s) Hno).
    + destruct (App.intervals s !! interval) as [c|] eqn:Hc;
        [|apply Ok_inj in Hstep; subst; by left].
      unfold App.tick in Hstep. destruct (Z.leb_spec (App.timeLeft s) 1).
      * destruct (App.endGame c s) as [s1|] eqn:Hend; [|done]. rewrite bind_Ok in Hstep.
        apply Ok_inj in Hstep. subst s'.
        destruct (endGame_fields c s s1 Hend) as (Hfin & _).
        right. right. left. split; [done|]. by exists interval, c.
      * apply Ok_inj in Hstep. subst s'. by left.
    + case_decide; [|apply Ok_inj in Hstep; subst; by left].
      right. right. right. split; [by eapply Hinit|]. by left.
    + destruct (_ && _); [|apply Ok_inj in Hstep; subst; by left].
      case_decide; [apply Ok_inj in Hstep; subst; by left|].
      right. right. right. split; [by eapply Hinit|]. right. left. by exists t.
    + destruct (_ && _); [|apply Ok_inj in Hstep; subst; by left].
      unfold App.handleThemeChange in Hstep.
      case_decide; [apply Ok_inj in Hstep; subst; by left|].
      destruct (_ || _); [apply Ok_inj in Hstep; subst; by left|].
      right. right. right. split; [by eapply Hloaded|]. right. right. left. by exists themeId.
    + destruct (_ && _); apply Ok_inj in Hstep; subst; by left.
    + destruct (_ && _); [|apply Ok_inj in Hstep; subst; by left].
      unfold App.handleCustomTopicSubmit in Hstep.
      destruct (App.customTopic s); apply Ok_inj in Hstep; subst; by left.
    + destruct (App.generating s !! request) as [d|]; [|apply Ok_inj in Hstep; subst; by left].
      right. right. right. split; [by eapply Hloaded|].
      right. right. right. left. by exists request, newWords.
    + apply Ok_inj in Hstep. subst s'. right. right. right. split; [done|]. by repeat right.
    + case_decide; apply Ok_inj in Hstep; subst; by left.
  - intros val -> Hidle Hload. cbn [App.step] in Hstep.
    rewrite Hload, bool_decide_true in Hstep by (rewrite Hidle; done).
    cbn [negb andb] in Hstep.
    destruct (handleInputChange_fields val s s' Hstep) as (Hst & _).
    destruct (proj1 (started_fields s) Hidle) as (Hp & _). by rewrite Hst, Hp.
Qed.

(** ** A timer that was not stopped *)

Section StaleFacts.

Context `{Runtime}.
Implicit Types (s : App.State).

(** The tick of a timer other than the one [timerRef] holds, when at most
    one second is left. *)
Lemma stale_tick s i c :
  stringify_parses -> history_is_array s ->
  App.intervals s !! i = Some c -> App.timerRef s <> Some i -> App.timeLeft s <= 1 ->
  exists s' entries, App.history s = VArray entries /\
    App.step s (App.Tick i) = Ok s' /\
    App.history s' = VArray (entries ++ [ScoreEntry_value (finalScore c s)]) /\
    App.status s' = types.finished /\
    history_is_array s' /\
    App.intervals s' !! i = Some c /\ App.timerRef s' = App.timerRef s /\ App.timeLeft s' = 0.
Proof.
  intros Hlaw Harr Hi Href Htl.
  destruct (endGame_Ok c s Hlaw Harr) as (s1 & Hend & Harr1).
  destruct (endGame_fields c s s1 Hend) as (Hfin & Href1 & _ & _ & _ & Hiv & prev & Hprev & Hh).
  destruct Harr as [_ [entries Hentries]].
  rewrite Hentries in Hprev. cbn [App.spread] in Hprev. apply Ok_inj in Hprev. subst prev.
  exists (App.set_timeLeft 0 s1), entries. split; [done|]. split.
  { cbn [App.step]. rewrite Hi. unfold App.tick.
    destruct (Z.leb_spec (App.timeLeft s) 1); [|lia]. by rewrite Hend, bind_Ok. }
  state_simpl. split; [done|]. split; [done|]. split; [exact Harr1|].
  split; [|done]. rewrite Hiv.
  destruct (App.timerRef s) as [[|t]|]; try done.
  rewrite lookup_delete_ne; [done|]. congruence.
Qed.

End StaleFacts.

(** X10: [endGame] stops only the timer that was started last.  A timer
    started before it (the game went back to [idle] while that timer ran,
    and the next input started another one) keeps running after the end
    of the game, and each of its ticks ends the game once more: after [n]
    such ticks the history holds [n] more scores, and the timer still
    runs. *)
Theorem stale_timer_scores_every_tick `{Runtime}
    (s : App.State) (i : nat) (c : App.Closure) (n : nat) :
  stringify_parses -> history_is_array s ->
  App.intervals s !! i = Some c -> App.timerRef s <> Some i -> App.timeLeft s <= 1 ->
  exists s' entries scores,
    App.history s = VArray entries /\
    App.run s (replicate n (App.Tick i)) = Ok s' /\
    App.history s' = VArray (entries ++ scores) /\ length scores = n /\
    App.intervals s' !! i = Some c /\
    ((0 < n)%nat -> App.status s' = types.finished).
Proof.
  intros Hlaw. revert s. induction n as [|n IH]; intros s Harr Hi Href Htl.
  - destruct Harr as [Hst [entries Hentries]]. exists s, entries, [].
    rewrite app_nil_r. repeat split; try done. lia.
  - destruct (stale_tick s i c Hlaw Harr Hi Href Htl)
      as (s1 & entries & Hentries & Hstep & Hh1 & Hfin & Harr1 & Hi1 & Href1 & Htl1).
    destruct (IH s1 Harr1 Hi1) as (s' & entries1 & scores & Hentries1 & Hrun & Hh' & Hlen & Hi' & Hfin');
      [by rewrite Href1|lia|].
    rewrite Hh1 in Hentries1. injection Hentries1 as <-.
    exists s', entries, (ScoreEntry_value (finalScore c s) :: scores).
    split; [done|]. split; [cbn [replicate App.run]; by rewrite Hstep, bind_Ok|].
    split; [by rewrite Hh', <- (assoc_L (++))|]. split; [cbn [length]; lia|]. split; [done|].
    intros _. destruct n as [|n]; [|apply Hfin'; lia].
    cbn [replicate App.run] in Hrun. apply Ok_inj in Hrun. by subst s'.
Qed.

(** ** The live statistics *)

(** X14: the pace shown during the game is 0 as long as the clock has not
    gone below the duration, whatever was typed; the accuracy shown is 0
    as long as no word was submitted.  Both are 0 in the session that
    [initGame] makes with the duration of its render. *)
Theorem live_statistics_start_at_zero `{Runtime} :
  (forall s, App.duration s <= App.timeLeft s -> livePace s = num 0) /\
  (forall s, types.correctWords (App.stats s) = 0%nat ->
             types.incorrectWords (App.stats s) = 0%nat -> liveAccuracy s = num 0) /\
  (forall cw s s', App.initGame (App.duration s) cw s = Ok s' ->
                   livePace s' = num 0 /\ liveAccuracy s' = num 0).
Proof.
  assert (Hpace : forall s, App.duration s <= App.timeLeft s -> livePace s = num 0).
  { intros s Hle. unfold livePace, calculateWPM.
    destruct (Z.eq_dec (App.duration s - App.timeLeft s) 0) as [->|Hne]; [done|].
    by rewrite negative_le_zero by (apply num_negative; lia). }
  assert (Hacc : forall s, types.correctWords (App.stats s) = 0%nat ->
             types.incorrectWords (App.stats s) = 0%nat -> liveAccuracy s = num 0).
  { intros s Hc Hi. unfold liveAccuracy. by rewrite Hc, Hi. }
  split; [done|]. split; [done|].
  intros cw s s' Hinit.
  destruct (initGame_fields _ cw s s' Hinit) as (_ & _ & _ & Hst & _ & Htl & Hd & _).
  split; [apply Hpace; lia|apply Hacc; by rewrite Hst].
Qed.

(** ** The shuffle: one order for each sequence of draws *)

Section ChoiceFacts.

Context {T : Type}.
Implicit Types (a b : list T) (c : nat -> nat).

Lemma swap_lookup_ne a i j p : p <> i -> p <> j -> swap a i j !! p = a !! p.
Proof.
  intros Hi Hj. unfold swap. destruct (a !! j), (a !! i); try done.
  by rewrite !list_lookup_insert_ne.
Qed.

Lemma swap_lookup_first a i j :
  (i < length a)%nat -> (j < length a)%nat -> swap a i j !! i = a !! j.
Proof. intros Hi Hj. by destruct (swap_exchanged a i j Hi Hj) as (_ & ? & _). Qed.

Lemma swap_app_l a b i j :
  (i < length a)%nat -> (j < length a)%nat -> swap (a ++ b) i j = swap a i j ++ b.
Proof.
  intros Hi Hj. unfold swap. rewrite !lookup_app_l by done.
  destruct (lookup_lt_is_Some_2 a j Hj) as [aj ->].
  destruct (lookup_lt_is_Some_2 a i Hi) as [ai ->].
  rewrite insert_app_l by done. rewrite insert_app_l by (by rewrite length_insert). done.
Qed.

Lemma exchanges_length c i a : length (exchanges c i a) = length a.
Proof.
  revert a. induction i as [|i IH]; intros a; simpl; [done|].
  by rewrite IH, swap_length.
Qed.

Lemma exchanges_ext c c' i a :
  (forall p, (1 <= p <= i)%nat -> c p = c' p) -> exchanges c i a = exchanges c' i a.
Proof.
  revert a. induction i as [|i IH]; intros a Hc; simpl; [done|].
  rewrite (Hc (S i)) by lia. apply IH. intros p Hp. apply Hc. lia.
Qed.

(** The pass entered at [i] leaves the elements after [i] where they
    are. *)
Lemma exchanges_untouched c i a q :
  (forall p, (1 <= p <= i)%nat -> (c p <= p)%nat) -> (i < q)%nat ->
  exchanges c i a !! q = a !! q.
Proof.
  revert a. induction i as [|i IH]; intros a Hc Hq; simpl; [done|].
  rewrite IH by (try lia; intros p Hp; apply Hc; lia).
  pose proof (Hc (S i) ltac:(lia)). apply swap_lookup_ne; lia.
Qed.

Lemma exchanges_app c i a b :
  (forall p, (1 <= p <= i)%nat -> (c p <= p)%nat) -> (i < length a)%nat ->
  exchanges c i (a ++ b) = exchanges c i a ++ b.
Proof.
  revert a. induction i as [|i IH]; intros a Hc Hi; simpl; [done|].
  pose proof (Hc (S i) ltac:(lia)).
  rewrite swap_app_l by lia. apply IH; [intros p Hp; apply Hc; lia|].
  rewrite swap_length. lia.
Qed.

(** On distinct elements, the order that comes out tells every index that
    was drawn. *)
Lemma exchanges_inj c1 c2 i a :
  NoDup a -> (i < length a)%nat ->
  (forall p, (1 <= p <= i)%nat -> (c1 p <= p)%nat /\ (c2 p <= p)%nat) ->
  exchanges c1 i a = exchanges c2 i a ->
  forall p, (1 <= p <= i)%nat -> c1 p = c2 p.
Proof.
  revert a. induction i as [|i IH]; intros a Hnd Hi Hc Heq p Hp; [lia|].
  simpl in Heq.
  destruct (Hc (S i) ltac:(lia)) as [H1 H2].
  assert (Hlast : a !! c1 (S i) = a !! c2 (S i)).
  { rewrite <- (swap_lookup_first a (S i) (c1 (S i))) by lia.
    rewrite <- (swap_lookup_first a (S i) (c2 (S i))) by lia.
    rewrite <- (exchanges_untouched c1 i _ (S i)) by (try lia; intros q Hq; apply Hc; lia).
    rewrite <- (exchanges_untouched c2 i (swap a (S i) (c2 (S i))) (S i))
      by (try lia; intros q Hq; apply Hc; lia).
    by rewrite Heq. }
  assert (Hsame : c1 (S i) = c2 (S i)).
  { destruct (lookup_lt_is_Some_2 a (c1 (S i)) ltac:(lia)) as [x Hx].
    rewrite Hx in Hlast. by apply (NoDup_lookup a _ _ x). }
  destruct (decide (p = S i)) as [->|Hne]; [done|].
  rewrite <- Hsame in Heq.
  apply (IH (swap a (S i) (c1 (S i)))); try done.
  - by rewrite swap_Permutation.
  - rewrite swap_length. lia.
  - intros q Hq. apply Hc. lia.
  - lia.
Qed.

(** Every order of the elements comes out of some sequence of draws. *)
Lemma exchanges_surj n a a' :
  length a = n -> a' ≡ₚ a ->
  exists c, (forall p, (c p <= p)%nat) /\ exchanges c (n - 1) a = a'.
Proof.
  revert a a'. induction n as [|n IH]; intros a a' Hlen Hperm.
  { apply length_zero_iff_nil in Hlen. subst a. apply Permutation_nil_r in Hperm. subst a'.
    exists (fun _ => 0%nat). split; [intros; lia|done]. }
  destruct n as [|m].
  { destruct a as [|x [|y a]]; try done. apply Permutation_singleton_r in Hperm. subst a'.
    exists (fun _ => 0%nat). split; [intros; lia|done]. }
  replace (S (S m) - 1)%nat with (S m) by lia.
  assert (Hlen' : length a' = S (S m)) by (by rewrite Hperm).
  destruct (decide (a' = [])) as [->|Hne]; [done|].
  destruct (exists_last Hne) as (a0' & x & ->).
  assert (Hx : x ∈ a) by (rewrite <- Hperm; set_solver).
  apply list_elem_of_lookup in Hx as [j Hj].
  pose proof (lookup_lt_Some _ _ _ Hj) as Hjlt.
  set (b := swap a (S m) j).
  assert (Hb : b !! S m = Some x) by (unfold b; rewrite swap_lookup_first by lia; done).
  assert (Hblen : length b = S (S m)) by (unfold b; by rewrite swap_length).
  assert (Hbsplit : b = take (S m) b ++ [x]).
  { rewrite <- (take_drop (S m) b) at 1. f_equal.
    rewrite (drop_S _ _ _ Hb). rewrite drop_ge by lia. done. }
  assert (Hperm0 : a0' ≡ₚ take (S m) b).
  { apply (Permutation_app_inv_r [x]). rewrite <- Hbsplit. unfold b.
    by rewrite swap_Permutation. }
  destruct (IH (take (S m) b) a0') as (c0 & Hc0 & Hex); [rewrite length_take; lia|done|].
  replace (S m - 1)%nat with m in Hex by lia.
  exists (fun p => if decide (p = S m) then j else c0 p). split.
  - intros p. case_decide; [lia|apply Hc0].
  - simpl. rewrite decide_True by done. fold b. rewrite Hbsplit.
    rewrite exchanges_app.
    + f_equal. rewrite <- Hex. apply exchanges_ext. intros p Hp. by rewrite decide_False by lia.
    + intros p Hp. rewrite decide_False by lia. apply Hc0.
    + rewrite length_take. lia.
Qed.

(** The pass of [shuffleArray] is the pass with the indices that
    [Math.random()] yields. *)
Lemma shuffle_pass_exchanges (R : Runtime) i k a :
  fst (@shuffle_pass R T i k a) =
    exchanges (fun p => @random_index R (k + (i - p)) p) i a.
Proof.
  revert k a. induction i as [|i IH]; intros k a; simpl; [done|].
  rewrite IH, Nat.sub_diag, Nat.add_0_r. apply exchanges_ext.
  intros p Hp. f_equal. destruct p; lia.
Qed.

End ChoiceFacts.

Section ChoosingFacts.

Implicit Types (c : nat -> nat).

Lemma runtime_choosing_in_range c n k :
  (forall p, (c p <= p)%nat) -> Z.of_nat n <= 2 ^ 53 ->
  @Math_random_in_range (runtime_choosing c n k).
Proof.
  intros Hc Hn call. cbn [Math_random runtime_choosing runtime_of].
  set (i := (n - 1 - (call - k))%nat). specialize (Hc i).
  apply fraction_above_in_range; lia.
Qed.

Lemma runtime_choosing_index c n k p :
  (forall q, (c q <= q)%nat) -> Z.of_nat n <= 2 ^ 52 -> (1 <= p <= n - 1)%nat ->
  @random_index (runtime_choosing c n k) (k + (n - 1 - p)) p = c p.
Proof.
  intros Hc Hn Hp. unfold random_index. cbn [Math_random runtime_choosing runtime_of].
  replace (n - 1 - (k + (n - 1 - p) - k))%nat with p by lia.
  specialize (Hc p). rewrite fraction_above_index by lia. lia.
Qed.

End ChoosingFacts.

(** X12: on an array of distinct elements the order [shuffleArray]
    returns tells every index that was drawn, each the
    [Math.floor(Math.random() * (i + 1))] of the binary64 product: two
    runs that draw a different index somewhere return different orders.
    The array has fewer than [2^53] elements, as every array of the
    language has. *)
Theorem shuffleArray_draws_determined {T : Type} (R1 R2 : Runtime)
    (array : positive) (k1 k2 : nat) (h : gmap positive (list T)) (a : list T)
    (new1 new2 : positive) (h1 h2 : gmap positive (list T)) (k1' k2' : nat) :
  @Math_random_in_range R1 -> @Math_random_in_range R2 ->
  Z.of_nat (length a) < 2 ^ 53 ->
  h !! array = Some a -> NoDup a ->
  @shuffleArray R1 T array k1 h = Some (new1, h1, k1') ->
  @shuffleArray R2 T array k2 h = Some (new2, h2, k2') ->
  h1 !! new1 = h2 !! new2 ->
  forall i, (1 <= i < length a)%nat ->
    @random_index R1 (k1 + (length a - 1 - i)) i =
    @random_index R2 (k2 + (length a - 1 - i)) i.
Proof.
  intros Hr1 Hr2 Hlen Ha Hnd Hs1 Hs2 Heq i Hi.
  rewrite (@shuffleArray_contents R1 T array k1 h a Ha) in Hs1.
  rewrite (@shuffleArray_contents R2 T array k2 h a Ha) in Hs2.
  injection Hs1 as <- <- _. injection Hs2 as <- <- _.
  rewrite !lookup_insert_eq in Heq. injection Heq as Heq.
  unfold shuffled in Heq. rewrite !shuffle_pass_exchanges in Heq.
  apply (exchanges_inj _ _ (length a - 1) a Hnd ltac:(lia)) with (p := i) in Heq; [done| |lia].
  intros p Hp. split; apply random_index_le; (done || lia).
Qed.

(** X13: every order of the elements is one [shuffleArray] can return:
    for each permutation of the array there are values of
    [Math.random()], all of them numbers from 0 to 1 (excluded), with
    which [shuffleArray] returns that permutation.  The array has at
    most [2^52] elements, as every array of the language has. *)
Theorem shuffleArray_reaches_every_order {T : Type}
    (array : positive) (k : nat) (h : gmap positive (list T)) (a a' : list T) :
  h !! array = Some a -> Z.of_nat (length a) <= 2 ^ 52 -> a' ≡ₚ a ->
  exists R : Runtime, @Math_random_in_range R /\
    exists newArray h' k',
      @shuffleArray R T array k h = Some (newArray, h', k') /\
      h' !! newArray = Some a'.
Proof.
  intros Ha Hlen Hperm.
  destruct (exchanges_surj (length a) a a' eq_refl Hperm) as (c & Hc & Hex).
  exists (runtime_choosing c (length a) k).
  split; [apply runtime_choosing_in_range; [done|lia]|].
  rewrite (@shuffleArray_contents _ T array k h a Ha).
  eexists _, _, _. split; [reflexivity|]. rewrite lookup_insert_eq. f_equal.
  unfold shuffled. rewrite shuffle_pass_exchanges, <- Hex.
  apply exchanges_ext. intros p Hp. by apply runtime_choosing_index.
Qed.

(** ** The generated words *)

Section SplitFacts.

Implicit Types (s piece w : jsstring) (ws : list jsstring).

Lemma split_loop_no_white_space s piece gap :
  no_white_space piece -> Forall no_white_space (split_loop s piece gap).
Proof.
  revert piece gap. induction s as [|c s IH]; intros piece gap Hp; simpl.
  - by constructor.
  - destruct (is_white_space c) eqn:Hc.
    + destruct gap; [apply IH; constructor|]. constructor; [done|]. apply IH. constructor.
    + apply IH. apply Forall_app. split; [done|]. by constructor.
Qed.

(** A text of white space only has no piece that is not empty. *)
Lemma split_loop_blank s gap :
  Forall (fun c => is_white_space c = true) s ->
  Forall (fun w => w = []) (split_loop s [] gap).
Proof.
  intros Hs. revert gap. induction Hs as [|c s Hc _ IH]; intros gap; simpl.
  - by constructor.
  - rewrite Hc. destruct gap; [apply IH|]. constructor; [done|apply IH].
Qed.

Lemma split_loop_word w rest piece gap :
  no_white_space w -> w <> [] ->
  split_loop (w ++ rest) piece gap = split_loop rest (piece ++ w) false.
Proof.
  intros Hw. revert piece gap. induction Hw as [|c w Hc Hw IH]; intros piece gap Hne; [done|].
  simpl. rewrite Hc. destruct w as [|d w].
  - done.
  - rewrite IH by done. by rewrite <- (assoc_L (++)).
Qed.

(** Splitting the words joined by single spaces gives the words back. *)
Lemma split_loop_join ws piece gap w :
  Forall (fun w => w <> [] /\ no_white_space w) (w :: ws) ->
  split_loop (join_spaces (w :: ws)) piece gap = (piece ++ w) :: ws.
Proof.
  revert w piece gap. induction ws as [|w' ws IH]; intros w piece gap Hall.
  - apply Forall_cons in Hall as [[Hne Hw] _]. cbn [join_spaces].
    rewrite <- (app_nil_r w) at 1. by rewrite split_loop_word.
  - apply Forall_cons in Hall as [[Hne Hw] Hall].
    change (join_spaces (w :: w' :: ws)) with (w ++ SPACE ++ join_spaces (w' :: ws)).
    rewrite split_loop_word by done.
    change (SPACE ++ join_spaces (w' :: ws)) with (32%N :: join_spaces (w' :: ws)).
    cbn [split_loop]. change (is_white_space 32) with true. cbn iota.
    by rewrite IH.
Qed.

End SplitFacts.

(** X18: [generateThematicWords] returns no word when the request fails,
    when the response has no text, and when the text is empty or white
    space only.  Every word it returns is the lower-case form of a piece
    of the text that has no white space and at least two code units.  Of
    a text of words separated by single spaces, as the prompt asks for, it
    returns the lower-case forms of the words of at least two code units,
    in their order. *)
Theorem generateThematicWords_words `{Unicode} :
  (forall e, generateThematicWords (Throw e) = []) /\
  generateThematicWords (Ok None) = [] /\
  (forall text, Forall (fun c => is_white_space c = true) text ->
                generateThematicWords (Ok (Some text)) = []) /\
  (forall response, exists pieces,
     generateThematicWords response = toLowerCase <$> pieces /\
     Forall (fun w => (2 <= length w)%nat /\ no_white_space w) pieces) /\
  (forall ws, ws <> [] -> Forall (fun w => w <> [] /\ no_white_space w) ws ->
     generateThematicWords (Ok (Some (join_spaces ws))) =
       toLowerCase <$> filter (fun w => (1 < length w)%nat) ws).
Proof.
  assert (Hwords : forall l : list jsstring,
            match toLowerCase <$> l with [] => [] | _ :: _ => toLowerCase <$> l end =
            toLowerCase <$> l) by (by intros []).
  assert (Htext : forall text,
            generateThematicWords (Ok (Some text)) =
              toLowerCase <$> filter (fun w => (1 < length w)%nat) (split_white_space text)).
  { intros text. unfold generateThematicWords. rewrite Hwords. by destruct text. }
  assert (Hnone : generateThematicWords (Ok None) = []) by done.
  split; [done|]. split; [done|]. split; [|split].
  - intros text Hblank. rewrite Htext.
    pose proof (split_loop_blank text false Hblank) as Hall.
    fold (split_white_space text) in Hall.
    induction Hall as [|w l -> _ IH]; [done|]. rewrite filter_cons_False by (cbn; lia). exact IH.
  - intros [[text|]|e]; [|by exists []..].
    exists (filter (fun w => (1 < length w)%nat) (split_white_space text)).
    split; [apply Htext|].
    apply Forall_forall. intros w Hw. apply list_elem_of_filter in Hw as [Hlen Hw].
    split; [lia|].
    pose proof (split_loop_no_white_space text [] false ltac:(constructor)) as Hall.
    by apply (proj1 (Forall_forall _ _) Hall).
  - intros [|w ws] Hne Hall; [done|].
    rewrite Htext. unfold split_white_space. by rewrite split_loop_join.
Qed.

(** ** The statistics on small counters *)

Section CheckFacts.

Lemma number_eqb_eq x y : number_eqb x y = true -> x = y.
Proof.
  destruct x as [[]|[]| |[] m e], y as [[]|[]| |[] m' e']; try done; cbn;
    rewrite ?andb_true_iff; intros; destruct_and?;
    repeat match goal with
           | E : (_ =? _)%positive = true |- _ => apply Pos.eqb_eq in E
           | E : (_ =? _) = true |- _ => apply Z.eqb_eq in E
           end; by subst.
Qed.

Lemma whole_between_spec lo hi x :
  whole_between lo hi x = true -> exists n, x = num n /\ lo <= n <= hi.
Proof.
  unfold whole_between. rewrite !andb_true_iff. intros [[Heq Hlo] Hhi].
  exists (integer_of x). split; [by apply number_eqb_eq|lia].
Qed.

Lemma all_below_spec n m f c i :
  all_below n m f = true -> (c < n)%nat -> (i < m)%nat -> f c i = true.
Proof.
  unfold all_below. rewrite forallb_forall. intros Hall Hc Hi.
  specialize (Hall c ltac:(apply in_seq; lia)).
  rewrite forallb_forall in Hall. apply Hall. apply in_seq. lia.
Qed.

Lemma accuracy_checked_50 : all_below 51 51 accuracy_checked = true.
Proof. vm_compute. reflexivity. Qed.

Lemma final_wpm_checked_200 : final_wpm_checked 201 = true.
Proof. vm_compute. reflexivity. Qed.

End CheckFacts.

(** X15: for counters up to 50, [calculateAccuracy] yields a whole number
    from 0 to 100; for up to 200 correct words and each duration of
    [TIME_OPTIONS], [calculateWPM] yields a whole number that is not
    negative; either is the exactly rounded value of the formula or one
    below it, never above it. *)
Theorem statistics_within_one_below_exact (c i w : nat) (t : Z) :
  (c <= 50)%nat -> (i <= 50)%nat -> (w <= 200)%nat -> t ∈ TIME_OPTIONS ->
  (exists n, calculateAccuracy (num (Z.of_nat c)) (num (Z.of_nat i)) = num n /\
     0 <= n <= 100 /\
     accuracy_exact (Z.of_nat c) (Z.of_nat i) - 1 <= n <= accuracy_exact (Z.of_nat c) (Z.of_nat i)) /\
  (exists n, calculateWPM (num (Z.of_nat w)) (num t) = num n /\
     0 <= n /\
     wpm_exact (Z.of_nat w) t - 1 <= n <= wpm_exact (Z.of_nat w) t).
Proof.
  intros Hc Hi Hw Ht. split.
  - pose proof (all_below_spec _ _ _ c i accuracy_checked_50 ltac:(lia) ltac:(lia)) as Hck.
    apply whole_between_spec in Hck as (n & Hn & Hb). exists n. split; [done|]. lia.
  - pose proof final_wpm_checked_200 as Hall. unfold final_wpm_checked in Hall.
    rewrite forallb_forall in Hall. specialize (Hall t ltac:(by apply list_elem_of_In)).
    rewrite forallb_forall in Hall. specialize (Hall w ltac:(apply in_seq; lia)).
    apply whole_between_spec in Hall as (n & Hn & Hb). exists n. split; [done|]. lia.
Qed.

(** ** The history in memory *)

Section HistoryFacts.

Context `{Runtime}.
Implicit Types (s : App.State).

Lemma handleInputChange_history val s s' :
  App.handleInputChange val s = Ok s' -> App.history s' = App.history s.
Proof.
  destruct (App.words s !! App.currentIndex s) as [w|] eqn:Hw;
    [|unfold App.handleInputChange; rewrite Hw; by destruct (endsWith val SPACE)].
  assert (Hh : App.history (started s) = App.history s) by (unfold started; by case_decide).
  destruct (endsWith val SPACE) eqn:Hend.
  - rewrite (handleInputChange_submit s val w Hend Hw).
    destruct (decide (length (App.words s) < App.currentIndex s + 10)%nat);
      intros Heq; apply Ok_inj in Heq; by subst s'.
  - rewrite (handleInputChange_draft s val w Hend Hw).
    intros Heq. apply Ok_inj in Heq. subst s'.
    by destruct (decide (length val <= length (types.text w) + 3)%nat).
Qed.

(** An event other than the Reset button keeps the scores there are and
    adds at most one. *)
Lemma step_history s ev s' entries :
  ev <> App.ResetScores ->
  App.step s ev = Ok s' -> App.history s = VArray entries ->
  exists more, App.history s' = VArray (entries ++ more) /\ (length more <= 1)%nat.
Proof.
  intros Hev Hstep Hentries.
  assert (Hsame : App.history s' = App.history s ->
            exists more, App.history s' = VArray (entries ++ more) /\ (length more <= 1)%nat).
  { intros ->. exists []. rewrite app_nil_r. split; [done|cbn [length]; lia]. }
  assert (Hinit : forall d cw s0, App.history s0 = App.history s ->
            App.initGame d cw s0 = Ok s' -> App.history s' = App.history s).
  { intros d cw s0 Hs0 Hi.
    destruct (initGame_fields d cw s0 s' Hi) as (_ & _ & _ & _ & _ & _ & _ & _ & _ & _ & _ & _ & _ & Hh & _).
    by rewrite Hh. }
  assert (Hloaded : forall d g b s0, App.history s0 = App.history s ->
            bind (App.initGameWith d g s0) (fun s2 => Ok (App.set_isLoading b s2)) = Ok s' ->
            App.history s' = App.history s).
  { intros d g b s0 Hs0. unfold App.initGameWith.
    destruct (App.initGame d _ s0) as [s2|] eqn:Hs2; [|done]. rewrite bind_Ok.
    intros Heq. apply Ok_inj in Heq. subst s'.
    destruct (initGame_fields d _ s0 s2 Hs2) as (_ & _ & _ & _ & _ & _ & _ & _ & _ & _ & _ & _ & _ & Hh & _).
    state_simpl. by rewrite Hh. }
  destruct ev; try done; cbn [App.step] in Hstep.
  - apply Hsame. destruct (_ && _); [by apply (handleInputChange_history val)|].
    apply Ok_inj in Hstep. by subst.
  - destruct (App.intervals s !! interval) as [c|]; [|apply Hsame; apply Ok_inj in Hstep; by subst].
    unfold App.tick in Hstep. destruct (App.timeLeft s <=? 1).
    + destruct (App.endGame c s) as [s1|] eqn:Hend; [|done]. rewrite bind_Ok in Hstep.
      apply Ok_inj in Hstep. subst s'.
      destruct (endGame_fields c s s1 Hend) as (_ & _ & _ & _ & _ & _ & prev & Hprev & Hh).
      rewrite Hentries in Hprev. cbn [App.spread] in Hprev. apply Ok_inj in Hprev. subst prev.
      exists [ScoreEntry_value (finalScore c s)]. split; [done|cbn [length]; lia].
    + apply Hsame. apply Ok_inj in Hstep. by subst.
  - apply Hsame. case_decide; [(eapply Hinit; [|exact Hstep]; reflexivity)|apply Ok_inj in Hstep; by subst].
  - apply Hsame. destruct (_ && _); [|apply Ok_inj in Hstep; by subst].
    case_decide; [apply Ok_inj in Hstep; by subst|(eapply Hinit; [|exact Hstep]; reflexivity)].
  - apply Hsame. destruct (_ && _); [|apply Ok_inj in Hstep; by subst].
    unfold App.handleThemeChange in Hstep.
    case_decide; [apply Ok_inj in Hstep; by subst|].
    destruct (_ || _); [apply Ok_inj in Hstep; by subst|(eapply Hloaded; [|exact Hstep]; reflexivity)].
  - apply Hsame. destruct (_ && _); apply Ok_inj in Hstep; by subst.
  - apply Hsame. destruct (_ && _); [|apply Ok_inj in Hstep; by subst].
    unfold App.handleCustomTopicSubmit in Hstep.
    destruct (App.customTopic s); apply Ok_inj in Hstep; by subst.
  - apply Hsame. destruct (App.generating s !! request) as [d|]; [|apply Ok_inj in Hstep; by subst].
    (eapply Hloaded; [|exact Hstep]; reflexivity).
  - apply Hsame. apply Ok_inj in Hstep. by subst.
Qed.

End HistoryFacts.

(** X19: the scores in memory are only added to: after any sequence of
    events without the Reset button, the history is the history before
    with new scores after it, at most one for each event; no score is
    dropped, moved or changed. *)
Theorem history_only_grows `{Runtime}
    (s s' : App.State) (evs : list App.Event) (entries : list jsvalue) :
  Forall (fun ev => ev <> App.ResetScores) evs ->
  App.history s = VArray entries ->
  App.run s evs = Ok s' ->
  exists more, App.history s' = VArray (entries ++ more) /\ (length more <= length evs)%nat.
Proof.
  intros Hevs. revert s entries.
  induction Hevs as [|ev evs Hev _ IH]; intros s entries Hentries; cbn [App.run].
  - intros Heq. apply Ok_inj in Heq. subst s'. exists []. by rewrite app_nil_r.
  - destruct (App.step s ev) as [s1|] eqn:Hstep; [|done]. rewrite bind_Ok. intros Hrun.
    destruct (step_history s ev s1 entries Hev Hstep Hentries) as (more1 & Hh1 & Hlen1).
    destruct (IH s1 _ Hh1 Hrun) as (more & Hh & Hlen).
    exists (more1 ++ more). split; [by rewrite Hh, <- (assoc_L (++))|].
    rewrite length_app. cbn [length]. lia.
Qed.

(** ** The further properties at sample inputs *)

Lemma saveScore_keeps_last_100_witness :
  exists kept,
    @saveScore steady_runtime (VNumber (num 7)) sample_storage =
      Ok (<[js "typing_scores" := @JSON_stringify steady_runtime (VArray kept)]> sample_storage) /\
    length kept = 2%nat /\ last kept = Some (VNumber (num 7)).
Proof.
  destruct (@saveScore_keeps_last_100 steady_runtime (VNumber (num 7)) sample_storage
              [VObject [(js "wpm", VNumber (num 4)); (js "topic", VString (js "random"))]])
    as (kept & Hsave & _ & _ & Hlen & Hlast & _); [vm_compute; reflexivity|].
  exists kept. split; [exact Hsave|]. split; [exact Hlen|exact Hlast].
Defined.

Lemma saveScore_throws_on_unreadable_history_witness :
  @saveScore steady_runtime (VNumber (num 7)) sample_stored_object = Throw TypeError.
Proof.
  apply (@saveScore_throws_on_unreadable_history steady_runtime (VNumber (num 7))
           sample_stored_object (Ok (VObject []))).
  - vm_compute. reflexivity.
  - intros l. discriminate.
Defined.

Lemma getScoreHistory_after_saveScore_witness :
  getScoreHistory (<[js "typing_scores" := js "[7]"]> (∅ : Storage)) =
    Ok (VArray [VNumber (num 7)]).
Proof.
  apply (@getScoreHistory_after_saveScore printing_runtime (VNumber (num 7)) ∅
           (<[js "typing_scores" := js "[7]"]> ∅) []).
  - vm_compute. reflexivity.
  - vm_compute. reflexivity.
  - vm_compute. reflexivity.
Defined.

Lemma initGame_fresh_session_witness :
  exists s', @App.initGame steady_runtime 60 None (App.initial ∅) = Ok s' /\
    types.text <$> App.words s' ≡ₚ DEFAULT_WORDS /\
    App.currentIndex s' = 0%nat /\ App.timeLeft s' = 60 /\ App.status s' = types.idle.
Proof.
  destruct (@initGame_fresh_session steady_runtime 60 None (App.initial ∅))
    as (_ & s' & Hinit & Htexts & _ & Hidx & _ & _ & Htl & Hst & _);
    [vm_compute; discriminate|].
  exists s'. split; [exact Hinit|]. split; [exact Htexts|]. split; [exact Hidx|].
  split; [exact Htl|exact Hst].
Defined.

Lemma generated_words_start_session_witness :
  exists s', @App.step steady_runtime sample_awaiting (App.Generated 0 []) = Ok s' /\
    types.text <$> App.words s' ≡ₚ DEFAULT_WORDS /\ App.isLoading s' = false.
Proof.
  destruct (@generated_words_start_session steady_runtime sample_awaiting 0%nat 60 [])
    as (s' & Hstep & Htexts & Hload & _); [vm_compute; reflexivity|].
  exists s'. split; [exact Hstep|]. split; [exact Htexts|exact Hload].
Defined.

Lemma exact_word_is_correct_witness :
  exists s', @App.step steady_runtime sample_mounted (App.InputChange (js "the ")) = Ok s' /\
    App.words s' !! 0%nat = Some {| types.text := js "the"; types.status := types.correct |} /\
    types.correctWords (App.stats s') = 1%nat.
Proof.
  destruct (@exact_word_is_correct steady_runtime sample_mounted
              {| types.text := js "the"; types.status := types.active |} (js "the "))
    as (s' & Hstep & Hgood & _);
    [vm_compute; discriminate|vm_compute; reflexivity|vm_compute; reflexivity|
     vm_compute; reflexivity|].
  destruct Hgood as (Hw & Hc & _); [vm_compute; reflexivity|vm_compute; reflexivity|].
  exists s'. split; [exact Hstep|]. split; [exact Hw|exact Hc].
Defined.

Lemma words_stay_in_order_witness :
  (forall i w, App.words sample_played !! i = Some w ->
     ((i < 2)%nat -> types.status w = types.correct \/ types.status w = types.incorrect) /\
     (i = 2%nat -> types.status w = types.active \/ types.status w = types.pending) /\
     ((2 < i)%nat -> types.status w = types.pending)) /\
  count_status types.correct (App.words sample_played) = 1%nat /\
  count_status types.incorrect (App.words sample_played) = 1%nat.
Proof.
  destruct (@words_stay_in_order steady_runtime ∅ sample_mounted sample_played sample_play)
    as (Hord & Hc & Hi); [vm_compute; reflexivity|vm_compute; reflexivity|].
  split; [exact Hord|]. split; [symmetry; exact Hc|symmetry; exact Hi].
Defined.

Lemma draft_stays_in_bounds_witness :
  endsWith (App.inputValue sample_played) SPACE = false /\
  forall w, App.words sample_played !! App.currentIndex sample_played = Some w ->
            (length (App.inputValue sample_played) <= length (types.text w) + 3)%nat.
Proof.
  apply (@draft_stays_in_bounds steady_runtime ∅ sample_mounted sample_played sample_play).
  - vm_compute. reflexivity.
  - vm_compute. reflexivity.
Defined.

Lemma timer_stays_in_range_witness :
  0 <= App.timeLeft sample_played <= 300 /\
  App.duration sample_played ∈ TIME_OPTIONS /\
  forall i c, App.intervals sample_played !! i = Some c -> App.closed_duration c ∈ TIME_OPTIONS.
Proof.
  apply (@timer_stays_in_range steady_runtime ∅ sample_mounted sample_played sample_play).
  - vm_compute. reflexivity.
  - vm_compute. reflexivity.
Defined.

Lemma stale_timer_scores_every_tick_witness :
  exists s' entries scores,
    App.history sample_two_timers = VArray entries /\
    @App.run steady_runtime sample_two_timers (replicate 3 (App.Tick 1%nat)) = Ok s' /\
    App.history s' = VArray (entries ++ scores) /\ length scores = 3%nat /\
    App.status s' = types.finished.
Proof.
  destruct (@stale_timer_scores_every_tick steady_runtime sample_two_timers 1%nat
              {| App.closed_duration := 60;
                 App.closed_selectedTopic := js "random";
                 App.closed_customTopic := [] |} 3%nat)
    as (s' & entries & scores & Hentries & Hrun & Hh & Hlen & _ & Hfin).
  - exact steady_stringify_parses.
  - split; exists []; vm_compute; reflexivity.
  - vm_compute. reflexivity.
  - vm_compute. discriminate.
  - vm_compute. discriminate.
  - exists s', entries, scores. split; [exact Hentries|]. split; [exact Hrun|].
    split; [exact Hh|]. split; [exact Hlen|]. apply Hfin. lia.
Defined.

Lemma status_changes_by_rule_witness : App.status sample_started = types.playing.
Proof.
  apply (proj2 (@status_changes_by_rule steady_runtime sample_mounted sample_started
                  (App.InputChange (js "t")) ltac:(vm_compute; reflexivity)) (js "t")).
  - reflexivity.
  - vm_compute. reflexivity.
  - vm_compute. reflexivity.
Defined.

Lemma shuffleArray_draws_determined_witness :
  @random_index cycling_runtime (0 + (4 - 1 - 1)) 1 =
    @random_index cycling_runtime (4 + (4 - 1 - 1)) 1 /\
  @random_index cycling_runtime (0 + (4 - 1 - 2)) 2 =
    @random_index cycling_runtime (4 + (4 - 1 - 2)) 2 /\
  @random_index cycling_runtime (0 + (4 - 1 - 3)) 3 =
    @random_index cycling_runtime (4 + (4 - 1 - 3)) 3.
Proof.
  assert (Hdraws : forall i, (1 <= i < 4)%nat ->
            @random_index cycling_runtime (0 + (4 - 1 - i)) i =
            @random_index cycling_runtime (4 + (4 - 1 - i)) i).
  { apply (@shuffleArray_draws_determined nat cycling_runtime cycling_runtime
             1%positive 0%nat 4%nat
             {[ 1%positive := [10; 20; 30; 40]%nat ]} [10; 20; 30; 40]%nat
             2%positive 2%positive
             (<[2%positive := [30; 20; 40; 10]%nat]> {[ 1%positive := [10; 20; 30; 40]%nat ]})
             (<[2%positive := [30; 20; 40; 10]%nat]> {[ 1%positive := [10; 20; 30; 40]%nat ]})
             3%nat 7%nat).
    - exact cycling_in_range.
    - exact cycling_in_range.
    - vm_compute. reflexivity.
    - vm_compute. reflexivity.
    - apply (bool_decide_unpack (NoDup [10; 20; 30; 40]%nat)). vm_compute. exact I.
    - vm_compute. reflexivity.
    - vm_compute. reflexivity.
    - vm_compute. reflexivity. }
  split; [apply Hdraws; lia|]. split; apply Hdraws; lia.
Defined.

Lemma shuffleArray_reaches_every_order_witness :
  exists R : Runtime, @Math_random_in_range R /\
    exists newArray h' k',
      @shuffleArray R nat 1%positive 0%nat {[ 1%positive := [10; 20; 30]%nat ]} =
        Some (newArray, h', k') /\
      h' !! newArray = Some [30; 10; 20]%nat.
Proof.
  apply (@shuffleArray_reaches_every_order nat 1%positive 0%nat
           {[ 1%positive := [10; 20; 30]%nat ]} [10; 20; 30]%nat [30; 10; 20]%nat).
  - vm_compute. reflexivity.
  - vm_compute. discriminate.
  - apply (bool_decide_unpack ([30; 10; 20]%nat ≡ₚ [10; 20; 30]%nat)). vm_compute. exact I.
Defined.

Lemma live_statistics_start_at_zero_witness :
  livePace sample_mounted = num 0 /\ liveAccuracy sample_mounted = num 0.
Proof.
  split.
  - apply (proj1 (@live_statistics_start_at_zero steady_runtime) sample_mounted).
    vm_compute. discriminate.
  - apply (proj1 (proj2 (@live_statistics_start_at_zero steady_runtime)) sample_mounted).
    + vm_compute. reflexivity.
    + vm_compute. reflexivity.
Defined.

Lemma statistics_within_one_below_exact_witness :
  (exists n, calculateAccuracy (num 23) (num 17) = num n /\ 0 <= n <= 100 /\
     accuracy_exact 23 17 - 1 <= n <= accuracy_exact 23 17) /\
  (exists n, calculateWPM (num 49) (num 60) = num n /\ 0 <= n /\
     wpm_exact 49 60 - 1 <= n <= wpm_exact 49 60).
Proof.
  apply (statistics_within_one_below_exact 23 17 49 60); try lia.
  apply (bool_decide_unpack (60 ∈ TIME_OPTIONS)). vm_compute. exact I.
Defined.

Lemma play_never_undoes_witness :
  types.text <$> App.words sample_mounted `prefix_of` types.text <$> App.words sample_played /\
  (App.currentIndex sample_mounted <= App.currentIndex sample_played)%nat /\
  (types.correctWords (App.stats sample_mounted) <=
     types.correctWords (App.stats sample_played))%nat /\
  (types.incorrectWords (App.stats sample_mounted) <=
     types.incorrectWords (App.stats sample_played))%nat /\
  (types.totalKeystrokes (App.stats sample_mounted) <=
     types.totalKeystrokes (App.stats sample_played))%nat.
Proof.
  apply (@play_never_undoes steady_runtime sample_mounted sample_played sample_play).
  - repeat constructor.
  - vm_compute. reflexivity.
Defined.

Lemma generateThematicWords_words_witness :
  @generateThematicWords ascii_lower (Ok (Some (js "Cloud a Server"))) =
    [js "cloud"; js "server"].
Proof.
  apply (proj2 (proj2 (proj2 (proj2 (@generateThematicWords_words ascii_lower))))
           [js "Cloud"; js "a"; js "Server"]).
  - discriminate.
  - repeat constructor; try discriminate; vm_compute; reflexivity.
Defined.

Lemma history_only_grows_witness :
  exists more,
    App.history sample_after_end = VArray ([] ++ more) /\ (length more <= 3)%nat.
Proof.
  apply (@history_only_grows steady_runtime sample_two_timers sample_after_end
           (replicate 3 (App.Tick 1%nat)) []).
  - repeat constructor; discriminate.
  - vm_compute. reflexivity.
  - vm_compute. reflexivity.
Defined.
